(** * Fueling-request tracker: a shallow embedding of [src/index.tsx]

    The React application keeps one piece of shared state, the list of
    fueling requests, and changes it through state updaters passed to
    [setRequests].  Every updater of the source is a function on lists
    here; the browser services the code calls ([localStorage], [uuidv4],
    the clock, timers) are threaded through an explicit world. *)

From Stdlib Require Import ZArith Lia.
From stdpp Require Import base decidable option numbers strings list gmap.

Local Open Scope N_scope.
#[local] Set Warnings "-register-all".

(** ** JavaScript strings

    A JavaScript string is a sequence of UTF-16 code units. *)

Abbreviation jschar := N (only parsing).
Abbreviation jsstring := (list N) (only parsing).

(** [s1 === s2] on strings. *)
Definition str_eq (s1 s2 : jsstring) : bool := bool_decide (s1 = s2).

(** Truthiness of a string: only the empty string is falsy. *)
Definition truthy (s : jsstring) : bool :=
  match s with [] => false | _ :: _ => true end.

(** The code units [String.prototype.trim] strips: ECMAScript's WhiteSpace
    and LineTerminator productions. *)
Definition is_white_space (c : jschar) : bool :=
  (c =? 9) || (c =? 10) || (c =? 11) || (c =? 12) || (c =? 13) || (c =? 32)
  || (c =? 160) || (c =? 5760) || ((8192 <=? c) && (c <=? 8202))
  || (c =? 8232) || (c =? 8233) || (c =? 8239) || (c =? 8287)
  || (c =? 12288) || (c =? 65279).

Fixpoint trimStart (s : jsstring) : jsstring :=
  match s with
  | [] => []
  | c :: s' => if is_white_space c then trimStart s' else s
  end.

Definition trimEnd (s : jsstring) : jsstring := rev (trimStart (rev s)).

Definition trim (s : jsstring) : jsstring := trimEnd (trimStart s).

(** ** Type definitions (index.tsx, lines 6-25) *)

Inductive Sender := Client | Company.

(** A [Date] as its time value, milliseconds since the epoch. *)
Definition Date := Z.

Record Message := {
  msg_id : jsstring;
  sender : Sender;
  text : jsstring;
  timestamp : Date;
}.

Inductive RequestStatus := Pending | Confirmed | Completed | Cancelled.

Record FuelingRequest := {
  id : jsstring;
  clientId : jsstring;
  standNumber : jsstring;
  airline : jsstring;
  flightNumber : jsstring;
  representativeName : jsstring;
  status : RequestStatus;
  messages : list Message;
  hasUnreadUpdates : bool;
}.

Global Instance Sender_eq_dec : EqDecision Sender.
Proof. solve_decision. Defined.

Global Instance RequestStatus_eq_dec : EqDecision RequestStatus.
Proof. solve_decision. Defined.

Global Instance Message_eq_dec : EqDecision Message.
Proof. solve_decision. Defined.

Global Instance FuelingRequest_eq_dec : EqDecision FuelingRequest.
Proof. solve_decision. Defined.

(** Object spread with one field overridden: [{ ...r, status: s }] etc. *)
Definition with_status (r : FuelingRequest) (s : RequestStatus) : FuelingRequest :=
  {| id := id r; clientId := clientId r; standNumber := standNumber r;
     airline := airline r; flightNumber := flightNumber r;
     representativeName := representativeName r; status := s;
     messages := messages r; hasUnreadUpdates := hasUnreadUpdates r |}.

Definition with_messages (r : FuelingRequest) (ms : list Message) : FuelingRequest :=
  {| id := id r; clientId := clientId r; standNumber := standNumber r;
     airline := airline r; flightNumber := flightNumber r;
     representativeName := representativeName r; status := status r;
     messages := ms; hasUnreadUpdates := hasUnreadUpdates r |}.

Definition with_hasUnreadUpdates (r : FuelingRequest) (b : bool) : FuelingRequest :=
  {| id := id r; clientId := clientId r; standNumber := standNumber r;
     airline := airline r; flightNumber := flightNumber r;
     representativeName := representativeName r; status := status r;
     messages := messages r; hasUnreadUpdates := b |}.

(** ASCII literals as code units. *)
Definition ascii_units (s : string) : jsstring :=
  map Ascii.N_of_ascii (String.list_ascii_of_string s).
Arguments ascii_units s%_string.

(** ** Mock initial data (lines 28-54)

    The two timestamps are taken relative to the clock at module load. *)
Definition seed_request_1 : FuelingRequest :=
  {| id := ascii_units "req-1";
     clientId := ascii_units "client-abc";
     standNumber := ascii_units "B7";
     airline := [1605; 1589; 1585; 32; 1604; 1604; 1591; 1610; 1585; 1575; 1606];
     flightNumber := ascii_units "MS612";
     representativeName := [1571; 1581; 1605; 1583; 32; 1605; 1581; 1605; 1608; 1583];
     status := Pending;
     messages := [];
     hasUnreadUpdates := false |}.

Definition seed_request_2 (now : Date) : FuelingRequest :=
  {| id := ascii_units "req-2";
     clientId := ascii_units "client-xyz";
     standNumber := ascii_units "C3";
     airline := [1575; 1604; 1593; 1585; 1576; 1610; 1577; 32; 1604; 1604;
                 1591; 1610; 1585; 1575; 1606];
     flightNumber := ascii_units "G9-261";
     representativeName := [1601; 1575; 1591; 1605; 1577; 32; 1575; 1604;
                            1586; 1607; 1585; 1575; 1569];
     status := Confirmed;
     messages :=
       [ {| msg_id := ascii_units "msg-1"; sender := Company;
            text := [1578; 1605; 32; 1575; 1604; 1578; 1571; 1603; 1610;
                     1583; 1548; 32; 1575; 1604; 1601; 1585; 1610; 1602;
                     32; 1601; 1610; 32; 1575; 1604; 1591; 1585; 1610;
                     1602; 46];
            timestamp := (now - 5 * 60000)%Z |};
         {| msg_id := ascii_units "msg-2"; sender := Client;
            text := [1588; 1603; 1585; 1611; 1575; 32; 1604; 1603; 1605;
                     1548; 32; 1601; 1610; 32; 1575; 1604; 1575; 1606;
                     1578; 1592; 1575; 1585; 46];
            timestamp := (now - 3 * 60000)%Z |} ];
     hasUnreadUpdates := true |}.

Definition initialRequests (now : Date) : list FuelingRequest :=
  [ seed_request_1; seed_request_2 now ].

(** ** The request collection and its updaters

    [requests.find(r => r.id === i)]: the first request with that id. *)
Definition find_by_id (i : jsstring) (requests : list FuelingRequest)
  : option FuelingRequest :=
  List.find (fun r => str_eq (id r) i) requests.

(** [updateRequest] (lines 319-321 and 433-435): the updater
    [prev => prev.map(r => r.id === updatedRequest.id ? updatedRequest : r)]. *)
Definition updateRequest (updatedRequest : FuelingRequest)
    (prev : list FuelingRequest) : list FuelingRequest :=
  map (fun r => if str_eq (id r) (id updatedRequest) then updatedRequest else r) prev.

(** *** Operator view (CompanyView)

    A handler reads [requests], the collection of the render it was created
    in, and returns the updater it hands to [setRequests]; when it hands over
    nothing the updater is the identity. *)
Definition Updater := list FuelingRequest -> list FuelingRequest.

(** [handleStatusChange] (lines 323-328). *)
Definition handleStatusChange (requests : list FuelingRequest)
    (i : jsstring) (newStatus : RequestStatus) : Updater :=
  match find_by_id i requests with
  | Some requestToUpdate =>
      updateRequest
        (with_hasUnreadUpdates (with_status requestToUpdate newStatus) true)
  | None => fun prev => prev
  end.

(** The confirmation dialog's state (line 317). *)
Inductive ModalAction := clearCompleted | cancelRequest.

Global Instance ModalAction_eq_dec : EqDecision ModalAction.
Proof. solve_decision. Defined.

Record ModalState := {
  isOpen : bool;
  action : option ModalAction;
  requestId : option jsstring;
}.

Definition modal_closed : ModalState :=
  {| isOpen := false; action := None; requestId := None |}.

Record CompanyState := {
  requests : list FuelingRequest;
  modalState : ModalState;
}.

(** The updater of the clear-completed action (line 348):
    [prev => prev.filter(r => r.status !== 'Completed')]. *)
Definition removeCompleted (prev : list FuelingRequest) : list FuelingRequest :=
  List.filter (fun r => negb (bool_decide (status r = Completed))) prev.

(** [handleConfirmAction] (lines 346-354).  Both [if]s run in turn; the
    updaters they enqueue are applied in order. *)
Definition handleConfirmAction (st : CompanyState) : CompanyState :=
  let m := modalState st in
  let u1 : Updater :=
    if bool_decide (action m = Some clearCompleted)
    then removeCompleted else fun prev => prev in
  let u2 : Updater :=
    match requestId m with
    | Some rid =>
        if bool_decide (action m = Some cancelRequest) && truthy rid
        then handleStatusChange (requests st) rid Cancelled
        else fun prev => prev
    | None => fun prev => prev
    end in
  {| requests := u2 (u1 (requests st)); modalState := modal_closed |}.

(** [hasCompletedRequests] (line 356). *)
Definition hasCompletedRequests (requests : list FuelingRequest) : bool :=
  existsb (fun r => bool_decide (status r = Completed)) requests.

(** The three controls of a request card in the operator view and their
    [disabled] attributes (lines 182-184). *)
Inductive Control := ConfirmButton | CompleteButton | CancelButton.

Definition disabled (c : Control) (request : FuelingRequest) : bool :=
  match c with
  | ConfirmButton =>
      bool_decide (status request = Confirmed)
      || bool_decide (status request = Completed)
      || bool_decide (status request = Cancelled)
  | CompleteButton | CancelButton =>
      bool_decide (status request = Completed)
      || bool_decide (status request = Cancelled)
  end.

(** A click on a control of the card rendered for [request].  A disabled
    button dispatches no click event; the cancel control only opens the
    confirmation dialog (line 382). *)
Definition onClick (c : Control) (request : FuelingRequest)
    (st : CompanyState) : CompanyState :=
  if disabled c request then st else
  match c with
  | ConfirmButton =>
      {| requests := handleStatusChange (requests st) (id request) Confirmed (requests st);
         modalState := modalState st |}
  | CompleteButton =>
      {| requests := handleStatusChange (requests st) (id request) Completed (requests st);
         modalState := modalState st |}
  | CancelButton =>
      {| requests := requests st;
         modalState := {| isOpen := true; action := Some cancelRequest;
                          requestId := Some (id request) |} |}
  end.

(** The whole gesture behind an enabled control: for the cancel control the
    click followed by the dialog's confirm button. *)
Definition operate (c : Control) (request : FuelingRequest)
    (st : CompanyState) : CompanyState :=
  if disabled c request then st else
  match c with
  | CancelButton => handleConfirmAction (onClick c request st)
  | _ => onClick c request st
  end.

(** The props a view passes to a request card (lines 151-159): the request,
    the view and whether its chat panel is open. *)
Record RequestCard := {
  card_request : FuelingRequest;
  card_view : Sender;
  card_isChatOpen : bool;
}.

(** The operator view renders one card per request of the collection
    (lines 373-385). *)
Definition CompanyView_cards (requests : list FuelingRequest)
    (openChatId : option jsstring) : list RequestCard :=
  map (fun req => {| card_request := req; card_view := Company;
                     card_isChatOpen := bool_decide (openChatId = Some (id req)) |})
      requests.

(** The edges of the status machine. *)
Definition edge (s1 s2 : RequestStatus) : bool :=
  match s1, s2 with
  | Pending, Confirmed | Pending, Completed | Confirmed, Completed
  | Pending, Cancelled | Confirmed, Cancelled => true
  | _, _ => false
  end.

(** The status a control asks for: the literal passed to
    [handleStatusChange] by its handler (lines 182-183, and line 350 for the
    cancel control, through the dialog). *)
Definition target (c : Control) : RequestStatus :=
  match c with
  | ConfirmButton => Confirmed
  | CompleteButton => Completed
  | CancelButton => Cancelled
  end.

(** ** The browser: exceptions, [localStorage], [uuidv4], the clock *)

Inductive Exn :=
  | QuotaExceededError   (* thrown by [localStorage.setItem] *)
  | SyntaxError.         (* thrown by [JSON.parse] *)

Inductive Outcome (A : Type) :=
  | Return (a : A)
  | Throw (e : Exn).
Arguments Return {A} a.
Arguments Throw {A} e.

(** The origin's storage area: its items and the quota of the origin,
    counted in code units of keys and values. *)
Record Storage := {
  items : gmap jsstring jsstring;
  quota : N;
}.

Definition storage_size (m : gmap jsstring jsstring) : N :=
  map_fold (fun k v acc => N.of_nat (length k) + N.of_nat (length v) + acc) 0 m.

Record World := {
  localStorage : Storage;
  uuid_calls : nat;      (* how many ids [uuidv4] has handed out *)
  clock : Date;          (* the time [new Date()] and [Date.now()] read *)
}.

(** A computation that reads and writes the world and may throw; the world
    a throwing computation leaves behind is the one at the throw. *)
Definition JS (A : Type) : Type := World -> Outcome A * World.

Global Instance JS_ret : MRet JS := fun A a w => (Return a, w).

Global Instance JS_bind : MBind JS := fun A B k c w =>
  match c w with
  | (Return a, w') => k a w'
  | (Throw e, w') => (Throw e, w')
  end.

Definition throw {A} (e : Exn) : JS A := fun w => (Throw e, w).

(** [localStorage.getItem(key)]: [null] is [None]. *)
Definition getItem (key : jsstring) : JS (option jsstring) := fun w =>
  (Return (items (localStorage w) !! key), w).

(** [localStorage.setItem(key, value)]: throws [QuotaExceededError] and
    stores nothing when the new contents would not fit the quota. *)
Definition setItem (key value : jsstring) : JS unit := fun w =>
  let st := localStorage w in
  let items' := <[key := value]> (items st) in
  if storage_size items' <=? quota st then
    (Return tt,
     {| localStorage := {| items := items'; quota := quota st |};
        uuid_calls := uuid_calls w; clock := clock w |})
  else (Throw QuotaExceededError, w).

(** [new Date()] / [Date.now()]. *)
Definition Date_now : JS Date := fun w => (Return (clock w), w).

Definition key_fuelingServiceClientId : jsstring := ascii_units "fuelingServiceClientId".
Definition key_fuelingRequests : jsstring := ascii_units "fuelingRequests".

(** The world once [uuidv4] has handed out one more id. *)
Definition uuid_drawn (w : World) : World :=
  {| localStorage := localStorage w; uuid_calls := S (uuid_calls w);
     clock := clock w |}.

Section WithUuid.

(** The ids the random generator behind [uuidv4] hands out, in call order. *)
Variable uuid_source : nat -> jsstring.

Definition uuidv4 : JS jsstring := fun w =>
  (Return (uuid_source (uuid_calls w)), uuid_drawn w).

(** [getClientId] (lines 58-65). *)
Definition getClientId : JS jsstring :=
  clientId0 ← getItem key_fuelingServiceClientId;
  match clientId0 with
  | Some c =>
      if truthy c then mret c
      else (c' ← uuidv4; setItem key_fuelingServiceClientId c';; mret c')
  | None => c' ← uuidv4; setItem key_fuelingServiceClientId c';; mret c'
  end.

End WithUuid.

(** ** JSON

    What [JSON.parse] builds, with [Date] objects for what the reviver of
    line 400 makes.  A number keeps its literal text; an object keeps its
    members in the order in which the object lists them: of a repeated
    name the last value, at the place of the first, and the names that
    are array indices first. *)
Inductive JSValue :=
  | VNull
  | VBool (b : bool)
  | VNum (literal : jsstring)
  | VStr (s : jsstring)
  | VArr (elements : list JSValue)
  | VObj (members : list (jsstring * JSValue))
  | VDate (value : JSValue).       (* [new Date(value)] *)

(** *** Lexical grammar of JSON text (ECMA-404), one code unit at a time *)

Inductive Token :=
  | TLBrace | TRBrace | TLBracket | TRBracket | TColon | TComma
  | TString (s : jsstring)
  | TNumber (literal : jsstring)
  | TTrue | TFalse | TNull.

Inductive NumState :=
  | NMinus | NZero | NInt | NDot | NFrac | NExp | NExpSign | NExpDigits.

Inductive LexState :=
  | LIdle
  | LString (acc : jsstring)                      (* inside a string, reversed *)
  | LEscape (acc : jsstring)                      (* after a backslash *)
  | LUnicode (acc : jsstring) (k : nat) (code : N)  (* in \u, k digits to come *)
  | LNumber (ns : NumState) (acc : jsstring)      (* inside a number, reversed *)
  | LLiteral (rest : jsstring) (tok : Token).     (* inside true, false, null *)

Definition is_digit (c : jschar) : bool := (48 <=? c) && (c <=? 57).

Definition hex_value (c : jschar) : option N :=
  if (48 <=? c) && (c <=? 57) then Some (c - 48)
  else if (97 <=? c) && (c <=? 102) then Some (c - 87)
  else if (65 <=? c) && (c <=? 70) then Some (c - 55)
  else None.

Definition lex_idle (c : jschar) : option (LexState * list Token) :=
  if (c =? 32) || (c =? 9) || (c =? 10) || (c =? 13) then Some (LIdle, [])
  else if c =? 123 then Some (LIdle, [TLBrace])
  else if c =? 125 then Some (LIdle, [TRBrace])
  else if c =? 91 then Some (LIdle, [TLBracket])
  else if c =? 93 then Some (LIdle, [TRBracket])
  else if c =? 58 then Some (LIdle, [TColon])
  else if c =? 44 then Some (LIdle, [TComma])
  else if c =? 34 then Some (LString [], [])
  else if c =? 45 then Some (LNumber NMinus [c], [])
  else if c =? 48 then Some (LNumber NZero [c], [])
  else if is_digit c then Some (LNumber NInt [c], [])
  else if c =? 116 then Some (LLiteral (ascii_units "rue") TTrue, [])
  else if c =? 102 then Some (LLiteral (ascii_units "alse") TFalse, [])
  else if c =? 110 then Some (LLiteral (ascii_units "ull") TNull, [])
  else None.

Inductive NumStep := NumNext (ns : NumState) | NumEnd | NumBad.

Definition is_exp_mark (c : jschar) : bool := (c =? 101) || (c =? 69).

Definition num_step (ns : NumState) (c : jschar) : NumStep :=
  match ns with
  | NMinus => if c =? 48 then NumNext NZero
              else if is_digit c then NumNext NInt else NumBad
  | NZero => if c =? 46 then NumNext NDot
             else if is_exp_mark c then NumNext NExp else NumEnd
  | NInt => if is_digit c then NumNext NInt
            else if c =? 46 then NumNext NDot
            else if is_exp_mark c then NumNext NExp else NumEnd
  | NDot => if is_digit c then NumNext NFrac else NumBad
  | NFrac => if is_digit c then NumNext NFrac
             else if is_exp_mark c then NumNext NExp else NumEnd
  | NExp => if (c =? 43) || (c =? 45) then NumNext NExpSign
            else if is_digit c then NumNext NExpDigits else NumBad
  | NExpSign => if is_digit c then NumNext NExpDigits else NumBad
  | NExpDigits => if is_digit c then NumNext NExpDigits else NumEnd
  end.

Definition num_complete (ns : NumState) : bool :=
  match ns with
  | NZero | NInt | NFrac | NExpDigits => true
  | _ => false
  end.

Definition lex_step (st : LexState) (c : jschar) : option (LexState * list Token) :=
  match st with
  | LIdle => lex_idle c
  | LString acc =>
      if c =? 34 then Some (LIdle, [TString (rev acc)])
      else if c =? 92 then Some (LEscape acc, [])
      else if c <? 32 then None
      else Some (LString (c :: acc), [])
  | LEscape acc =>
      if c =? 34 then Some (LString (34 :: acc), [])
      else if c =? 92 then Some (LString (92 :: acc), [])
      else if c =? 47 then Some (LString (47 :: acc), [])
      else if c =? 98 then Some (LString (8 :: acc), [])
      else if c =? 102 then Some (LString (12 :: acc), [])
      else if c =? 110 then Some (LString (10 :: acc), [])
      else if c =? 114 then Some (LString (13 :: acc), [])
      else if c =? 116 then Some (LString (9 :: acc), [])
      else if c =? 117 then Some (LUnicode acc 4 0, [])
      else None
  | LUnicode acc k code =>
      match hex_value c with
      | Some d =>
          let code' := code * 16 + d in
          match k with
          | O | S O => Some (LString (code' :: acc), [])
          | S k' => Some (LUnicode acc k' code', [])
          end
      | None => None
      end
  | LNumber ns acc =>
      match num_step ns c with
      | NumNext ns' => Some (LNumber ns' (c :: acc), [])
      | NumEnd =>
          match lex_idle c with
          | Some (st', toks) => Some (st', TNumber (rev acc) :: toks)
          | None => None
          end
      | NumBad => None
      end
  | LLiteral rest tok =>
      match rest with
      | r :: rest' =>
          if c =? r then
            match rest' with
            | [] => Some (LIdle, [tok])
            | _ :: _ => Some (LLiteral rest' tok, [])
            end
          else None
      | [] => None
      end
  end.

Definition lex_end (st : LexState) : option (list Token) :=
  match st with
  | LIdle => Some []
  | LNumber ns acc => if num_complete ns then Some [TNumber (rev acc)] else None
  | _ => None
  end.

Fixpoint lex (st : LexState) (s : jsstring) : option (list Token) :=
  match s with
  | [] => lex_end st
  | c :: s' =>
      match lex_step st c with
      | Some (st', toks) =>
          match lex st' s' with
          | Some rest => Some (toks ++ rest)
          | None => None
          end
      | None => None
      end
  end.

(** *** Syntactic grammar: one value, built over an explicit stack *)

Inductive Frame :=
  | FArr (acc : list JSValue)                  (* elements so far, reversed *)
  | FObj (acc : list (jsstring * JSValue))     (* members so far, reversed *)
  | FKey (k : jsstring).                       (* member name read, value due *)

Inductive Mode :=
  | MValue            (* a value is due *)
  | MValueOrClose     (* just after [ *)
  | MKeyOrClose       (* just after { *)
  | MKey              (* after a comma in an object *)
  | MColon            (* after a member name *)
  | MAfter            (* after a value inside an array or object *)
  | MDone (v : JSValue).

(** A value is complete: hand it to the enclosing construct. *)
Definition complete (v : JSValue) (stack : list Frame) : option (list Frame * Mode) :=
  match stack with
  | [] => Some ([], MDone v)
  | FArr acc :: stack' => Some (FArr (v :: acc) :: stack', MAfter)
  | FKey k :: FObj acc :: stack' => Some (FObj ((k, v) :: acc) :: stack', MAfter)
  | _ => None
  end.

Definition start_value (t : Token) (stack : list Frame) : option (list Frame * Mode) :=
  match t with
  | TString s => complete (VStr s) stack
  | TNumber n => complete (VNum n) stack
  | TTrue => complete (VBool true) stack
  | TFalse => complete (VBool false) stack
  | TNull => complete VNull stack
  | TLBracket => Some (FArr [] :: stack, MValueOrClose)
  | TLBrace => Some (FObj [] :: stack, MKeyOrClose)
  | _ => None
  end.

Definition close_array (stack : list Frame) : option (list Frame * Mode) :=
  match stack with
  | FArr acc :: stack' => complete (VArr (rev acc)) stack'
  | _ => None
  end.

(** The object built from the members of an object text.  A name is an
    array index when it is the canonical decimal text of an integer from
    [0] to [2^32 - 2]. *)
Definition array_index (name : jsstring) : option N :=
  match name with
  | [] => None
  | c :: rest =>
      if forallb is_digit name && (negb (c =? 48) || bool_decide (rest = []))
      then
        let n := fold_left (fun acc d => 10 * acc + (d - 48)) name 0 in
        if n <=? 4294967294 then Some n else None
      else None
  end.

(** CreateDataProperty on the properties so far, in creation order: a name
    already present keeps its place and takes the new value, a new name
    goes to the end. *)
Definition CreateDataProperty (ps : list (jsstring * JSValue))
    (kv : jsstring * JSValue) : list (jsstring * JSValue) :=
  if existsb (fun p => str_eq (fst p) (fst kv)) ps
  then map (fun p => if str_eq (fst p) (fst kv) then kv else p) ps
  else ps ++ [kv].

Fixpoint insert_index (n : N) (kv : jsstring * JSValue)
    (l : list (N * (jsstring * JSValue))) : list (N * (jsstring * JSValue)) :=
  match l with
  | [] => [(n, kv)]
  | (m, x) :: l' =>
      if n <? m then (n, kv) :: l else (m, x) :: insert_index n kv l'
  end.

(** The order in which an object lists its own properties: the array
    indices in ascending order, then the other names in creation order. *)
Definition OrdinaryOwnPropertyKeys (ps : list (jsstring * JSValue))
  : list (jsstring * JSValue) :=
  map snd
    (fold_right (fun kv acc =>
                   match array_index (fst kv) with
                   | Some n => insert_index n kv acc
                   | None => acc
                   end) [] ps)
  ++ List.filter (fun kv => match array_index (fst kv) with
                            | Some _ => false
                            | None => true
                            end) ps.

Definition object_of_members (ms : list (jsstring * JSValue))
  : list (jsstring * JSValue) :=
  OrdinaryOwnPropertyKeys (fold_left CreateDataProperty ms []).

Definition close_object (stack : list Frame) : option (list Frame * Mode) :=
  match stack with
  | FObj acc :: stack' => complete (VObj (object_of_members (rev acc))) stack'
  | _ => None
  end.

Definition parse_step (stack : list Frame) (m : Mode) (t : Token)
  : option (list Frame * Mode) :=
  match m with
  | MValue => start_value t stack
  | MValueOrClose =>
      match t with TRBracket => close_array stack | _ => start_value t stack end
  | MKeyOrClose =>
      match t with
      | TString k => Some (FKey k :: stack, MColon)
      | TRBrace => close_object stack
      | _ => None
      end
  | MKey =>
      match t with TString k => Some (FKey k :: stack, MColon) | _ => None end
  | MColon =>
      match t with TColon => Some (stack, MValue) | _ => None end
  | MAfter =>
      match t with
      | TComma =>
          match stack with
          | FArr _ :: _ => Some (stack, MValue)
          | FObj _ :: _ => Some (stack, MKey)
          | _ => None
          end
      | TRBracket => close_array stack
      | TRBrace => close_object stack
      | _ => None
      end
  | MDone _ => None
  end.

Fixpoint parse_tokens (stack : list Frame) (m : Mode) (ts : list Token)
  : option JSValue :=
  match ts with
  | [] => match m with MDone v => Some v | _ => None end
  | t :: ts' =>
      match parse_step stack m t with
      | Some (stack', m') => parse_tokens stack' m' ts'
      | None => None
      end
  end.

(** [JSON.parse(text)] without a reviver. *)
Definition JSON_parse_text (text0 : jsstring) : Outcome JSValue :=
  match lex LIdle text0 with
  | Some ts =>
      match parse_tokens [] MValue ts with
      | Some v => Return v
      | None => Throw SyntaxError
      end
  | None => Throw SyntaxError
  end.

(** The reviver of lines 400-403 applied bottom-up to every member: the
    value under a key [timestamp] becomes [new Date(value)]; array indices
    and the root's empty key never match. *)
Definition key_timestamp : jsstring := ascii_units "timestamp".

Fixpoint revive (v : JSValue) : JSValue :=
  match v with
  | VArr l => VArr (map revive l)
  | VObj ms =>
      VObj (map (fun kv =>
                   (fst kv,
                    if str_eq (fst kv) key_timestamp
                    then VDate (revive (snd kv)) else revive (snd kv))) ms)
  | _ => v
  end.

(** [JSON.parse(text, reviver)] as called at line 400. *)
Definition JSON_parse (text0 : jsstring) : Outcome JSValue :=
  match JSON_parse_text text0 with
  | Return v => Return (revive v)
  | Throw e => Throw e
  end.

(** *** [JSON.stringify] of the request collection *)

(** [width] decimal digits of [n], most significant first. *)
Fixpoint digits (width : nat) (n : N) : jsstring :=
  match width with
  | O => []
  | S w => digits w (n / 10) ++ [48 + n mod 10]
  end.

Definition hex_digit (d : N) : jschar := if d <? 10 then 48 + d else 87 + d.

(** The escape [\uXXXX] with lower-case digits. *)
Definition unicode_escape (c : jschar) : jsstring :=
  [92; 117; hex_digit (c / 4096 mod 16); hex_digit (c / 256 mod 16);
   hex_digit (c / 16 mod 16); hex_digit (c mod 16)].

Definition is_high_surrogate (c : jschar) : bool := (55296 <=? c) && (c <=? 56319).
Definition is_low_surrogate (c : jschar) : bool := (56320 <=? c) && (c <=? 57343).

(** QuoteJSONString without the surrounding quotes. *)
Fixpoint quote_units (s : jsstring) : jsstring :=
  match s with
  | [] => []
  | c :: s' =>
      if c =? 8 then [92; 98] ++ quote_units s'
      else if c =? 9 then [92; 116] ++ quote_units s'
      else if c =? 10 then [92; 110] ++ quote_units s'
      else if c =? 12 then [92; 102] ++ quote_units s'
      else if c =? 13 then [92; 114] ++ quote_units s'
      else if c =? 34 then [92; 34] ++ quote_units s'
      else if c =? 92 then [92; 92] ++ quote_units s'
      else if c <? 32 then unicode_escape c ++ quote_units s'
      else if is_high_surrogate c then
        match s' with
        | d :: s'' =>
            if is_low_surrogate d then c :: d :: quote_units s''
            else unicode_escape c ++ quote_units s'
        | [] => unicode_escape c
        end
      else if is_low_surrogate c then unicode_escape c ++ quote_units s'
      else c :: quote_units s'
  end.

Definition quote (s : jsstring) : jsstring := [34] ++ quote_units s ++ [34].

(** [Date.prototype.toISOString]: the civil date of a day number counted
    from 1970-01-01, then the fields of the time within the day. *)
Definition civil_from_days (day : Z) : Z * Z * Z :=
  let z := (day + 719468)%Z in
  let era := (z / 146097)%Z in
  let doe := (z - era * 146097)%Z in
  let yoe := ((doe - doe / 1460 + doe / 36524 - doe / 146096) / 365)%Z in
  let doy := (doe - (365 * yoe + yoe / 4 - yoe / 100))%Z in
  let mp := ((5 * doy + 2) / 153)%Z in
  let d := (doy - (153 * mp + 2) / 5 + 1)%Z in
  let m := (if mp <? 10 then mp + 3 else mp - 9)%Z in
  let y := (yoe + era * 400 + (if m <=? 2 then 1 else 0))%Z in
  (y, m, d).

Definition msPerDay : Z := 86400000.

Definition iso_year (y : Z) : jsstring :=
  if ((0 <=? y) && (y <=? 9999))%Z then digits 4 (Z.to_N y)
  else if (y <? 0)%Z then [45] ++ digits 6 (Z.to_N (- y))
  else [43] ++ digits 6 (Z.to_N y).

Definition toISOString (t : Date) : jsstring :=
  let day := (t / msPerDay)%Z in
  let ms := Z.to_N (t mod msPerDay) in
  let '(y, m, d) := civil_from_days day in
  iso_year y ++ [45] ++ digits 2 (Z.to_N m) ++ [45] ++ digits 2 (Z.to_N d)
  ++ [84] ++ digits 2 (ms / 3600000) ++ [58] ++ digits 2 (ms / 60000 mod 60)
  ++ [58] ++ digits 2 (ms / 1000 mod 60) ++ [46] ++ digits 3 (ms mod 1000)
  ++ [90].

(** A time value is valid up to 8.64e15 ms either side of the epoch;
    [toJSON] of an invalid date is [null]. *)
Definition stringify_Date (t : Date) : jsstring :=
  if ((-8640000000000000 <=? t) && (t <=? 8640000000000000))%Z
  then quote (toISOString t) else ascii_units "null".

Definition member (name : string) (value : jsstring) : jsstring :=
  quote (ascii_units name) ++ [58] ++ value.
Arguments member name%_string value.

(** Members or elements separated by commas. *)
Fixpoint commas (parts : list jsstring) : jsstring :=
  match parts with
  | [] => []
  | [p] => p
  | p :: ps => p ++ [44] ++ commas ps
  end.

Definition object (members : list jsstring) : jsstring := [123] ++ commas members ++ [125].
Definition array (elements : list jsstring) : jsstring := [91] ++ commas elements ++ [93].

Definition stringify_Sender (s : Sender) : jsstring :=
  match s with
  | Client => quote (ascii_units "Client")
  | Company => quote (ascii_units "Company")
  end.

Definition stringify_RequestStatus (s : RequestStatus) : jsstring :=
  match s with
  | Pending => quote (ascii_units "Pending")
  | Confirmed => quote (ascii_units "Confirmed")
  | Completed => quote (ascii_units "Completed")
  | Cancelled => quote (ascii_units "Cancelled")
  end.

Definition stringify_bool (b : bool) : jsstring :=
  if b then ascii_units "true" else ascii_units "false".

Definition stringify_Message (m : Message) : jsstring :=
  object [ member "id" (quote (msg_id m));
           member "sender" (stringify_Sender (sender m));
           member "text" (quote (text m));
           member "timestamp" (stringify_Date (timestamp m)) ].

Definition stringify_FuelingRequest (r : FuelingRequest) : jsstring :=
  object [ member "id" (quote (id r));
           member "clientId" (quote (clientId r));
           member "standNumber" (quote (standNumber r));
           member "airline" (quote (airline r));
           member "flightNumber" (quote (flightNumber r));
           member "representativeName" (quote (representativeName r));
           member "status" (stringify_RequestStatus (status r));
           member "messages" (array (map stringify_Message (messages r)));
           member "hasUnreadUpdates" (stringify_bool (hasUnreadUpdates r)) ].

(** [JSON.stringify(requests)]. *)
Definition JSON_stringify (requests : list FuelingRequest) : jsstring :=
  array (map stringify_FuelingRequest requests).

(** ** Application root (App) *)

(** What the state initialiser of lines 397-404 returns: the typed seed, or
    whatever [JSON.parse] built, which enters the state unchecked. *)
Inductive InitialRequests :=
  | Seed (requests : list FuelingRequest)
  | Revived (document : JSValue).

(** The lazy initialiser of [useState]; [loaded] is the clock reading at
    which the module built [initialRequests]. *)
Definition App_initialState (loaded : Date) : JS InitialRequests :=
  savedRequests ← getItem key_fuelingRequests;
  match savedRequests with
  | Some s =>
      if truthy s then
        match JSON_parse s with
        | Return v => mret (Revived v)
        | Throw e => throw e
        end
      else mret (Seed (initialRequests loaded))
  | None => mret (Seed (initialRequests loaded))
  end.

(** The persistence effect of lines 410-412, run after every render in
    which [requests] changed. *)
Definition persist (requests : list FuelingRequest) : JS unit :=
  setItem key_fuelingRequests (JSON_stringify requests).

(** A state change of the request collection followed by the effect it
    triggers.  The root has no error boundary: an exception of the effect
    ends the computation and the collection is not handed back. *)
Definition setRequests (u : Updater) (requests : list FuelingRequest)
  : JS (list FuelingRequest) :=
  let requests' := u requests in
  persist requests';; mret requests'.

(** ** [Array.prototype.sort] as V8 runs it on short arrays

    V8 sorts with TimSort.  Below 64 elements the minimum run length is the
    array length, so the whole sort is: find the run at the start (reversing
    it when it descends), then extend it over the rest by binary insertion;
    no merge takes place.  Longer arrays are outside this model.  The
    comparison function is called as V8 calls it. *)
Section V8Sort.

Context {A : Type} (comparefn : A -> A -> Z).

(** The loop of CountAndMakeRun: how many further elements continue the run. *)
Fixpoint extend_run (isDescending : bool) (previousElement : A) (rest : list A) : nat :=
  match rest with
  | [] => O
  | currentElement :: rest' =>
      let order := comparefn currentElement previousElement in
      if isDescending then
        if (order >=? 0)%Z then O
        else S (extend_run isDescending currentElement rest')
      else
        if (order <? 0)%Z then O
        else S (extend_run isDescending currentElement rest')
  end.

Definition CountAndMakeRun (workArray : list A) : nat * list A :=
  match workArray with
  | [] => (O, workArray)
  | [_] => (1%nat, workArray)
  | elementHigh :: elementLow :: rest =>
      let order := comparefn elementLow elementHigh in
      let isDescending := (order <? 0)%Z in
      let runLength := (2 + extend_run isDescending elementLow rest)%nat in
      (runLength,
       if isDescending
       then rev (take runLength workArray) ++ drop runLength workArray
       else workArray)
  end.

(** The binary search of BinaryInsertionSort; the interval shrinks at every
    turn, so [right - left] turns are enough. *)
Fixpoint insertion_point (turns : nat) (workArray : list A) (pivot : A)
    (left right : nat) : nat :=
  match turns with
  | O => left
  | S turns' =>
      if (left <? right)%nat then
        let mid := (left + (right - left) / 2)%nat in
        match workArray !! mid with
        | Some x =>
            if (comparefn pivot x <? 0)%Z
            then insertion_point turns' workArray pivot left mid
            else insertion_point turns' workArray pivot (mid + 1)%nat right
        | None => left
        end
      else left
  end.

(** One turn of the outer loop per element from [start] on: the pivot is
    taken out of position [start] and put in at its insertion point. *)
Fixpoint insertion_loop (count start : nat) (workArray : list A) : list A :=
  match count with
  | O => workArray
  | S count' =>
      match workArray !! start with
      | Some pivot =>
          let left := insertion_point start workArray pivot O start in
          insertion_loop count' (S start)
            (take left workArray ++ [pivot]
             ++ take (start - left) (drop left workArray)
             ++ drop (S start) workArray)
      | None => workArray
      end
  end.

Definition BinaryInsertionSort (startArg high : nat) (workArray : list A) : list A :=
  let start := if (startArg =? 0)%nat then 1%nat else startArg in
  insertion_loop (high - start) start workArray.

Definition V8_sort (array0 : list A) : list A :=
  let len := length array0 in
  if (len <? 2)%nat then array0
  else
    let '(currentRunLength, workArray) := CountAndMakeRun array0 in
    if (currentRunLength <? len)%nat
    then BinaryInsertionSort currentRunLength len workArray
    else workArray.

End V8Sort.

(** ** Requester view (ClientView) *)

Record FormData := {
  form_standNumber : jsstring;
  form_airline : jsstring;
  form_flightNumber : jsstring;
  form_representativeName : jsstring;
}.

(** [Partial<typeof formData>]: an absent key is [None]. *)
Record FormErrors := {
  error_standNumber : option jsstring;
  error_airline : option jsstring;
  error_flightNumber : option jsstring;
  error_representativeName : option jsstring;
}.

Definition empty_form : FormData :=
  {| form_standNumber := []; form_airline := []; form_flightNumber := [];
     form_representativeName := [] |}.

Definition no_errors : FormErrors :=
  {| error_standNumber := None; error_airline := None;
     error_flightNumber := None; error_representativeName := None |}.

(** The message of line 224. *)
Definition required_message : jsstring :=
  [1607; 1584; 1575; 32; 1575; 1604; 1581; 1602; 1604; 32; 1605; 1591; 1604;
   1608; 1576].

(** [!value.trim()]. *)
Definition blank (value : jsstring) : bool := negb (truthy (trim value)).

Definition field_error (value : jsstring) : option jsstring :=
  if blank value then Some required_message else None.

(** [Object.keys(newErrors).length]. *)
Definition error_count (e : FormErrors) : nat :=
  length (omap (fun x => x)
            [error_standNumber e; error_airline e; error_flightNumber e;
             error_representativeName e]).

(** [validateForm] (lines 220-229): the errors it stores with [setErrors]
    and the boolean it returns. *)
Definition validateForm (formData : FormData) : FormErrors * bool :=
  let newErrors :=
    {| error_standNumber := field_error (form_standNumber formData);
       error_airline := field_error (form_airline formData);
       error_flightNumber := field_error (form_flightNumber formData);
       error_representativeName := field_error (form_representativeName formData) |} in
  (newErrors, (error_count newErrors =? 0)%nat).

(** Callbacks handed to [setTimeout], each with what it closes over. *)
Inductive Callback :=
  | SubmitCallback (formData : FormData)   (* lines 236-242 *)
  | HideSuccessCallback.                   (* line 241 *)

Record Timer := {
  delay : N;              (* milliseconds *)
  callback : Callback;
}.

Record ClientState := {
  client_requests : list FuelingRequest;   (* the root's [requests] *)
  formData : FormData;
  errors : FormErrors;
  isSubmitting : bool;
  showSuccess : bool;
  openChatId : option jsstring;
  timers : list Timer;                     (* pending timeouts, oldest first *)
}.

(** [handleSubmit] (lines 231-243). *)
Definition handleSubmit (st : ClientState) : ClientState :=
  let '(newErrors, valid) := validateForm (formData st) in
  if negb valid then
    {| client_requests := client_requests st; formData := formData st;
       errors := newErrors; isSubmitting := isSubmitting st;
       showSuccess := showSuccess st; openChatId := openChatId st;
       timers := timers st |}
  else
    {| client_requests := client_requests st; formData := formData st;
       errors := newErrors; isSubmitting := true;
       showSuccess := showSuccess st; openChatId := openChatId st;
       timers := timers st ++ [{| delay := 500; callback := SubmitCallback (formData st) |}] |}.

Section Views.

Variable uuid_source : nat -> jsstring.

(** The engine's [Array.prototype.sort]. *)
Variable Array_sort :
  (FuelingRequest -> FuelingRequest -> Z) -> list FuelingRequest -> list FuelingRequest.

(** [addRequest] (lines 421-431); [cid] is the [clientId] of the root. *)
Definition addRequest (cid : jsstring) (newRequestData : FormData) : JS Updater :=
  newId ← uuidv4 uuid_source;
  let newRequest :=
    {| id := newId;
       clientId := cid;
       standNumber := form_standNumber newRequestData;
       airline := form_airline newRequestData;
       flightNumber := form_flightNumber newRequestData;
       representativeName := form_representativeName newRequestData;
       status := Pending;
       messages := [];
       hasUnreadUpdates := false |} in
  mret (fun prev => newRequest :: prev).

(** A timeout fires: the body of its callback. *)
Definition run_callback (cid : jsstring) (cb : Callback) (st : ClientState)
  : JS ClientState :=
  match cb with
  | SubmitCallback data =>
      u ← addRequest cid data;
      mret {| client_requests := u (client_requests st);
              formData := empty_form;
              errors := errors st;
              isSubmitting := false;
              showSuccess := true;
              openChatId := openChatId st;
              timers := timers st ++ [{| delay := 3000; callback := HideSuccessCallback |}] |}
  | HideSuccessCallback =>
      mret {| client_requests := client_requests st; formData := formData st;
              errors := errors st; isSubmitting := isSubmitting st;
              showSuccess := false; openChatId := openChatId st;
              timers := timers st |}
  end.

(** The oldest pending timeout fires.  This is the timeout the browser
    fires next when it is the one due first, in particular when it is the
    only one pending; [fire_timer_at] below covers the other cases. *)
Definition fire_timer (cid : jsstring) (st : ClientState) : JS ClientState :=
  match timers st with
  | [] => mret st
  | t :: rest =>
      run_callback cid (callback t)
        {| client_requests := client_requests st; formData := formData st;
           errors := errors st; isSubmitting := isSubmitting st;
           showSuccess := showSuccess st; openChatId := openChatId st;
           timers := rest |}
  end.

(** The pending timeout at position [k] fires: it leaves the pending list
    and its callback runs.  Which of the pending timeouts is due next is
    settled by the browser's clock; [k] names the one that is. *)
Definition fire_timer_at (cid : jsstring) (k : nat) (st : ClientState)
  : JS ClientState :=
  match timers st !! k with
  | None => mret st
  | Some t =>
      run_callback cid (callback t)
        {| client_requests := client_requests st; formData := formData st;
           errors := errors st; isSubmitting := isSubmitting st;
           showSuccess := showSuccess st; openChatId := openChatId st;
           timers := delete k (timers st) |}
  end.

(** The comparison function of line 210. *)
Definition pending_first (a b : FuelingRequest) : Z :=
  if bool_decide (status a = Pending) then (-1)%Z else 1%Z.

(** [clientRequests] (line 210). *)
Definition clientRequests (requests : list FuelingRequest) (cid : jsstring)
  : list FuelingRequest :=
  Array_sort pending_first (List.filter (fun r => str_eq (clientId r) cid) requests).

(** The requester view renders one card per request of [clientRequests]
    (lines 293-303). *)
Definition ClientView_cards (requests : list FuelingRequest) (cid : jsstring)
    (openChatId : option jsstring) : list RequestCard :=
  map (fun req => {| card_request := req; card_view := Client;
                     card_isChatOpen := bool_decide (openChatId = Some (id req)) |})
      (clientRequests requests cid).

(** [handleToggleChat] of the requester view (lines 245-251): the new
    [openChatId] and the updater of the collection. *)
Definition Client_handleToggleChat (requests : list FuelingRequest) (cid : jsstring)
    (prevId : option jsstring) (requestId0 : jsstring) : option jsstring * Updater :=
  (if bool_decide (prevId = Some requestId0) then None else Some requestId0,
   match find_by_id requestId0 (clientRequests requests cid) with
   | Some request =>
       if hasUnreadUpdates request
       then updateRequest (with_hasUnreadUpdates request false)
       else fun prev => prev
   | None => fun prev => prev
   end).

(** [handleSendMessage] of the requester view (lines 253-259). *)
Definition Client_handleSendMessage (requests : list FuelingRequest)
    (requestId0 text0 : jsstring) : JS Updater :=
  match find_by_id requestId0 requests with
  | Some requestToUpdate =>
      newId ← uuidv4 uuid_source;
      now ← Date_now;
      let newMessage :=
        {| msg_id := newId; sender := Client; text := text0; timestamp := now |} in
      mret (updateRequest
              (with_messages requestToUpdate (messages requestToUpdate ++ [newMessage])))
  | None => mret (fun prev => prev)
  end.

(** [handleSendMessage] of the operator view (lines 330-340). *)
Definition Company_handleSendMessage (requests : list FuelingRequest)
    (requestId0 text0 : jsstring) : JS Updater :=
  match find_by_id requestId0 requests with
  | Some requestToUpdate =>
      newId ← uuidv4 uuid_source;
      now ← Date_now;
      let newMessage :=
        {| msg_id := newId; sender := Company; text := text0; timestamp := now |} in
      mret (updateRequest
              (with_hasUnreadUpdates
                 (with_messages requestToUpdate
                    (messages requestToUpdate ++ [newMessage]))
                 true))
  | None => mret (fun prev => prev)
  end.

(** [handleSubmit] of the chat form (lines 114-120), which reaches the
    handler of its view through the request card. *)
Definition ChatInterface_handleSubmit (onSendMessage : jsstring -> JS Updater)
    (newMessage : jsstring) : JS Updater :=
  if truthy (trim newMessage) then onSendMessage (trim newMessage)
  else mret (fun prev => prev).

(** One message-append: who sends, to which request, what. *)
Record Append := {
  from : Sender;
  to_request : jsstring;
  body : jsstring;
}.

(** The handler of the sender's view run on the current collection, and the
    updater it hands over applied to it. *)
Definition append_message (a : Append) (requests : list FuelingRequest)
  : JS (list FuelingRequest) :=
  u ← match from a with
      | Client => Client_handleSendMessage requests (to_request a) (body a)
      | Company => Company_handleSendMessage requests (to_request a) (body a)
      end;
  mret (u requests).

Fixpoint append_messages (l : list Append) (requests : list FuelingRequest)
  : JS (list FuelingRequest) :=
  match l with
  | [] => mret requests
  | a :: l' => requests' ← append_message a requests; append_messages l' requests'
  end.

End Views.

(** A run of the model needs some id sequence: [u0], [u00], [u000], ... *)
Definition sample_uuid (n : nat) : jsstring := 117 :: replicate (S n) 48.

Definition sample_time : Date := 1700000000000%Z.

Definition empty_world : World :=
  {| localStorage := {| items := ∅; quota := 5242880 |};
     uuid_calls := O; clock := sample_time |}.

Definition sample_requests : list FuelingRequest := initialRequests sample_time.

(** The second seed request once the operator has completed it. *)
Definition completed_request : FuelingRequest :=
  with_status (seed_request_2 sample_time) Completed.

(** A request value whose id is not in the seed. *)
Definition stray_request : FuelingRequest :=
  {| id := ascii_units "req-9"; clientId := ascii_units "client-abc";
     standNumber := ascii_units "A1"; airline := ascii_units "Test Air";
     flightNumber := ascii_units "T1"; representativeName := ascii_units "X";
     status := Pending; messages := []; hasUnreadUpdates := false |}.

(** Three appends: two to the first seed request, between them one to an
    id no request carries. *)
Definition sample_appends : list Append :=
  [ {| from := Client; to_request := id seed_request_1;
       body := ascii_units "hello" |};
    {| from := Company; to_request := ascii_units "no-such-request";
       body := ascii_units "lost" |};
    {| from := Company; to_request := id seed_request_1;
       body := ascii_units "on our way" |} ].

(** ** Vocabulary of the properties *)

(** The status machine of the operator view seen position by position. *)
Definition follows_edges (before after : list FuelingRequest) : Prop :=
  Forall2 (fun a b => id b = id a
                      /\ (status b = status a \/ edge (status a) (status b) = true))
          before after.

(** The world after [setItem] has stored [value] under [key]. *)
Definition stored (key value : jsstring) (w : World) : World :=
  {| localStorage := {| items := <[key := value]> (items (localStorage w));
                        quota := quota (localStorage w) |};
     uuid_calls := uuid_calls w; clock := clock w |}.

(** [setItem] would succeed. *)
Definition fits (key value : jsstring) (w : World) : Prop :=
  storage_size (<[key := value]> (items (localStorage w))) <= quota (localStorage w).

(** A store whose request-collection item is no JSON text. *)
Definition malformed_world : World :=
  {| localStorage :=
       {| items := {[ key_fuelingRequests := ascii_units "not json" ]};
          quota := 5242880 |};
     uuid_calls := O; clock := sample_time |}.

(** A store with no room left. *)
Definition full_world : World :=
  {| localStorage := {| items := ∅; quota := 0 |};
     uuid_calls := O; clock := sample_time |}.

(** Some required field is empty once trimmed. *)
Definition some_blank (data : FormData) : bool :=
  blank (form_standNumber data) || blank (form_airline data)
  || blank (form_flightNumber data) || blank (form_representativeName data).

(** What one append does to each request: the request addressed by [i]
    gains [m] at the end of its messages, the others keep theirs. *)
Definition appended_to (i : jsstring) (m : Message) (a b : FuelingRequest) : Prop :=
  id b = id a
  /\ messages b = messages a ++ (if str_eq (id a) i then [m] else []).

Definition is_pending (r : FuelingRequest) : bool := bool_decide (status r = Pending).

Definition own (cid : jsstring) (r : FuelingRequest) : bool := str_eq (clientId r) cid.

Section Vocabulary.

Variable uuid_source : nat -> jsstring.

(** The message a handler builds in world [w]. *)
Definition new_message (w : World) (who : Sender) (text0 : jsstring) : Message :=
  {| msg_id := uuid_source (uuid_calls w); sender := who; text := text0;
     timestamp := clock w |}.

(** The request [addRequest] builds in world [w] for the requester [cid]. *)
Definition new_request (w : World) (cid : jsstring) (data : FormData) : FuelingRequest :=
  {| id := uuid_source (uuid_calls w);
     clientId := cid;
     standNumber := form_standNumber data;
     airline := form_airline data;
     flightNumber := form_flightNumber data;
     representativeName := form_representativeName data;
     status := Pending;
     messages := [];
     hasUnreadUpdates := false |}.

(** The state in which message ids are unique and stay so: request ids are
    unique, the message ids of each request are, and the generator will not
    hand out an id some message already carries. *)
Definition messages_wf (requests0 : list FuelingRequest) (w : World) : Prop :=
  NoDup (map id requests0)
  /\ Forall (fun r => NoDup (map msg_id (messages r))) requests0
  /\ (forall r m n, r ∈ requests0 -> m ∈ messages r -> (uuid_calls w <= n)%nat ->
        msg_id m <> uuid_source n).

(** The messages a sequence of appends, started in world [w], adds to the
    request with id [i], in order, where [ids] are the ids of the stored
    requests: an append addressed to none of them builds no message and
    draws no id, every other one draws the next id. *)
Fixpoint delivered (ids : list jsstring) (l : list Append) (w : World)
    (i : jsstring) : list Message :=
  match l with
  | [] => []
  | a :: l' =>
      if existsb (str_eq (to_request a)) ids then
        (if str_eq i (to_request a)
         then [new_message w (from a) (body a)] else [])
        ++ delivered ids l' (uuid_drawn w) i
      else delivered ids l' w i
  end.

End Vocabulary.

(** A comparison that looks only at its first argument: [-1] when [p]
    holds of it and [1] otherwise, as [pending_first] is for [is_pending]. *)
Section OneSided.

Context {A : Type} (p : A -> bool).

Definition one_sided (x y : A) : Z := if p x then (-1)%Z else 1%Z.

(** What the sort makes of a list: the [p] elements in reverse order, then
    the others in order. *)
Definition sorted_form (l : list A) : list A :=
  rev (List.filter p l) ++ List.filter (fun x => negb (p x)) l.

End OneSided.

(** A form with everything filled in, and one whose airline is only spaces. *)
Definition filled_form : FormData :=
  {| form_standNumber := ascii_units "B7"; form_airline := ascii_units "Test Air";
     form_flightNumber := ascii_units "T1"; form_representativeName := ascii_units "X" |}.

Definition blank_airline_form : FormData :=
  {| form_standNumber := ascii_units "B7"; form_airline := ascii_units "   ";
     form_flightNumber := ascii_units "T1"; form_representativeName := ascii_units "X" |}.

Definition client_state (data : FormData) : ClientState :=
  {| client_requests := sample_requests; formData := data; errors := no_errors;
     isSubmitting := false; showSuccess := false; openChatId := None;
     timers := [] |}.

(** The same after an earlier submission went through: its notice is still
    shown and the timeout that hides it is pending. *)
Definition toast_pending (data : FormData) : ClientState :=
  {| client_requests := sample_requests; formData := data; errors := no_errors;
     isSubmitting := false; showSuccess := true; openChatId := None;
     timers := [{| delay := 3000; callback := HideSuccessCallback |}] |}.

(** ** More of the views *)

(** The four inputs of the request form, by their [name] attribute
    (lines 269-281). *)
Inductive Field :=
  | name_standNumber | name_airline | name_flightNumber | name_representativeName.

(** [formData[name]]. *)
Definition form_field (name : Field) (data : FormData) : jsstring :=
  match name with
  | name_standNumber => form_standNumber data
  | name_airline => form_airline data
  | name_flightNumber => form_flightNumber data
  | name_representativeName => form_representativeName data
  end.

(** [{ ...prev, [name]: value }]. *)
Definition with_field (prev : FormData) (name : Field) (value : jsstring) : FormData :=
  match name with
  | name_standNumber =>
      {| form_standNumber := value; form_airline := form_airline prev;
         form_flightNumber := form_flightNumber prev;
         form_representativeName := form_representativeName prev |}
  | name_airline =>
      {| form_standNumber := form_standNumber prev; form_airline := value;
         form_flightNumber := form_flightNumber prev;
         form_representativeName := form_representativeName prev |}
  | name_flightNumber =>
      {| form_standNumber := form_standNumber prev; form_airline := form_airline prev;
         form_flightNumber := value;
         form_representativeName := form_representativeName prev |}
  | name_representativeName =>
      {| form_standNumber := form_standNumber prev; form_airline := form_airline prev;
         form_flightNumber := form_flightNumber prev;
         form_representativeName := value |}
  end.

(** [errors[name]]; a key set to [undefined] reads like an absent one. *)
Definition field_error_of (name : Field) (e : FormErrors) : option jsstring :=
  match name with
  | name_standNumber => error_standNumber e
  | name_airline => error_airline e
  | name_flightNumber => error_flightNumber e
  | name_representativeName => error_representativeName e
  end.

(** [{ ...prev, [name]: undefined }]. *)
Definition without_error (prev : FormErrors) (name : Field) : FormErrors :=
  match name with
  | name_standNumber =>
      {| error_standNumber := None; error_airline := error_airline prev;
         error_flightNumber := error_flightNumber prev;
         error_representativeName := error_representativeName prev |}
  | name_airline =>
      {| error_standNumber := error_standNumber prev; error_airline := None;
         error_flightNumber := error_flightNumber prev;
         error_representativeName := error_representativeName prev |}
  | name_flightNumber =>
      {| error_standNumber := error_standNumber prev;
         error_airline := error_airline prev; error_flightNumber := None;
         error_representativeName := error_representativeName prev |}
  | name_representativeName =>
      {| error_standNumber := error_standNumber prev;
         error_airline := error_airline prev;
         error_flightNumber := error_flightNumber prev;
         error_representativeName := None |}
  end.

(** [handleInputChange] (lines 212-218) for the input [name] now holding
    [value]. *)
Definition handleInputChange (name : Field) (value : jsstring) (st : ClientState)
  : ClientState :=
  {| client_requests := client_requests st;
     formData := with_field (formData st) name value;
     errors := if truthy (trim value)
               then without_error (errors st) name else errors st;
     isSubmitting := isSubmitting st;
     showSuccess := showSuccess st;
     openChatId := openChatId st;
     timers := timers st |}.

(** The user types a value into each of several inputs in turn. *)
Fixpoint type_all (entries : list (Field * jsstring)) (st : ClientState) : ClientState :=
  match entries with
  | [] => st
  | (name, value) :: rest => type_all rest (handleInputChange name value st)
  end.

(** [handleSendMessage] of a request card (lines 161-163): the chat of a
    card addresses the request of the card. *)
Definition RequestCard_handleSendMessage
    (onSendMessage : jsstring -> jsstring -> JS Updater)
    (request : FuelingRequest) (text0 : jsstring) : JS Updater :=
  onSendMessage (id request) text0.

(** The notification dot of a card (line 178). *)
Definition notification_dot (card : RequestCard) : bool :=
  bool_decide (card_view card = Client) && hasUnreadUpdates (card_request card).

(** [handleToggleChat] of the operator view (lines 342-344), and the
    [openChatId] part of the requester's: the new [openChatId]. *)
Definition toggle_chat (prevId : option jsstring) (requestId0 : jsstring)
  : option jsstring :=
  if bool_decide (prevId = Some requestId0) then None else Some requestId0.

(** The dialog's decline button (line 365). *)
Definition Modal_onCancel (st : CompanyState) : CompanyState :=
  {| requests := requests st; modalState := modal_closed |}.

(** The clear-completed button (lines 369-371); it is rendered only when
    some request is completed. *)
Definition click_clearCompleted (st : CompanyState) : CompanyState :=
  if hasCompletedRequests (requests st) then
    {| requests := requests st;
       modalState := {| isOpen := true; action := Some clearCompleted;
                        requestId := None |} |}
  else st.

(** What the operator does with the dashboard: a gesture on a control of
    the card at position [k] (for the cancel control, confirmed in the
    dialog), a cancellation declined in the dialog, or clearing the
    completed requests, confirmed or declined. *)
Inductive Gesture :=
  | Press (c : Control) (k : nat)
  | CancelDeclined (k : nat)
  | ClearCompleted
  | ClearCompletedDeclined.

Definition perform (g : Gesture) (st : CompanyState) : CompanyState :=
  match g with
  | Press c k =>
      match requests st !! k with
      | Some request => operate c request st
      | None => st
      end
  | CancelDeclined k =>
      match requests st !! k with
      | Some request =>
          if disabled CancelButton request then st
          else Modal_onCancel (onClick CancelButton request st)
      | None => st
      end
  | ClearCompleted =>
      if hasCompletedRequests (requests st)
      then handleConfirmAction (click_clearCompleted st) else st
  | ClearCompletedDeclined =>
      if hasCompletedRequests (requests st)
      then Modal_onCancel (click_clearCompleted st) else st
  end.

Fixpoint perform_all (gs : list Gesture) (st : CompanyState) : CompanyState :=
  match gs with
  | [] => st
  | g :: gs' => perform_all gs' (perform g st)
  end.

(** Status [s2] is [s1] or an edge away from it. *)
Definition reaches (s1 s2 : RequestStatus) : Prop :=
  s2 = s1 \/ edge s1 s2 = true.

(** The fields a request keeps for life. *)
Definition same_identity (a b : FuelingRequest) : Prop :=
  id b = id a /\ clientId b = clientId a /\ standNumber b = standNumber a
  /\ airline b = airline a /\ flightNumber b = flightNumber a
  /\ representativeName b = representativeName a.

(** How the collection after some operator gestures relates to the one
    before: every request still there stems from one that was, with the
    same identity and messages and a status it could reach; a cancelled
    request is still there as it was; a completed one is there as it was or
    gone altogether. *)
Definition descends (before after : list FuelingRequest) : Prop :=
  (forall r', r' ∈ after ->
     exists r, r ∈ before /\ same_identity r r' /\ messages r' = messages r
               /\ reaches (status r) (status r'))
  /\ (forall r, r ∈ before -> status r = Cancelled -> r ∈ after)
  /\ (forall r, r ∈ before -> status r = Completed ->
        r ∈ after \/ forall r', r' ∈ after -> id r' <> id r).

Global Instance Field_eq_dec : EqDecision Field.
Proof. solve_decision. Defined.

(** Some code unit of the string is no white space. *)
Definition has_visible_unit (s : jsstring) : Prop :=
  exists c, c ∈ s /\ is_white_space c = false.

(** ** JSON text and documents, for the round trip *)

(** The lexer run over a piece of text, without the end of input. *)
Fixpoint lex_run (st : LexState) (s : jsstring) : option (LexState * list Token) :=
  match s with
  | [] => Some (st, [])
  | c :: s' =>
      match lex_step st c with
      | Some (st', toks) =>
          match lex_run st' s' with
          | Some (st'', rest) => Some (st'', toks ++ rest)
          | None => None
          end
      | None => None
      end
  end.

(** A token written out as [JSON.stringify] writes it. *)
Definition token_text (t : Token) : jsstring :=
  match t with
  | TLBrace => [123]
  | TRBrace => [125]
  | TLBracket => [91]
  | TRBracket => [93]
  | TColon => [58]
  | TComma => [44]
  | TString s => quote s
  | TNumber literal => literal
  | TTrue => ascii_units "true"
  | TFalse => ascii_units "false"
  | TNull => ascii_units "null"
  end.

Definition tokens_text (ts : list Token) : jsstring := flat_map token_text ts.

(** Token sequences separated by commas. *)
Fixpoint separated (parts : list (list Token)) : list Token :=
  match parts with
  | [] => []
  | [p] => p
  | p :: ps => p ++ [TComma] ++ separated ps
  end.

(** The tokens of a value; a [Date] has none, it is no JSON. *)
Fixpoint tokens_of (v : JSValue) : list Token :=
  match v with
  | VNull => [TNull]
  | VBool true => [TTrue]
  | VBool false => [TFalse]
  | VNum literal => [TNumber literal]
  | VStr s => [TString s]
  | VArr l => TLBracket :: separated (map tokens_of l) ++ [TRBracket]
  | VObj ms =>
      TLBrace
      :: separated (map (fun kv => TString (fst kv) :: TColon :: tokens_of (snd kv)) ms)
      ++ [TRBrace]
  | VDate _ => []
  end.

(** The value holds no [Date]. *)
Fixpoint date_free (v : JSValue) : bool :=
  match v with
  | VArr l => forallb date_free l
  | VObj ms => forallb (fun kv => date_free (snd kv)) ms
  | VDate _ => false
  | _ => true
  end.

(** The value holds no number. *)
Fixpoint number_free (v : JSValue) : bool :=
  match v with
  | VArr l => forallb number_free l
  | VObj ms => forallb (fun kv => number_free (snd kv)) ms
  | VNum _ => false
  | VDate v' => number_free v'
  | _ => true
  end.

(** No name is repeated within the members and none is an array index. *)
Definition plain_names (ms : list (jsstring * JSValue)) : bool :=
  bool_decide (NoDup (map fst ms))
  && forallb (fun kv => bool_decide (array_index (fst kv) = None)) ms.

(** Every object of the value has such members. *)
Fixpoint plain_objects (v : JSValue) : bool :=
  match v with
  | VArr l => forallb plain_objects l
  | VObj ms => plain_names ms && forallb (fun kv => plain_objects (snd kv)) ms
  | VDate v' => plain_objects v'
  | _ => true
  end.

(** The document of the request collection: what [JSON.stringify] writes
    and [JSON.parse] builds from it.  [date] is what becomes of the value
    under [timestamp]: nothing without a reviver, a [Date] with the one of
    line 400. *)
Definition document_of_Date (t : Date) : JSValue :=
  if ((-8640000000000000 <=? t) && (t <=? 8640000000000000))%Z
  then VStr (toISOString t) else VNull.

Definition document_of_Sender (s : Sender) : JSValue :=
  match s with
  | Client => VStr (ascii_units "Client")
  | Company => VStr (ascii_units "Company")
  end.

Definition document_of_RequestStatus (s : RequestStatus) : JSValue :=
  match s with
  | Pending => VStr (ascii_units "Pending")
  | Confirmed => VStr (ascii_units "Confirmed")
  | Completed => VStr (ascii_units "Completed")
  | Cancelled => VStr (ascii_units "Cancelled")
  end.

Definition document_of_Message (date : JSValue -> JSValue) (m : Message) : JSValue :=
  VObj [ (ascii_units "id", VStr (msg_id m));
         (ascii_units "sender", document_of_Sender (sender m));
         (ascii_units "text", VStr (text m));
         (ascii_units "timestamp", date (document_of_Date (timestamp m))) ].

Definition document_of_FuelingRequest (date : JSValue -> JSValue) (r : FuelingRequest)
  : JSValue :=
  VObj [ (ascii_units "id", VStr (id r));
         (ascii_units "clientId", VStr (clientId r));
         (ascii_units "standNumber", VStr (standNumber r));
         (ascii_units "airline", VStr (airline r));
         (ascii_units "flightNumber", VStr (flightNumber r));
         (ascii_units "representativeName", VStr (representativeName r));
         (ascii_units "status", document_of_RequestStatus (status r));
         (ascii_units "messages", VArr (map (document_of_Message date) (messages r)));
         (ascii_units "hasUnreadUpdates", VBool (hasUnreadUpdates r)) ].

Definition document_of (date : JSValue -> JSValue) (requests0 : list FuelingRequest)
  : JSValue :=
  VArr (map (document_of_FuelingRequest date) requests0).

(** The tokens of [v], in a place where a value is due, are consumed and
    [v] is handed to the enclosing construct. *)
Definition parses (v : JSValue) : Prop :=
  forall stack rest m, m = MValue \/ m = MValueOrClose ->
    parse_tokens stack m (tokens_of v ++ rest)
    = match complete v stack with
      | Some (stack', m') => parse_tokens stack' m' rest
      | None => None
      end.

(** What a start-up finds after the collection was saved. *)
Definition loaded_document (requests0 : list FuelingRequest) : JSValue :=
  document_of VDate requests0.

Section ViewHandlers.

Variable uuid_source : nat -> jsstring.

(** The handler of a view, as its request cards receive it. *)
Definition view_handleSendMessage (view : Sender) (requests0 : list FuelingRequest)
  : jsstring -> jsstring -> JS Updater :=
  match view with
  | Client => Client_handleSendMessage uuid_source requests0
  | Company => Company_handleSendMessage uuid_source requests0
  end.

End ViewHandlers.

(** ** The collection under everything that changes it *)

Section Events.

Variable uuid_source : nat -> jsstring.

Variable Array_sort :
  (FuelingRequest -> FuelingRequest -> Z) -> list FuelingRequest -> list FuelingRequest.

(** What changes the collection: the callback of a submission adding the
    request, a message sent from either view, a chat opened or closed in the
    requester view, a gesture of the operator. *)
Inductive AppEvent :=
  | SubmitFires (cid : jsstring) (data : FormData)
  | MessageSent (a : Append)
  | ChatToggled (cid : jsstring) (prevId : option jsstring) (i : jsstring)
  | OperatorActs (g : Gesture).

Definition app_step (e : AppEvent) (requests0 : list FuelingRequest)
  : JS (list FuelingRequest) :=
  match e with
  | SubmitFires cid data =>
      u ← addRequest uuid_source cid data; mret (u requests0)
  | MessageSent a => append_message uuid_source a requests0
  | ChatToggled cid prevId i =>
      mret (snd (Client_handleToggleChat Array_sort requests0 cid prevId i) requests0)
  | OperatorActs g =>
      mret (requests (perform g {| requests := requests0; modalState := modal_closed |}))
  end.

Fixpoint app_run (es : list AppEvent) (requests0 : list FuelingRequest)
  : JS (list FuelingRequest) :=
  match es with
  | [] => mret requests0
  | e :: es' => requests' ← app_step e requests0; app_run es' requests'
  end.

(** Ids are unique and will stay so: those of the requests, those of the
    messages of each request, and no id the generator is yet to hand out is
    in use. *)
Definition collection_wf (requests0 : list FuelingRequest) (w : World) : Prop :=
  messages_wf uuid_source requests0 w
  /\ (forall n, (uuid_calls w <= n)%nat -> uuid_source n ∉ map id requests0).

End Events.

(** Some events, to run over the seed. *)
Definition sample_events : list (AppEvent) :=
  [ SubmitFires (ascii_units "client-abc") filled_form;
    MessageSent {| from := Client; to_request := ascii_units "req-1";
                   body := ascii_units "hello" |};
    OperatorActs (Press CompleteButton 2);
    OperatorActs ClearCompleted;
    ChatToggled (ascii_units "client-abc") None (ascii_units "req-1") ].

(** * Properties *)

(** ** The model at work *)

Example trim_strips_both_ends : trim (ascii_units "  B7 ") = ascii_units "B7".
Proof. reflexivity. Qed.

Example trim_of_white_space : trim [32; 9; 160; 12288; 65279] = [].
Proof. reflexivity. Qed.

Example blank_airline : blank (form_airline blank_airline_form) = true.
Proof. reflexivity. Qed.

Example toISOString_epoch :
  toISOString 0%Z = ascii_units "1970-01-01T00:00:00.000Z".
Proof. reflexivity. Qed.

Example toISOString_sample_time :
  toISOString sample_time = ascii_units "2023-11-14T22:13:20.000Z".
Proof. reflexivity. Qed.

Example toISOString_leap_day :
  toISOString 951868799999%Z = ascii_units "2000-02-29T23:59:59.999Z".
Proof. reflexivity. Qed.

Example JSON_parse_array :
  JSON_parse (ascii_units " [true, null, -1.5e3, [], {}] ")
  = Return (VArr [VBool true; VNull; VNum (ascii_units "-1.5e3"); VArr []; VObj []]).
Proof. reflexivity. Qed.

Example JSON_parse_trailing_comma : JSON_parse (ascii_units "[1,]") = Throw SyntaxError.
Proof. reflexivity. Qed.

Example JSON_parse_leading_zero : JSON_parse (ascii_units "01") = Throw SyntaxError.
Proof. reflexivity. Qed.

Example JSON_parse_unclosed : JSON_parse (ascii_units "[{") = Throw SyntaxError.
Proof. reflexivity. Qed.

Example JSON_parse_revives_timestamp :
  JSON_parse (object [member "id" (quote (ascii_units "msg-1"));
                      member "timestamp" (quote (toISOString sample_time))])
  = Return (VObj [(ascii_units "id", VStr (ascii_units "msg-1"));
                  (key_timestamp, VDate (VStr (toISOString sample_time)))]).
Proof. reflexivity. Qed.

(** A repeated name keeps its first place and its last value; array
    indices come first, in ascending order. *)
Example JSON_parse_repeated_and_indexed_names :
  JSON_parse (object [member "b" (ascii_units "true");
                      member "10" (ascii_units "null");
                      member "b" (ascii_units "false");
                      member "2" (ascii_units "[]");
                      member "02" (ascii_units "null")])
  = Return (VObj [(ascii_units "2", VArr []);
                  (ascii_units "10", VNull);
                  (ascii_units "b", VBool false);
                  (ascii_units "02", VNull)]).
Proof. reflexivity. Qed.

(** What [persist] writes for the seed is JSON text again: an array of two
    objects. *)
Example stringified_seed_parses :
  match JSON_parse (JSON_stringify sample_requests) with
  | Return (VArr [VObj _; VObj _]) => True
  | _ => False
  end.
Proof. exact I. Qed.

Example V8_sort_numbers :
  V8_sort (fun a b : Z => (a - b)%Z) [5; 3; 8; 1; 9; 2; 7; 7; 0]%Z
  = [0; 1; 2; 3; 5; 7; 7; 8; 9]%Z.
Proof. reflexivity. Qed.

Example V8_sort_always_less :
  V8_sort (fun _ _ : Z => (-1)%Z) [1; 2; 3]%Z = [3; 2; 1]%Z.
Proof. reflexivity. Qed.


(** ** Strings and lookups by id *)

Lemma str_eq_true (a b : jsstring) : str_eq a b = true <-> a = b.
Proof. unfold str_eq. apply bool_decide_eq_true. Qed.

Lemma str_eq_false (a b : jsstring) : str_eq a b = false <-> a <> b.
Proof. unfold str_eq. apply bool_decide_eq_false. Qed.

Lemma str_eq_refl (a : jsstring) : str_eq a a = true.
Proof. by apply str_eq_true. Qed.

Lemma find_by_id_Some i l r :
  find_by_id i l = Some r -> r ∈ l /\ id r = i.
Proof.
  unfold find_by_id. intros H. apply find_some in H as [Hin Heq].
  split; [by apply list_elem_of_In | by apply str_eq_true].
Qed.

Lemma find_by_id_None i l :
  find_by_id i l = None <-> (forall r, r ∈ l -> id r <> i).
Proof.
  unfold find_by_id. split.
  - intros H r Hin. apply list_elem_of_In in Hin.
    apply str_eq_false. exact (find_none _ _ H r Hin).
  - intros H. induction l as [|a l IH]; [done|]. simpl.
    assert (Ha : str_eq (id a) i = false).
    { apply str_eq_false, H. by left. }
    rewrite Ha. apply IH. intros r Hr. apply H. by right.
Qed.

Lemma find_by_id_is_Some i l r :
  r ∈ l -> id r = i -> is_Some (find_by_id i l).
Proof.
  intros Hin Hid. destruct (find_by_id i l) eqn:E; [by eexists|].
  destruct (proj1 (find_by_id_None i l) E r Hin Hid).
Qed.

(** With unique ids a request is determined by its id. *)
Lemma unique_ids_inj (l : list FuelingRequest) a b :
  NoDup (map id l) -> a ∈ l -> b ∈ l -> id a = id b -> a = b.
Proof.
  induction l as [|x l IH]; intros Hnd Ha Hb Hid.
  - by apply elem_of_nil in Ha.
  - simpl in Hnd. apply NoDup_cons in Hnd as [Hx Hnd].
    apply elem_of_cons in Ha as [->|Ha]; apply elem_of_cons in Hb as [->|Hb].
    + done.
    + destruct Hx. rewrite Hid. apply list_elem_of_fmap. by exists b.
    + destruct Hx. rewrite <- Hid. apply list_elem_of_fmap. by exists a.
    + by apply IH.
Qed.

Lemma find_by_id_unique (l : list FuelingRequest) r :
  NoDup (map id l) -> r ∈ l -> find_by_id (id r) l = Some r.
Proof.
  intros Hnd Hin.
  destruct (find_by_id_is_Some (id r) l r Hin eq_refl) as [r' Hr'].
  rewrite Hr'. f_equal.
  apply find_by_id_Some in Hr' as [Hin' Hid'].
  by apply (unique_ids_inj l).
Qed.

(** ** [updateRequest] *)

Lemma updateRequest_length u l : length (updateRequest u l) = length l.
Proof. unfold updateRequest. apply length_map. Qed.

Lemma updateRequest_ids u l : map id (updateRequest u l) = map id l.
Proof.
  unfold updateRequest. rewrite map_map. apply map_ext. intros r.
  destruct (str_eq (id r) (id u)) eqn:E; [|done].
  symmetry. by apply str_eq_true.
Qed.

Lemma updateRequest_lookup u l k r :
  l !! k = Some r ->
  updateRequest u l !! k = Some (if str_eq (id r) (id u) then u else r).
Proof.
  intros H. unfold updateRequest.
  change (map ?f l) with (f <$> l). by rewrite list_lookup_fmap, H.
Qed.

Lemma updateRequest_unknown u l :
  (forall r, r ∈ l -> id r <> id u) -> updateRequest u l = l.
Proof.
  induction l as [|a l IH]; intros H; [done|]. simpl.
  assert (Ha : str_eq (id a) (id u) = false).
  { apply str_eq_false, H. by left. }
  rewrite Ha. f_equal. apply IH. intros r Hr. apply H. by right.
Qed.

Lemma updateRequest_app u l1 l2 :
  updateRequest u (l1 ++ l2) = updateRequest u l1 ++ updateRequest u l2.
Proof. unfold updateRequest. apply map_app. Qed.

Lemma updateRequest_unique u l1 r l2 :
  NoDup (map id (l1 ++ r :: l2)) -> id r = id u ->
  updateRequest u (l1 ++ r :: l2) = l1 ++ u :: l2.
Proof.
  intros Hnd Hid. rewrite updateRequest_app. simpl.
  rewrite Hid, str_eq_refl.
  rewrite map_app in Hnd. simpl in Hnd.
  apply NoDup_app in Hnd as (_ & Hdisj & Hnd2).
  apply NoDup_cons in Hnd2 as [Hr _].
  rewrite !updateRequest_unknown; [done| |].
  - intros x Hx Heq. apply Hr. rewrite Hid, <- Heq.
    apply list_elem_of_fmap. by exists x.
  - intros x Hx Heq. apply (Hdisj (id x)).
    + apply list_elem_of_fmap. by exists x.
    + rewrite Heq, <- Hid. by left.
Qed.

Lemma updateRequest_find u l r :
  find_by_id (id u) l = Some r -> find_by_id (id u) (updateRequest u l) = Some u.
Proof.
  unfold find_by_id. induction l as [|a l IH]; [done|]. simpl.
  destruct (str_eq (id a) (id u)) eqn:E.
  - intros _. simpl. by rewrite str_eq_refl.
  - intros H. simpl. rewrite E. by apply IH.
Qed.

(** C7: [updateRequest] replaces the request stored under the id of the
    given value and nothing else: position by position the result holds the
    given value where the id matches and the old element elsewhere, so the
    length and the order stay; with ids unique in the collection, exactly
    the one matching element is replaced; and when no element has the id the
    collection comes back unchanged.  The updater is a total function: it
    raises nothing. *)
Theorem updateRequest_replaces_by_id (u : FuelingRequest) (prev : list FuelingRequest) :
  length (updateRequest u prev) = length prev
  /\ (forall k r, prev !! k = Some r ->
        updateRequest u prev !! k = Some (if str_eq (id r) (id u) then u else r))
  /\ (forall l1 r l2, prev = l1 ++ r :: l2 -> id r = id u -> NoDup (map id prev) ->
        updateRequest u prev = l1 ++ u :: l2)
  /\ ((forall r, r ∈ prev -> id r <> id u) -> updateRequest u prev = prev).
Proof.
  split; [apply updateRequest_length|].
  split; [apply updateRequest_lookup|].
  split; [|apply updateRequest_unknown].
  intros l1 r l2 -> Hid Hnd. by apply updateRequest_unique.
Qed.

Lemma updateRequest_replaces_by_id_witness :
  updateRequest (with_status seed_request_1 Confirmed) sample_requests
    = [with_status seed_request_1 Confirmed; seed_request_2 sample_time]
  /\ updateRequest stray_request sample_requests = sample_requests.
Proof.
  destruct (updateRequest_replaces_by_id
              (with_status seed_request_1 Confirmed) sample_requests)
    as (_ & _ & Hone & _).
  destruct (updateRequest_replaces_by_id stray_request sample_requests)
    as (_ & _ & _ & Hnone).
  split.
  - apply (Hone [] seed_request_1 [seed_request_2 sample_time]).
    + reflexivity.
    + reflexivity.
    + compute_done.
  - apply Hnone. apply Forall_forall.
    repeat constructor; vm_compute; discriminate.
Defined.

(** ** Clearing the completed requests *)

Lemma removeCompleted_elem r l :
  r ∈ removeCompleted l <-> r ∈ l /\ status r <> Completed.
Proof.
  unfold removeCompleted. rewrite !list_elem_of_In, filter_In.
  rewrite negb_true_iff, bool_decide_eq_false. tauto.
Qed.

Lemma removeCompleted_sublist l : removeCompleted l `sublist_of` l.
Proof.
  induction l as [|a l IH]; simpl; [constructor|].
  destruct (negb _); by constructor.
Qed.

Lemma removeCompleted_greatest l k :
  k `sublist_of` l -> Forall (fun r => status r <> Completed) k ->
  k `sublist_of` removeCompleted l.
Proof.
  intros Hsub. induction Hsub as [|x k l Hsub IH|x k l Hsub IH]; intros Hk.
  - constructor.
  - apply Forall_cons in Hk as [Hx Hk]. simpl.
    rewrite bool_decide_eq_false_2 by done. simpl.
    constructor. by apply IH.
  - simpl. destruct (negb _); [constructor|]; by apply IH.
Qed.

(** C5: confirming the clear-completed dialog leaves no request with status
    [Completed]; what is left is the requests that are not completed, each
    the very value it was and in the order it had: the result is a
    subsequence of the collection, and every subsequence of the collection
    that is free of completed requests is a subsequence of the result. *)
Theorem clear_completed_keeps_the_rest (st : CompanyState) :
  action (modalState st) = Some clearCompleted ->
  let after := requests (handleConfirmAction st) in
  Forall (fun r => status r <> Completed) after
  /\ (forall r, r ∈ after <-> r ∈ requests st /\ status r <> Completed)
  /\ after `sublist_of` requests st
  /\ (forall k, k `sublist_of` requests st ->
        Forall (fun r => status r <> Completed) k -> k `sublist_of` after).
Proof.
  intros Hact after.
  assert (Hafter : after = removeCompleted (requests st)).
  { unfold after, handleConfirmAction. simpl. rewrite Hact. simpl.
    destruct (requestId (modalState st)); reflexivity. }
  rewrite Hafter. split; [|split; [|split]].
  - apply Forall_forall. intros r Hr. by apply removeCompleted_elem in Hr as [_ ?].
  - intros r. apply removeCompleted_elem.
  - apply removeCompleted_sublist.
  - apply removeCompleted_greatest.
Qed.

Lemma clear_completed_keeps_the_rest_witness :
  requests (handleConfirmAction
              {| requests := [seed_request_1; completed_request; stray_request];
                 modalState := {| isOpen := true; action := Some clearCompleted;
                                  requestId := None |} |})
  `sublist_of` [seed_request_1; completed_request; stray_request].
Proof.
  apply (clear_completed_keeps_the_rest
           {| requests := [seed_request_1; completed_request; stray_request];
              modalState := {| isOpen := true; action := Some clearCompleted;
                               requestId := None |} |}).
  reflexivity.
Defined.

(** ** Status changes *)

Lemma handleStatusChange_found requests0 i s r :
  find_by_id i requests0 = Some r ->
  handleStatusChange requests0 i s
  = updateRequest (with_hasUnreadUpdates (with_status r s) true).
Proof. intros H. unfold handleStatusChange. by rewrite H. Qed.

Lemma handleStatusChange_unknown requests0 i s prev :
  find_by_id i requests0 = None -> handleStatusChange requests0 i s prev = prev.
Proof. intros H. unfold handleStatusChange. by rewrite H. Qed.

Lemma follows_edges_refl l : follows_edges l l.
Proof. induction l; constructor; auto. Qed.

Lemma follows_edges_update (l all : list FuelingRequest) r s :
  NoDup (map id all) -> r ∈ all -> (forall x, x ∈ l -> x ∈ all) ->
  edge (status r) s = true ->
  follows_edges l (updateRequest (with_hasUnreadUpdates (with_status r s) true) l).
Proof.
  intros Hnd Hr Hsub Hedge. induction l as [|a l IH]; [constructor|].
  simpl. constructor.
  - destruct (str_eq (id a) (id r)) eqn:E; [|auto].
    apply str_eq_true in E. simpl.
    assert (a = r) as ->.
    { apply (unique_ids_inj all); auto. apply Hsub. by left. }
    auto.
  - apply IH. intros x Hx. apply Hsub. by right.
Qed.

(** With unique ids, [updateRequest] of a value carrying the id of a stored
    request [r] turns [r] into that value and keeps every other element. *)
Lemma updateRequest_pointwise (l all : list FuelingRequest) r u :
  NoDup (map id all) -> r ∈ all -> (forall x, x ∈ l -> x ∈ all) -> id u = id r ->
  Forall2 (fun a b => (a = r /\ b = u) \/ (id a <> id r /\ b = a))
          l (updateRequest u l).
Proof.
  intros Hnd Hr Hsub Hid. induction l as [|a l IH]; [constructor|].
  simpl. constructor.
  - rewrite Hid. destruct (str_eq (id a) (id r)) eqn:E.
    + apply str_eq_true in E. left. split; [|done].
      apply (unique_ids_inj all); auto. apply Hsub. by left.
    + apply str_eq_false in E. by right.
  - apply IH. intros x Hx. apply Hsub. by right.
Qed.

Lemma enabled_edge c r :
  disabled c r = false ->
  edge (status r)
       (match c with
        | ConfirmButton => Confirmed
        | CompleteButton => Completed
        | CancelButton => Cancelled
        end) = true.
Proof. destruct c, r as [? ? ? ? ? ? [] ? ?]; simpl; done. Qed.

Lemma disabled_no_edge c r : disabled c r = negb (edge (status r) (target c)).
Proof. by destruct c, r as [? ? ? ? ? ? [] ? ?]. Qed.

Lemma closed_disabled c r :
  status r = Completed \/ status r = Cancelled -> disabled c r = true.
Proof. intros [H|H]; destruct c; unfold disabled; rewrite H; done. Qed.

Lemma disabled_inert c r st :
  disabled c r = true -> onClick c r st = st /\ operate c r st = st.
Proof. intros H. unfold operate, onClick. by rewrite H. Qed.

(** The gesture on an enabled control of the card of a stored request: the
    collection after it is the update of that request with the control's
    target and the unread flag. *)
Lemma operate_enabled c r st :
  NoDup (map id (requests st)) -> r ∈ requests st ->
  disabled c r = false -> (c = CancelButton -> id r <> []) ->
  requests (operate c r st)
  = updateRequest (with_hasUnreadUpdates (with_status r (target c)) true)
      (requests st).
Proof.
  intros Hnd Hr Hdis Hid.
  pose proof (find_by_id_unique _ _ Hnd Hr) as Hfind.
  unfold operate. rewrite Hdis.
  destruct c; unfold onClick; rewrite Hdis; simpl.
  - by rewrite (handleStatusChange_found _ _ _ _ Hfind).
  - by rewrite (handleStatusChange_found _ _ _ _ Hfind).
  - unfold handleConfirmAction. simpl.
    destruct (id r) as [|u i] eqn:E; [by destruct Hid|].
    simpl. by rewrite (handleStatusChange_found _ _ _ _ Hfind).
Qed.

(** C1 (as amended): a status change made through the operator's controls
    follows the edges of the status machine, because a control is disabled
    exactly when the machine has no edge from the request's status to the
    control's target.  A disabled control, and so every control of a
    [Completed] or [Cancelled] request, leaves the whole state as it is.
    With ids unique in the collection, a gesture on a control of the card
    of a stored request leaves every request with its id and with either
    its old status or one an edge leads to; and on an enabled control (for
    the cancel control, the id being non-empty) it turns that request into
    itself with the control's target as status and the unread flag raised,
    along an edge, and leaves every other request as it is.  The handler
    itself checks nothing: called with the id of a stored request it stores
    the requested status, whatever the old one was, and raises the unread
    flag. *)
Theorem status_changes_follow_edges_through_controls :
  (forall (c : Control) (r : FuelingRequest),
      disabled c r = negb (edge (status r) (target c)))
  /\ (forall (c : Control) (r : FuelingRequest) (st : CompanyState),
        status r = Completed \/ status r = Cancelled ->
        disabled c r = true /\ onClick c r st = st /\ operate c r st = st)
  /\ (forall (c : Control) (r : FuelingRequest) (st : CompanyState),
        disabled c r = true -> onClick c r st = st /\ operate c r st = st)
  /\ (forall (c : Control) (r : FuelingRequest) (st : CompanyState),
        NoDup (map id (requests st)) -> r ∈ requests st ->
        follows_edges (requests st) (requests (operate c r st)))
  /\ (forall (c : Control) (r : FuelingRequest) (st : CompanyState),
        NoDup (map id (requests st)) -> r ∈ requests st ->
        disabled c r = false -> (c = CancelButton -> id r <> []) ->
        edge (status r) (target c) = true
        /\ Forall2 (fun a b =>
                      (a = r
                       /\ b = with_hasUnreadUpdates (with_status r (target c)) true)
                      \/ (id a <> id r /\ b = a))
                   (requests st) (requests (operate c r st)))
  /\ (forall (requests0 : list FuelingRequest) (i : jsstring)
             (s : RequestStatus) (r : FuelingRequest),
        find_by_id i requests0 = Some r ->
        find_by_id i (handleStatusChange requests0 i s requests0)
        = Some (with_hasUnreadUpdates (with_status r s) true)).
Proof.
  split; [exact disabled_no_edge|].
  split.
  { intros c r st H. pose proof (closed_disabled c r H) as Hdis.
    split; [done|]. by apply disabled_inert. }
  split; [exact disabled_inert|].
  split; [|split].
  - intros c r st Hnd Hr. unfold operate.
    destruct (disabled c r) eqn:Hdis; [apply follows_edges_refl|].
    pose proof (enabled_edge c r Hdis) as Hedge.
    pose proof (find_by_id_unique _ _ Hnd Hr) as Hfind.
    destruct c; unfold onClick; rewrite Hdis; simpl.
    + rewrite (handleStatusChange_found _ _ _ _ Hfind).
      by apply (follows_edges_update _ (requests st)).
    + rewrite (handleStatusChange_found _ _ _ _ Hfind).
      by apply (follows_edges_update _ (requests st)).
    + unfold handleConfirmAction. simpl.
      destruct (truthy (id r)); simpl; [|apply follows_edges_refl].
      rewrite (handleStatusChange_found _ _ _ _ Hfind).
      by apply (follows_edges_update _ (requests st)).
  - intros c r st Hnd Hr Hdis Hid. split.
    + rewrite disabled_no_edge in Hdis. by apply negb_false_iff in Hdis.
    + rewrite (operate_enabled c r st Hnd Hr Hdis Hid).
      by apply (updateRequest_pointwise _ (requests st)).
  - intros requests0 i s r Hfind.
    rewrite (handleStatusChange_found _ _ _ _ Hfind).
    apply find_by_id_Some in Hfind as Hr. destruct Hr as [_ <-].
    change (id r) with (id (with_hasUnreadUpdates (with_status r s) true)).
    eapply updateRequest_find. exact Hfind.
Qed.

Lemma status_changes_follow_edges_through_controls_witness :
  (disabled ConfirmButton completed_request = true
   /\ onClick ConfirmButton completed_request
        {| requests := [seed_request_1; completed_request];
           modalState := modal_closed |}
      = {| requests := [seed_request_1; completed_request];
           modalState := modal_closed |}
   /\ operate ConfirmButton completed_request
        {| requests := [seed_request_1; completed_request];
           modalState := modal_closed |}
      = {| requests := [seed_request_1; completed_request];
           modalState := modal_closed |})
  /\ (onClick ConfirmButton (seed_request_2 sample_time)
        {| requests := sample_requests; modalState := modal_closed |}
      = {| requests := sample_requests; modalState := modal_closed |}
      /\ operate ConfirmButton (seed_request_2 sample_time)
           {| requests := sample_requests; modalState := modal_closed |}
         = {| requests := sample_requests; modalState := modal_closed |})
  /\ follows_edges sample_requests
       (requests (operate CancelButton seed_request_1
                    {| requests := sample_requests; modalState := modal_closed |}))
  /\ (edge (status seed_request_1) (target CancelButton) = true
      /\ Forall2 (fun a b =>
                    (a = seed_request_1
                     /\ b = with_hasUnreadUpdates
                              (with_status seed_request_1 (target CancelButton)) true)
                    \/ (id a <> id seed_request_1 /\ b = a))
                 sample_requests
                 (requests (operate CancelButton seed_request_1
                              {| requests := sample_requests;
                                 modalState := modal_closed |})))
  /\ find_by_id (id completed_request)
       (handleStatusChange [completed_request] (id completed_request) Confirmed
          [completed_request])
     = Some (with_hasUnreadUpdates (with_status completed_request Confirmed) true).
Proof.
  destruct status_changes_follow_edges_through_controls
    as (_ & Hclosed & Hdisabled & Hcontrols & Henabled & Hdirect).
  split; [|split; [|split; [|split]]].
  - apply (Hclosed ConfirmButton completed_request). left. reflexivity.
  - apply (Hdisabled ConfirmButton (seed_request_2 sample_time)). reflexivity.
  - apply (Hcontrols CancelButton seed_request_1
             {| requests := sample_requests; modalState := modal_closed |}).
    + compute_done.
    + constructor.
  - apply (Henabled CancelButton seed_request_1
             {| requests := sample_requests; modalState := modal_closed |}).
    + compute_done.
    + constructor.
    + reflexivity.
    + discriminate.
  - apply (Hdirect [completed_request] (id completed_request) Confirmed
             completed_request).
    reflexivity.
Defined.

(** C1 as stated fails: the handler called directly on a [Completed]
    request with the target [Pending] changes the request, along
    [Completed -> Pending], which is no edge. *)
Lemma completed_request_reopened_by_direct_call :
  status completed_request = Completed
  /\ edge Completed Pending = false
  /\ handleStatusChange [completed_request] (id completed_request) Pending
       [completed_request]
     = [with_hasUnreadUpdates (with_status completed_request Pending) true]
  /\ handleStatusChange [completed_request] (id completed_request) Pending
       [completed_request]
     <> [completed_request]
  /\ ~ follows_edges [completed_request]
         (handleStatusChange [completed_request] (id completed_request) Pending
            [completed_request]).
Proof.
  split; [reflexivity|]. split; [reflexivity|]. split; [reflexivity|].
  split; [discriminate|].
  intros H. apply Forall2_cons_1 in H as [[_ [H|H]] _]; discriminate H.
Qed.

(** ** The unread flag *)

Section Messages.

Variable uuid_source : nat -> jsstring.

Lemma Client_handleSendMessage_found requests0 i text0 r w :
  find_by_id i requests0 = Some r ->
  Client_handleSendMessage uuid_source requests0 i text0 w
  = (Return (updateRequest
               (with_messages r (messages r ++ [new_message uuid_source w Client text0]))),
     uuid_drawn w).
Proof. intros H. unfold Client_handleSendMessage. by rewrite H. Qed.

Lemma Company_handleSendMessage_found requests0 i text0 r w :
  find_by_id i requests0 = Some r ->
  Company_handleSendMessage uuid_source requests0 i text0 w
  = (Return (updateRequest
               (with_hasUnreadUpdates
                  (with_messages r (messages r ++ [new_message uuid_source w Company text0]))
                  true)),
     uuid_drawn w).
Proof. intros H. unfold Company_handleSendMessage. by rewrite H. Qed.

Lemma Client_handleSendMessage_unknown requests0 i text0 w :
  find_by_id i requests0 = None ->
  Client_handleSendMessage uuid_source requests0 i text0 w
  = (Return (fun prev => prev), w).
Proof. intros H. unfold Client_handleSendMessage. by rewrite H. Qed.

Lemma Company_handleSendMessage_unknown requests0 i text0 w :
  find_by_id i requests0 = None ->
  Company_handleSendMessage uuid_source requests0 i text0 w
  = (Return (fun prev => prev), w).
Proof. intros H. unfold Company_handleSendMessage. by rewrite H. Qed.

(** Replacing a request by a value that differs from it only in fields
    other than [G] keeps [G] at every position, when ids are unique. *)
Lemma updateRequest_keeps_field {B} (G : FuelingRequest -> B)
    (l all : list FuelingRequest) r u :
  NoDup (map id all) -> r ∈ all -> (forall x, x ∈ l -> x ∈ all) ->
  id u = id r -> G u = G r ->
  Forall2 (fun a b => G b = G a) l (updateRequest u l).
Proof.
  intros Hnd Hr Hsub Hid HG. induction l as [|a l IH]; [constructor|].
  simpl. constructor.
  - destruct (str_eq (id a) (id u)) eqn:E; [|done].
    apply str_eq_true in E.
    assert (a = r) as ->; [|done].
    apply (unique_ids_inj all); auto; [apply Hsub; by left | congruence].
  - apply IH. intros x Hx. apply Hsub. by right.
Qed.

(** C4: for a request stored under id [i], a status change by the operator
    leaves it with the requested status and the unread flag set, whatever
    the flag was; a message appended by the operator leaves it with the flag
    set; a message appended by the requester leaves it with the flag it had,
    and with ids unique no request's flag changes. *)
Theorem unread_flag_set_by_operator_kept_by_requester
    (requests0 : list FuelingRequest) (i : jsstring) (r : FuelingRequest) (w : World) :
  find_by_id i requests0 = Some r ->
  (forall s, exists r',
      find_by_id i (handleStatusChange requests0 i s requests0) = Some r'
      /\ status r' = s /\ hasUnreadUpdates r' = true)
  /\ (forall text0, exists u w' r',
        Company_handleSendMessage uuid_source requests0 i text0 w = (Return u, w')
        /\ find_by_id i (u requests0) = Some r'
        /\ hasUnreadUpdates r' = true)
  /\ (forall text0, exists u w' r',
        Client_handleSendMessage uuid_source requests0 i text0 w = (Return u, w')
        /\ find_by_id i (u requests0) = Some r'
        /\ hasUnreadUpdates r' = hasUnreadUpdates r
        /\ (NoDup (map id requests0) ->
            Forall2 (fun a b => hasUnreadUpdates b = hasUnreadUpdates a)
                    requests0 (u requests0))).
Proof.
  intros Hfind.
  pose proof (find_by_id_Some _ _ _ Hfind) as [Hin Hid].
  split; [|split].
  - intros s. eexists. split; [|split].
    + rewrite (handleStatusChange_found _ _ _ _ Hfind). subst i.
      change (id r) with (id (with_hasUnreadUpdates (with_status r s) true)).
      eapply updateRequest_find. exact Hfind.
    + reflexivity.
    + reflexivity.
  - intros text0. eexists _, _, _. split; [|split].
    + by apply Company_handleSendMessage_found.
    + subst i.
      match goal with |- context [updateRequest ?u] =>
        change (id r) with (id u); eapply updateRequest_find; exact Hfind end.
    + reflexivity.
  - intros text0. eexists _, _, _. split; [|split; [|split]].
    + by apply Client_handleSendMessage_found.
    + subst i.
      match goal with |- context [updateRequest ?u] =>
        change (id r) with (id u); eapply updateRequest_find; exact Hfind end.
    + reflexivity.
    + intros Hnd. by apply (updateRequest_keeps_field _ _ requests0 r).
Qed.

End Messages.

Lemma unread_flag_set_by_operator_kept_by_requester_witness :
  exists r',
    find_by_id (id seed_request_1)
      (handleStatusChange sample_requests (id seed_request_1) Confirmed sample_requests)
    = Some r'
    /\ status r' = Confirmed /\ hasUnreadUpdates r' = true.
Proof.
  destruct (unread_flag_set_by_operator_kept_by_requester sample_uuid
              sample_requests (id seed_request_1) seed_request_1 empty_world)
    as (Hstatus & _ & _).
  - reflexivity.
  - exact (Hstatus Confirmed).
Defined.

(** ** Message lists only grow at the end *)

Section Appends.

Variable uuid_source : nat -> jsstring.

Lemma append_message_found a requests0 r w :
  NoDup (map id requests0) ->
  find_by_id (to_request a) requests0 = Some r ->
  exists requests', 
    append_message uuid_source a requests0 w = (Return requests', uuid_drawn w)
    /\ Forall2 (appended_to (to_request a)
                  (new_message uuid_source w (from a) (body a)))
               requests0 requests'.
Proof.
  intros Hnd Hfind.
  pose proof (find_by_id_Some _ _ _ Hfind) as [Hin Hid].
  unfold append_message, mbind, JS_bind.
  destruct (from a) eqn:Hfrom; eexists; (split;
    [ first [ by rewrite (Client_handleSendMessage_found _ _ _ _ r)
            | by rewrite (Company_handleSendMessage_found _ _ _ _ r) ] |]).
  all: match goal with |- Forall2 _ _ (updateRequest ?u _) =>
         pose proof (updateRequest_pointwise requests0 requests0 r u Hnd Hin
                       (fun _ H => H) eq_refl) as Hpt end.
  all: eapply Forall2_impl; [exact Hpt|].
  all: intros x y [[-> ->]|[Hne ->]]; unfold appended_to; simpl.
  all: try (rewrite Hid, str_eq_refl; done).
  all: rewrite (proj2 (str_eq_false _ _)) by congruence.
  all: by rewrite app_nil_r.
Qed.

Lemma append_message_unknown a requests0 w :
  find_by_id (to_request a) requests0 = None ->
  append_message uuid_source a requests0 w = (Return requests0, w).
Proof.
  intros Hfind. unfold append_message, mbind, JS_bind.
  destruct (from a).
  - by rewrite Client_handleSendMessage_unknown.
  - by rewrite Company_handleSendMessage_unknown.
Qed.

Lemma appended_to_ids i m l l' :
  Forall2 (appended_to i m) l l' -> map id l' = map id l.
Proof. induction 1 as [|a b l l' [Hid _] _ IH]; simpl; congruence. Qed.

Lemma messages_wf_step a requests0 requests' w :
  (forall m n : nat, uuid_source m = uuid_source n -> m = n) ->
  messages_wf uuid_source requests0 w ->
  Forall2 (appended_to (to_request a) (new_message uuid_source w (from a) (body a)))
          requests0 requests' ->
  messages_wf uuid_source requests' (uuid_drawn w).
Proof.
  intros Hinj (Hnd & Hmsgs & Hfresh) Hstep. split; [|split].
  - by rewrite (appended_to_ids _ _ _ _ Hstep).
  - clear Hnd. induction Hstep as [|x y l l' [_ Hy] _ IH]; [constructor|].
    apply Forall_cons in Hmsgs as [Hx Hmsgs]. constructor.
    + rewrite Hy. destruct (str_eq (id x) (to_request a)).
      * rewrite map_app. apply NoDup_app. split; [done|]. split.
        -- intros k Hk Hk'. simpl in Hk'. apply list_elem_of_singleton in Hk'.
           apply list_elem_of_fmap in Hk as (m & -> & Hm).
           apply (Hfresh x m (uuid_calls w)); [by left|done|lia|done].
        -- simpl. apply NoDup_singleton.
      * by rewrite app_nil_r.
    + apply IH; [done|]. intros r m n Hr. apply Hfresh. by right.
  - intros r' m n Hr' Hm Hn. simpl in Hn.
    apply list_elem_of_lookup in Hr' as [k Hk].
    destruct (Forall2_lookup_r _ _ _ _ _ Hstep Hk) as (r & Hr & _ & Hmsg).
    rewrite Hmsg in Hm. apply elem_of_app in Hm as [Hm|Hm].
    + apply (Hfresh r m n); [by eapply list_elem_of_lookup_2|done|lia].
    + destruct (str_eq (id r) (to_request a)); [|by apply elem_of_nil in Hm].
      apply list_elem_of_singleton in Hm as ->. simpl.
      intros Heq. apply Hinj in Heq. lia.
Qed.

Lemma append_messages_run (l : list Append) :
  (forall m n : nat, uuid_source m = uuid_source n -> m = n) ->
  forall requests0 w,
    messages_wf uuid_source requests0 w ->
    exists requests' w',
      append_messages uuid_source l requests0 w = (Return requests', w')
      /\ messages_wf uuid_source requests' w'
      /\ Forall2 (fun a b => id b = id a /\ messages a `prefix_of` messages b)
                 requests0 requests'.
Proof.
  intros Hinj. induction l as [|a l IH]; intros requests0 w Hwf.
  - exists requests0, w. split; [reflexivity|]. split; [done|].
    apply Forall_Forall2_diag, Forall_forall. intros x _. split; [done|].
    exists []. by rewrite app_nil_r.
  - simpl. unfold mbind, JS_bind.
    destruct (find_by_id (to_request a) requests0) as [r|] eqn:Hfind.
    + destruct (append_message_found a requests0 r w) as (requests1 & Hrun & Hstep);
        [apply Hwf | done |].
      rewrite Hrun.
      destruct (IH requests1 (uuid_drawn w)) as (requests' & w' & Hrest & Hwf' & Hpre).
      { by eapply messages_wf_step. }
      exists requests', w'. split; [done|]. split; [done|].
      eapply Forall2_trans; [|exact Hstep|exact Hpre].
      intros x y z [Hid Hmsg] [Hid' Hpre']. split; [congruence|].
      etrans; [|exact Hpre']. rewrite Hmsg. by apply prefix_app_r.
    + rewrite (append_message_unknown _ _ _ Hfind). by apply IH.
Qed.

Lemma known_id i (l : list FuelingRequest) :
  existsb (str_eq i) (map id l)
  = match find_by_id i l with Some _ => true | None => false end.
Proof.
  unfold find_by_id. induction l as [|x l IH]; [reflexivity|]. simpl.
  replace (str_eq i (id x)) with (str_eq (id x) i)
    by (unfold str_eq; apply bool_decide_ext; split; congruence).
  by destruct (str_eq (id x) i).
Qed.

(** A sequence of appends runs to its end and adds to each request, at the
    end of its messages, what [delivered] lists for its id. *)
Lemma append_messages_delivered (l : list Append) :
  (forall m n : nat, uuid_source m = uuid_source n -> m = n) ->
  forall requests0 w,
    messages_wf uuid_source requests0 w ->
    exists requests' w',
      append_messages uuid_source l requests0 w = (Return requests', w')
      /\ messages_wf uuid_source requests' w'
      /\ Forall2 (fun x y =>
                    id y = id x
                    /\ messages y
                       = messages x
                         ++ delivered uuid_source (map id requests0) l w (id x))
                 requests0 requests'.
Proof.
  intros Hinj. induction l as [|a l IH]; intros requests0 w Hwf.
  - exists requests0, w. split; [reflexivity|]. split; [done|].
    apply Forall_Forall2_diag, Forall_forall. intros x _. split; [done|].
    simpl. by rewrite app_nil_r.
  - simpl. unfold mbind, JS_bind. rewrite known_id.
    destruct (find_by_id (to_request a) requests0) as [r|] eqn:Hfind.
    + destruct (append_message_found a requests0 r w) as (requests1 & Hrun & Hstep);
        [apply Hwf | done |].
      rewrite Hrun.
      destruct (IH requests1 (uuid_drawn w)) as (requests' & w' & Hrest & Hwf' & Hadd).
      { by eapply messages_wf_step. }
      exists requests', w'. split; [done|]. split; [done|].
      rewrite (appended_to_ids _ _ _ _ Hstep) in Hadd.
      eapply Forall2_trans; [|exact Hstep|exact Hadd].
      intros x y z [Hid Hmsg] [Hid' Hmsg']. split; [congruence|].
      rewrite Hmsg', Hmsg, Hid. by rewrite <- app_assoc.
    + rewrite (append_message_unknown _ _ _ Hfind). by apply IH.
Qed.

(** C9: in a state where request ids are unique, the message ids of every
    request are unique and the id generator neither repeats itself nor
    hands out an id already carried by a message, one append by either role
    addressed to a stored request returns the collection in which that
    request has its old messages followed by the one new message, built
    from the sender, the text, the next id and the clock, and every other
    request has its messages as they were; an append addressed to no stored
    request returns the collection as it is.  Any sequence of appends runs
    to its end and leaves, position by position, each request with its id,
    with its old messages followed by exactly the messages the sequence
    addressed to it, in order, and with unique message ids. *)
Theorem appends_keep_history_and_unique_ids
    (requests0 : list FuelingRequest) (w : World) :
  (forall m n : nat, uuid_source m = uuid_source n -> m = n) ->
  messages_wf uuid_source requests0 w ->
  (forall (a : Append) (r : FuelingRequest),
      find_by_id (to_request a) requests0 = Some r ->
      exists requests',
        append_message uuid_source a requests0 w = (Return requests', uuid_drawn w)
        /\ Forall2 (fun x y =>
                      id y = id x
                      /\ messages y
                         = messages x
                           ++ (if str_eq (id x) (to_request a)
                               then [new_message uuid_source w (from a) (body a)]
                               else []))
                   requests0 requests'
        /\ exists r', find_by_id (to_request a) requests' = Some r'
             /\ messages r'
                = messages r ++ [new_message uuid_source w (from a) (body a)])
  /\ (forall a : Append,
        find_by_id (to_request a) requests0 = None ->
        append_message uuid_source a requests0 w = (Return requests0, w))
  /\ (forall l : list Append, exists requests' w',
        append_messages uuid_source l requests0 w = (Return requests', w')
        /\ Forall2 (fun x y =>
                      id y = id x
                      /\ messages y
                         = messages x
                           ++ delivered uuid_source (map id requests0) l w (id x)
                      /\ messages x `prefix_of` messages y
                      /\ NoDup (map msg_id (messages y)))
                   requests0 requests').
Proof.
  intros Hinj Hwf. split; [|split].
  - intros a r Hfind.
    destruct (append_message_found a requests0 r w) as (requests' & Hrun & Hstep);
      [apply Hwf | done |].
    exists requests'. split; [done|]. split; [exact Hstep|].
    apply find_by_id_Some in Hfind as Hr. destruct Hr as [Hr Hid].
    apply list_elem_of_lookup in Hr as [k Hk].
    destruct (Forall2_lookup_l _ _ _ _ _ Hstep Hk) as (r' & Hk' & Hid' & Hmsg).
    exists r'. split.
    + rewrite <- Hid, <- Hid'. apply find_by_id_unique.
      * rewrite (appended_to_ids _ _ _ _ Hstep). apply Hwf.
      * by eapply list_elem_of_lookup_2.
    + by rewrite Hmsg, Hid, str_eq_refl.
  - intros a. apply append_message_unknown.
  - intros l.
    destruct (append_messages_delivered l Hinj requests0 w Hwf)
      as (requests' & w' & Hrun & (_ & Hmsgs & _) & Hadd).
    exists requests', w'. split; [done|].
    apply Forall2_lookup. intros k.
    pose proof (proj1 (Forall2_lookup _ _ _) Hadd k) as Hk.
    destruct (requests' !! k) as [y|] eqn:Hy; inversion Hk as [x y' [Hid Hp]|];
      subst; constructor.
    split; [done|]. split; [done|]. split; [by eexists|].
    apply (proj1 (Forall_lookup _ _) Hmsgs k y Hy).
Qed.

End Appends.

Lemma sample_uuid_inj m n : sample_uuid m = sample_uuid n -> m = n.
Proof.
  unfold sample_uuid. intros H. apply (f_equal length) in H.
  simpl in H. rewrite !length_replicate in H. lia.
Qed.

Lemma sample_messages_wf : messages_wf sample_uuid sample_requests empty_world.
Proof.
  split; [compute_done|]. split.
  - repeat constructor; compute_done.
  - intros r m n Hr Hm _.
    apply elem_of_cons in Hr as [->|Hr]; [by apply elem_of_nil in Hm|].
    apply list_elem_of_singleton in Hr as ->.
    apply elem_of_cons in Hm as [->|Hm]; [discriminate|].
    apply list_elem_of_singleton in Hm as ->. discriminate.
Qed.

(** On the sample: the two messages addressed to the first seed request
    are delivered in order with the first two ids, the one addressed to an
    unknown id draws none. *)
Example delivered_sample :
  delivered sample_uuid (map id sample_requests) sample_appends empty_world
    (id seed_request_1)
  = [ {| msg_id := sample_uuid 0; sender := Client; text := ascii_units "hello";
         timestamp := sample_time |};
      {| msg_id := sample_uuid 1; sender := Company;
         text := ascii_units "on our way"; timestamp := sample_time |} ]
  /\ delivered sample_uuid (map id sample_requests) sample_appends empty_world
       (id (seed_request_2 sample_time)) = [].
Proof. split; reflexivity. Qed.

Lemma appends_keep_history_and_unique_ids_witness :
  (exists requests',
      append_message sample_uuid
        {| from := Client; to_request := id seed_request_1;
           body := ascii_units "hello" |}
        sample_requests empty_world
      = (Return requests', uuid_drawn empty_world)
      /\ Forall2 (fun x y =>
                    id y = id x
                    /\ messages y
                       = messages x
                         ++ (if str_eq (id x) (id seed_request_1)
                             then [new_message sample_uuid empty_world Client
                                     (ascii_units "hello")]
                             else []))
                 sample_requests requests'
      /\ exists r', find_by_id (id seed_request_1) requests' = Some r'
           /\ messages r'
              = messages seed_request_1
                ++ [new_message sample_uuid empty_world Client
                      (ascii_units "hello")])
  /\ append_message sample_uuid
       {| from := Company; to_request := ascii_units "no-such-request";
          body := ascii_units "lost" |}
       sample_requests empty_world
     = (Return sample_requests, empty_world)
  /\ exists requests' w',
      append_messages sample_uuid sample_appends sample_requests empty_world
      = (Return requests', w')
      /\ Forall2 (fun x y =>
                    id y = id x
                    /\ messages y
                       = messages x
                         ++ delivered sample_uuid (map id sample_requests)
                              sample_appends empty_world (id x)
                    /\ messages x `prefix_of` messages y
                    /\ NoDup (map msg_id (messages y)))
                 sample_requests requests'.
Proof.
  destruct (appends_keep_history_and_unique_ids sample_uuid sample_requests
              empty_world sample_uuid_inj sample_messages_wf)
    as (Hone & Hnone & Hall).
  split; [|split].
  - apply (Hone {| from := Client; to_request := id seed_request_1;
                   body := ascii_units "hello" |} seed_request_1).
    reflexivity.
  - apply (Hnone {| from := Company; to_request := ascii_units "no-such-request";
                    body := ascii_units "lost" |}).
    reflexivity.
  - apply Hall.
Defined.

(** ** The requester identifier *)

Section ClientId.

Variable uuid_source : nat -> jsstring.

Lemma setItem_fits key value w :
  fits key value w -> setItem key value w = (Return tt, stored key value w).
Proof.
  unfold fits, setItem. intros H. apply N.leb_le in H. by rewrite H.
Qed.

Lemma setItem_full key value w :
  ~ fits key value w -> setItem key value w = (Throw QuotaExceededError, w).
Proof.
  unfold fits, setItem. intros H. apply N.leb_nle in H. by rewrite H.
Qed.

Lemma truthy_nonempty s : truthy s = true <-> s <> [].
Proof. destruct s; simpl; split; congruence. Qed.

Lemma getClientId_stored c w :
  items (localStorage w) !! key_fuelingServiceClientId = Some c -> c <> [] ->
  getClientId uuid_source w = (Return c, w).
Proof.
  intros Hc Hne. unfold getClientId, mbind, JS_bind, getItem. cbv beta.
  rewrite Hc. by rewrite (proj2 (truthy_nonempty c) Hne).
Qed.

Lemma getClientId_generates w :
  (items (localStorage w) !! key_fuelingServiceClientId = None
   \/ items (localStorage w) !! key_fuelingServiceClientId = Some []) ->
  getClientId uuid_source w
  = match setItem key_fuelingServiceClientId (uuid_source (uuid_calls w))
            (uuid_drawn w) with
    | (Return _, w') => (Return (uuid_source (uuid_calls w)), w')
    | (Throw e, w') => (Throw e, w')
    end.
Proof.
  intros [H|H]; unfold getClientId, mbind, JS_bind, getItem; cbv beta;
    rewrite H; simpl; unfold mbind, JS_bind, uuidv4;
    by destruct (setItem _ _ _) as [[[]|] ?].
Qed.

(** C10: the first use (nothing stored under the identifier's key, the new
    item fitting the quota) draws a fresh id from the generator and stores
    it under that key, leaving the key of the request collection alone; a
    use that finds a non-empty value stored returns it and changes nothing;
    hence, the generator's ids being non-empty, whenever a call returns, the
    next call returns the same id and leaves the world, store included, as
    the first call left it. *)
Theorem getClientId_is_stable (w : World) :
  (forall n, uuid_source n <> []) ->
  (items (localStorage w) !! key_fuelingServiceClientId = None ->
   fits key_fuelingServiceClientId (uuid_source (uuid_calls w)) (uuid_drawn w) ->
   getClientId uuid_source w
   = (Return (uuid_source (uuid_calls w)),
      stored key_fuelingServiceClientId (uuid_source (uuid_calls w)) (uuid_drawn w))
   /\ items (localStorage
               (stored key_fuelingServiceClientId (uuid_source (uuid_calls w))
                  (uuid_drawn w))) !! key_fuelingRequests
      = items (localStorage w) !! key_fuelingRequests)
  /\ (forall c, items (localStorage w) !! key_fuelingServiceClientId = Some c ->
        c <> [] -> getClientId uuid_source w = (Return c, w))
  /\ (forall c1 w1, getClientId uuid_source w = (Return c1, w1) ->
        getClientId uuid_source w1 = (Return c1, w1)
        /\ items (localStorage w1) !! key_fuelingServiceClientId = Some c1).
Proof.
  intros Hne. split; [|split].
  - intros Habsent Hfits. split.
    + rewrite getClientId_generates by auto. by rewrite (setItem_fits _ _ _ Hfits).
    + simpl. by rewrite lookup_insert_ne.
  - intros c. apply getClientId_stored.
  - intros c1 w1 Hrun.
    destruct (items (localStorage w) !! key_fuelingServiceClientId) as [c|] eqn:Hc.
    + destruct c as [|x c].
      * rewrite getClientId_generates in Hrun by auto.
        unfold setItem in Hrun. destruct (_ <=? _); [|discriminate].
        injection Hrun as <- <-.
        split; [apply getClientId_stored; [|done]|]; simpl; apply lookup_insert_eq.
      * rewrite (getClientId_stored (x :: c) w Hc) in Hrun by done.
        injection Hrun as <- <-. split; [by apply getClientId_stored | done].
    + rewrite getClientId_generates in Hrun by auto.
      unfold setItem in Hrun. destruct (_ <=? _); [|discriminate].
      injection Hrun as <- <-.
      split; [apply getClientId_stored; [|done]|]; simpl; apply lookup_insert_eq.
Qed.

End ClientId.

Lemma sample_uuid_nonempty n : sample_uuid n <> [].
Proof. discriminate. Qed.

Lemma getClientId_is_stable_witness :
  getClientId sample_uuid empty_world
  = (Return (sample_uuid 0),
     stored key_fuelingServiceClientId (sample_uuid 0) (uuid_drawn empty_world))
  /\ getClientId sample_uuid
       (stored key_fuelingServiceClientId (sample_uuid 0) (uuid_drawn empty_world))
     = (Return (sample_uuid 0),
        stored key_fuelingServiceClientId (sample_uuid 0) (uuid_drawn empty_world)).
Proof.
  destruct (getClientId_is_stable sample_uuid empty_world sample_uuid_nonempty)
    as (Hfirst & _ & Hnext).
  assert (Hrun : getClientId sample_uuid empty_world
                 = (Return (sample_uuid 0),
                    stored key_fuelingServiceClientId (sample_uuid 0)
                      (uuid_drawn empty_world))).
  { apply Hfirst; [reflexivity | unfold fits; vm_compute; discriminate]. }
  split; [exact Hrun | exact (proj1 (Hnext _ _ Hrun))].
Defined.

(** ** Start-up from the store *)

Lemma App_initialState_seed loaded w :
  (items (localStorage w) !! key_fuelingRequests = None
   \/ items (localStorage w) !! key_fuelingRequests = Some []) ->
  App_initialState loaded w = (Return (Seed (initialRequests loaded)), w).
Proof.
  intros [H|H]; unfold App_initialState, mbind, JS_bind, getItem; cbv beta;
    by rewrite H.
Qed.

Lemma App_initialState_parsed loaded w s :
  items (localStorage w) !! key_fuelingRequests = Some s -> s <> [] ->
  App_initialState loaded w
  = match JSON_parse s with
    | Return v => (Return (Revived v), w)
    | Throw e => (Throw e, w)
    end.
Proof.
  intros H Hne. unfold App_initialState, mbind, JS_bind, getItem. cbv beta.
  rewrite H, (proj2 (truthy_nonempty s) Hne). by destruct (JSON_parse s).
Qed.

(** C2 (as amended): with nothing stored under the collection's key, or the
    empty string, the initial collection is the seed dataset; a stored
    non-empty value that is not JSON text makes [JSON.parse] throw a
    [SyntaxError] that nothing catches, so the initialiser fails; a stored
    JSON text enters the state as parsed, with its timestamps revived. *)
Theorem initial_requests_from_store (loaded : Date) (w : World) :
  (items (localStorage w) !! key_fuelingRequests = None ->
   App_initialState loaded w = (Return (Seed (initialRequests loaded)), w))
  /\ (items (localStorage w) !! key_fuelingRequests = Some [] ->
      App_initialState loaded w = (Return (Seed (initialRequests loaded)), w))
  /\ (forall s, items (localStorage w) !! key_fuelingRequests = Some s -> s <> [] ->
        JSON_parse_text s = Throw SyntaxError ->
        App_initialState loaded w = (Throw SyntaxError, w))
  /\ (forall s v, items (localStorage w) !! key_fuelingRequests = Some s -> s <> [] ->
        JSON_parse_text s = Return v ->
        App_initialState loaded w = (Return (Revived (revive v)), w)).
Proof.
  split; [|split; [|split]].
  - intros H. apply App_initialState_seed. by left.
  - intros H. apply App_initialState_seed. by right.
  - intros s H Hne Hbad. rewrite (App_initialState_parsed _ _ _ H Hne).
    unfold JSON_parse. by rewrite Hbad.
  - intros s v H Hne Hok. rewrite (App_initialState_parsed _ _ _ H Hne).
    unfold JSON_parse. by rewrite Hok.
Qed.

Lemma initial_requests_from_store_witness :
  App_initialState sample_time empty_world
  = (Return (Seed (initialRequests sample_time)), empty_world)
  /\ App_initialState sample_time malformed_world
     = (Throw SyntaxError, malformed_world).
Proof.
  destruct (initial_requests_from_store sample_time empty_world)
    as (Habsent & _ & _ & _).
  destruct (initial_requests_from_store sample_time malformed_world)
    as (_ & _ & Hbad & _).
  split.
  - apply Habsent. reflexivity.
  - apply (Hbad (ascii_units "not json")).
    + reflexivity.
    + discriminate.
    + reflexivity.
Defined.

(** C2 as stated fails: with the text [not json] stored under the key,
    start-up throws instead of falling back to the seed dataset. *)
Lemma malformed_store_fails_startup :
  items (localStorage malformed_world) !! key_fuelingRequests
  = Some (ascii_units "not json")
  /\ JSON_parse (ascii_units "not json") = Throw SyntaxError
  /\ App_initialState sample_time malformed_world
     = (Throw SyntaxError, malformed_world)
  /\ App_initialState sample_time malformed_world
     <> (Return (Seed (initialRequests sample_time)), malformed_world).
Proof.
  split; [reflexivity|]. split; [reflexivity|].
  assert (H : App_initialState sample_time malformed_world
              = (Throw SyntaxError, malformed_world)) by reflexivity.
  split; [exact H|]. rewrite H. discriminate.
Qed.

(** ** Persisting the collection *)

(** C8 (as amended): nothing catches a failing write.  When the serialized
    collection does not fit the quota, the exception of [setItem] leaves the
    persistence effect and the state change that triggered it, and the store
    keeps its contents; when it fits, the store holds the serialized
    collection and the state change yields the new collection. *)
Theorem persist_failure_is_not_caught
    (u : Updater) (requests0 : list FuelingRequest) (w : World) :
  (~ fits key_fuelingRequests (JSON_stringify (u requests0)) w ->
   persist (u requests0) w = (Throw QuotaExceededError, w)
   /\ setRequests u requests0 w = (Throw QuotaExceededError, w))
  /\ (fits key_fuelingRequests (JSON_stringify (u requests0)) w ->
      setRequests u requests0 w
      = (Return (u requests0),
         stored key_fuelingRequests (JSON_stringify (u requests0)) w)).
Proof.
  split; intros H; unfold setRequests, persist, mbind, JS_bind.
  - by rewrite (setItem_full _ _ _ H).
  - by rewrite (setItem_fits _ _ _ H).
Qed.

Lemma persist_failure_is_not_caught_witness :
  setRequests (handleStatusChange sample_requests (id seed_request_1) Confirmed)
    sample_requests full_world
  = (Throw QuotaExceededError, full_world).
Proof.
  destruct (persist_failure_is_not_caught
              (handleStatusChange sample_requests (id seed_request_1) Confirmed)
              sample_requests full_world) as [Hfull _].
  apply Hfull. unfold fits. vm_compute. intros H. apply H. reflexivity.
Defined.

(** C8 as stated fails: with the quota used up, the persistence effect
    throws [QuotaExceededError] to its caller, and so does the state change
    that triggered it. *)
Lemma full_store_breaks_the_update :
  persist sample_requests full_world = (Throw QuotaExceededError, full_world)
  /\ setRequests (fun prev => prev) sample_requests full_world
     = (Throw QuotaExceededError, full_world)
  /\ setRequests (fun prev => prev) sample_requests full_world
     <> (Return sample_requests, full_world).
Proof.
  assert (H : persist sample_requests full_world
              = (Throw QuotaExceededError, full_world)) by (vm_compute; reflexivity).
  split; [exact H|].
  unfold setRequests, mbind, JS_bind. rewrite H. split; [reflexivity|discriminate].
Qed.

(** ** Submitting the form *)

Section Submission.

Variable uuid_source : nat -> jsstring.

Lemma validateForm_valid data :
  snd (validateForm data) = negb (some_blank data).
Proof.
  unfold validateForm, some_blank, error_count, field_error. simpl.
  by destruct (blank (form_standNumber data)), (blank (form_airline data)),
    (blank (form_flightNumber data)), (blank (form_representativeName data)).
Qed.

Lemma blank_trim s : blank s = true <-> trim s = [].
Proof. unfold blank. destruct (trim s); simpl; split; congruence. Qed.

(** C6: submitting stores, for each of the four fields, the required-field
    message when the field is empty after trimming and no error otherwise.
    If some field is blank nothing else happens: the collection, the form
    and the pending timeouts are as before, so no request is ever added by
    this submission.  If none is blank, the collection is still as before,
    the form is marked as submitting and one timeout of 500 ms is pending
    whose callback, in whatever state it runs, puts a new [Pending] request
    with the submitted fields, no messages and a fresh id at the front of
    the collection; with no older timeout pending it is the next to fire. *)
Theorem submit_requires_all_fields (cid : jsstring) (st : ClientState) :
  let st' := handleSubmit st in
  (error_standNumber (errors st')
     = (if blank (form_standNumber (formData st)) then Some required_message else None)
   /\ error_airline (errors st')
      = (if blank (form_airline (formData st)) then Some required_message else None)
   /\ error_flightNumber (errors st')
      = (if blank (form_flightNumber (formData st)) then Some required_message else None)
   /\ error_representativeName (errors st')
      = (if blank (form_representativeName (formData st))
         then Some required_message else None))
  /\ (some_blank (formData st) = true ->
      client_requests st' = client_requests st
      /\ timers st' = timers st
      /\ formData st' = formData st
      /\ isSubmitting st' = isSubmitting st)
  /\ (some_blank (formData st) = false ->
      client_requests st' = client_requests st
      /\ isSubmitting st' = true
      /\ timers st'
         = timers st ++ [{| delay := 500; callback := SubmitCallback (formData st) |}]
      /\ (forall st2 w, exists st3,
            run_callback uuid_source cid (SubmitCallback (formData st)) st2 w
            = (Return st3, uuid_drawn w)
            /\ client_requests st3
               = new_request uuid_source w cid (formData st) :: client_requests st2)
      /\ (timers st = [] -> forall w, exists st3,
            fire_timer uuid_source cid st' w = (Return st3, uuid_drawn w)
            /\ client_requests st3
               = new_request uuid_source w cid (formData st) :: client_requests st)).
Proof.
  intros st'. unfold st', handleSubmit.
  pose proof (validateForm_valid (formData st)) as Hvalid.
  destruct (validateForm (formData st)) as [newErrors valid] eqn:Hv.
  simpl in Hvalid. subst valid. rewrite negb_involutive.
  assert (Herr : newErrors = fst (validateForm (formData st))) by by rewrite Hv.
  split.
  { destruct (some_blank (formData st)); simpl; subst newErrors; done. }
  split; intros Hb; rewrite Hb; simpl; [done|].
  split; [done|]. split; [done|]. split; [done|]. split.
  - intros st2 w. eexists. split; reflexivity.
  - intros Hnone w. rewrite Hnone. eexists. split; reflexivity.
Qed.

End Submission.

Lemma submit_requires_all_fields_witness :
  client_requests (handleSubmit (client_state blank_airline_form)) = sample_requests
  /\ timers (handleSubmit (client_state blank_airline_form)) = []
  /\ exists st3,
       fire_timer sample_uuid (ascii_units "client-abc")
         (handleSubmit (client_state filled_form)) empty_world
       = (Return st3, uuid_drawn empty_world)
       /\ client_requests st3
          = new_request sample_uuid empty_world (ascii_units "client-abc") filled_form
            :: sample_requests.
Proof.
  destruct (submit_requires_all_fields sample_uuid (ascii_units "client-abc")
              (client_state blank_airline_form)) as (_ & Hblank & _).
  destruct (submit_requires_all_fields sample_uuid (ascii_units "client-abc")
              (client_state filled_form)) as (_ & _ & Hfilled).
  destruct Hblank as (Hreqs & Htimers & _); [reflexivity|].
  destruct Hfilled as (_ & _ & _ & _ & Hfire); [reflexivity|].
  split; [exact Hreqs|]. split; [exact Htimers|].
  exact (Hfire eq_refl empty_world).
Defined.

(** ** The requester's list *)

(** *** V8's short-array sort under a comparison that looks only at its
    first argument

    [comparefn x y] is [-1] when [p x] and [1] otherwise, as [pending_first]
    is for [p] = "is pending". *)
Section OneSidedComparison.

Context {A : Type} (p : A -> bool).

Lemma sorted_form_length l : length (sorted_form p l) = length l.
Proof.
  unfold sorted_form. rewrite length_app, length_rev.
  induction l as [|x l IH]; [done|]. simpl. destruct (p x); simpl; lia.
Qed.

Lemma sorted_form_snoc l x :
  sorted_form p (l ++ [x])
  = if p x then x :: sorted_form p l else sorted_form p l ++ [x].
Proof.
  unfold sorted_form. rewrite !List.filter_app. simpl.
  destruct (p x); simpl.
  - rewrite rev_app_distr. simpl. by rewrite app_nil_r.
  - by rewrite !app_nil_r, app_assoc.
Qed.

Lemma insertion_point_first pivot turns (workArray : list A) left right :
  p pivot = true -> (right <= length workArray)%nat ->
  insertion_point (one_sided p) turns workArray pivot left right = left.
Proof.
  intros Hp. revert left right.
  induction turns as [|turns IH]; intros left right Hr; [done|].
  cbn [insertion_point].
  destruct (left <? right)%nat eqn:Hlt; [|done].
  apply Nat.ltb_lt in Hlt.
  assert (Hmid : (left + (right - left) / 2 < right)%nat).
  { pose proof (Nat.div_lt (right - left) 2). lia. }
  destruct (lookup_lt_is_Some_2 workArray (left + (right - left) / 2)) as [x Hx];
    [lia|].
  rewrite Hx. unfold one_sided at 1. rewrite Hp. cbn [Z.ltb Z.compare].
  apply IH. lia.
Qed.

Lemma insertion_point_last pivot turns (workArray : list A) left right :
  p pivot = false -> (right <= length workArray)%nat -> (left <= right)%nat ->
  (right - left <= turns)%nat ->
  insertion_point (one_sided p) turns workArray pivot left right = right.
Proof.
  intros Hp. revert left right.
  induction turns as [|turns IH]; intros left right Hr Hle Hturns; [simpl; lia|].
  cbn [insertion_point]. destruct (left <? right)%nat eqn:Hlt.
  - apply Nat.ltb_lt in Hlt.
    assert (Hmid : (left + (right - left) / 2 < right)%nat).
    { pose proof (Nat.div_lt (right - left) 2). lia. }
    destruct (lookup_lt_is_Some_2 workArray (left + (right - left) / 2)) as [x Hx];
      [lia|].
    rewrite Hx. unfold one_sided at 1. rewrite Hp. cbn [Z.ltb Z.compare].
    apply IH; lia.
  - apply Nat.ltb_ge in Hlt. lia.
Qed.

Lemma insertion_loop_sorted_form rest : forall pre,
  insertion_loop (one_sided p) (length rest) (length pre) (sorted_form p pre ++ rest)
  = sorted_form p (pre ++ rest).
Proof.
  induction rest as [|pivot rest IH]; intros pre.
  - simpl. by rewrite !app_nil_r.
  - pose proof (sorted_form_length pre) as Hlen. simpl.
    rewrite lookup_app_r by lia. rewrite Hlen, Nat.sub_diag. simpl.
    destruct (p pivot) eqn:Hp.
    + rewrite insertion_point_first by (rewrite ?length_app; simpl; lia || done).
      rewrite Nat.sub_0_r. simpl. rewrite drop_0.
      rewrite take_app_length' by done.
      rewrite drop_app_ge by lia. rewrite Hlen.
      replace (S (length pre) - length pre)%nat with 1%nat by lia. simpl.
      rewrite drop_0.
      specialize (IH (pre ++ [pivot])).
      rewrite length_app, sorted_form_snoc, Hp in IH. simpl in IH.
      rewrite Nat.add_1_r in IH. rewrite <- app_assoc in IH. simpl in IH.
      exact IH.
    + rewrite insertion_point_last
        by (rewrite ?length_app; simpl; lia || done).
      rewrite Nat.sub_diag. simpl.
      rewrite take_app_length' by done.
      rewrite drop_app_ge by lia. rewrite Hlen.
      replace (S (length pre) - length pre)%nat with 1%nat by lia. simpl.
      rewrite drop_0.
      specialize (IH (pre ++ [pivot])).
      rewrite length_app, sorted_form_snoc, Hp in IH. simpl in IH.
      rewrite Nat.add_1_r in IH. rewrite <- !app_assoc in IH. simpl in IH.
      exact IH.
Qed.

Lemma extend_run_all b previousElement rest :
  let k := extend_run (one_sided p) b previousElement rest in
  (k <= length rest)%nat /\ Forall (fun x => p x = b) (take k rest).
Proof.
  revert previousElement. induction rest as [|x rest IH]; intros previousElement.
  - simpl. split; [lia|constructor].
  - cbn [extend_run length].
    assert (Hc : (one_sided p) x previousElement = if p x then (-1)%Z else 1%Z)
      by reflexivity.
    rewrite Hc. destruct (IH x) as [Hk Hall].
    destruct b, (p x) eqn:Hx; cbn [Z.geb Z.ltb Z.compare take];
      (split; [lia|]); by constructor.
Qed.

Lemma sorted_form_run x0 (ys : list A) b :
  Forall (fun x => p x = b) ys ->
  sorted_form p (x0 :: ys) = if b then rev (x0 :: ys) else x0 :: ys.
Proof.
  intros Hall. unfold sorted_form. simpl.
  assert (Hp : List.filter p ys = if b then ys else []).
  { induction Hall as [|y ys Hy _ IH]; [by destruct b|]. simpl.
    rewrite Hy, IH. by destruct b. }
  assert (Hn : List.filter (fun x => negb (p x)) ys = if b then [] else ys).
  { clear Hp. induction Hall as [|y ys Hy _ IH]; [by destruct b|]. simpl.
    rewrite Hy, IH. by destruct b. }
  destruct (p x0), b; simpl; rewrite Hp, Hn; simpl; by rewrite ?app_nil_r.
Qed.

(** The sort puts the [p] elements first, in reverse order, and the others
    after them, in order. *)
Lemma V8_sort_one_sided (l : list A) : V8_sort (one_sided p) l = sorted_form p l.
Proof.
  unfold V8_sort.
  destruct l as [|x0 [|x1 rest]]; [done | |].
  { unfold sorted_form. simpl. by destruct (p x0). }
  change (length (x0 :: x1 :: rest) <? 2)%nat with false. cbv iota.
  unfold CountAndMakeRun.
  set (b := ((one_sided p) x1 x0 <? 0)%Z).
  assert (Hb : p x1 = b). { unfold b, one_sided. by destruct (p x1). }
  destruct (extend_run_all b x1 rest) as [Hk Hall].
  set (k := extend_run (one_sided p) b x1 rest) in *.
  set (n := (2 + k)%nat).
  assert (Hsplit : x0 :: x1 :: rest = (x0 :: x1 :: take k rest) ++ drop k rest).
  { simpl. by rewrite take_drop. }
  assert (Hrun : (if b then rev (take n (x0 :: x1 :: rest)) ++ drop n (x0 :: x1 :: rest)
                  else x0 :: x1 :: rest)
                 = sorted_form p (x0 :: x1 :: take k rest) ++ drop k rest).
  { rewrite (sorted_form_run x0 (x1 :: take k rest) b) by by constructor.
    destruct b; [|exact Hsplit]. reflexivity. }
  rewrite Hrun.
  destruct (n <? length (x0 :: x1 :: rest))%nat eqn:Hn.
  - unfold BinaryInsertionSort. change (n =? 0)%nat with false. cbv iota.
    replace (length (x0 :: x1 :: rest) - n)%nat with (length (drop k rest))
      by (rewrite length_drop; simpl; lia).
    replace n with (length (x0 :: x1 :: take k rest))
      by (simpl; rewrite length_take; lia).
    rewrite insertion_loop_sorted_form. by rewrite <- Hsplit.
  - apply Nat.ltb_ge in Hn. simpl in Hn.
    assert (k = length rest) as Hkr by lia.
    rewrite Hkr, drop_all, firstn_all, app_nil_r. reflexivity.
Qed.

End OneSidedComparison.

(** The comparison of line 210 never answers 0 and ignores its second
    argument: for two pending requests each is "before" the other, so it is
    no consistent comparison and the order it yields is up to the engine. *)
Lemma pending_first_inconsistent a b :
  status a = Pending -> status b = Pending ->
  pending_first a b = (-1)%Z /\ pending_first b a = (-1)%Z.
Proof.
  intros Ha Hb. unfold pending_first.
  by rewrite !bool_decide_eq_true_2 by done.
Qed.

(** Whatever the engine, as long as its sort permutes the array: the list
    shown to the requester holds exactly the stored requests of this
    requester. *)
Lemma clientRequests_own
    (Array_sort : (FuelingRequest -> FuelingRequest -> Z) ->
                  list FuelingRequest -> list FuelingRequest)
    (requests0 : list FuelingRequest) (cid : jsstring) :
  (forall c l, Array_sort c l ≡ₚ l) ->
  clientRequests Array_sort requests0 cid ≡ₚ List.filter (own cid) requests0
  /\ (forall r, r ∈ clientRequests Array_sort requests0 cid
                <-> r ∈ requests0 /\ clientId r = cid).
Proof.
  intros Hperm. unfold clientRequests. split; [apply Hperm|].
  intros r. rewrite (Hperm _ _). rewrite !list_elem_of_In, filter_In.
  by rewrite str_eq_true.
Qed.

(** The operator's cards show the collection as stored, whole and in store
    order. *)
Lemma CompanyView_cards_all requests0 open :
  map card_request (CompanyView_cards requests0 open) = requests0.
Proof. unfold CompanyView_cards. rewrite map_map. simpl. apply map_id. Qed.

(** The requester's cards show [clientRequests]. *)
Lemma ClientView_cards_clientRequests
    (Array_sort : (FuelingRequest -> FuelingRequest -> Z) ->
                  list FuelingRequest -> list FuelingRequest)
    requests0 cid open :
  map card_request (ClientView_cards Array_sort requests0 cid open)
  = clientRequests Array_sort requests0 cid.
Proof. unfold ClientView_cards. rewrite map_map. simpl. apply map_id. Qed.

(** On V8, for lists short enough for the model of its sort: the pending
    requests of the requester in reverse store order, then the others in
    store order. *)
Lemma clientRequests_V8 (requests0 : list FuelingRequest) (cid : jsstring) :
  clientRequests (@V8_sort FuelingRequest) requests0 cid
  = rev (List.filter is_pending (List.filter (own cid) requests0))
    ++ List.filter (fun r => negb (is_pending r)) (List.filter (own cid) requests0).
Proof.
  unfold clientRequests.
  change pending_first with (one_sided is_pending).
  apply V8_sort_one_sided.
Qed.

(** C3: the code run on the failing input.  Two pending requests of the
    same requester, stored as [seed_request_1], [stray_request], are shown
    by the requester view on V8 as [stray_request], [seed_request_1]: the
    pending group is not in store order, which the claim asks for. *)
Theorem pending_requests_shown_out_of_store_order :
  status seed_request_1 = Pending
  /\ status stray_request = Pending
  /\ clientId seed_request_1 = clientId stray_request
  /\ clientRequests (@V8_sort FuelingRequest) [seed_request_1; stray_request]
       (ascii_units "client-abc")
     = [stray_request; seed_request_1]
  /\ clientRequests (@V8_sort FuelingRequest) [seed_request_1; stray_request]
       (ascii_units "client-abc")
     <> [seed_request_1; stray_request].
Proof.
  split; [reflexivity|]. split; [reflexivity|]. split; [reflexivity|].
  assert (H : clientRequests (@V8_sort FuelingRequest)
                [seed_request_1; stray_request] (ascii_units "client-abc")
              = [stray_request; seed_request_1]) by (vm_compute; reflexivity).
  split; [exact H|]. rewrite H. discriminate.
Qed.

(** * Further properties *)

(** ** The clear-completed button *)

Lemma hasCompletedRequests_true l :
  hasCompletedRequests l = true <-> exists r, r ∈ l /\ status r = Completed.
Proof.
  unfold hasCompletedRequests. rewrite existsb_exists. split.
  - intros (r & Hin & Hr). exists r. split; [by apply list_elem_of_In|].
    by apply bool_decide_eq_true in Hr.
  - intros (r & Hin & Hr). exists r. split; [by apply list_elem_of_In|].
    by apply bool_decide_eq_true.
Qed.

Lemma hasCompletedRequests_false l :
  hasCompletedRequests l = false <-> forall r, r ∈ l -> status r <> Completed.
Proof.
  split.
  - intros H r Hin Hr.
    assert (hasCompletedRequests l = true) by (apply hasCompletedRequests_true; eauto).
    congruence.
  - intros H. destruct (hasCompletedRequests l) eqn:E; [|done].
    apply hasCompletedRequests_true in E as (r & Hin & Hr). by destruct (H r Hin).
Qed.

Lemma removeCompleted_nothing l :
  (forall r, r ∈ l -> status r <> Completed) -> removeCompleted l = l.
Proof.
  induction l as [|a l IH]; intros H; [done|]. simpl.
  rewrite bool_decide_eq_false_2 by (apply H; by left). simpl.
  f_equal. apply IH. intros r Hr. apply H. by right.
Qed.

(** X1: the clear-completed button is there exactly when some request is
    completed; once the completed requests are cleared it is gone, and
    clearing when none is completed, or a second time, changes nothing. *)
Theorem clear_button_follows_completed (l : list FuelingRequest) :
  (hasCompletedRequests l = true <-> exists r, r ∈ l /\ status r = Completed)
  /\ hasCompletedRequests (removeCompleted l) = false
  /\ (hasCompletedRequests l = false -> removeCompleted l = l)
  /\ removeCompleted (removeCompleted l) = removeCompleted l.
Proof.
  split; [apply hasCompletedRequests_true|].
  assert (Hclean : forall r, r ∈ removeCompleted l -> status r <> Completed).
  { intros r Hr. by apply removeCompleted_elem in Hr as [_ ?]. }
  split; [by apply hasCompletedRequests_false|].
  split; [|by apply removeCompleted_nothing].
  intros H. apply removeCompleted_nothing. by apply hasCompletedRequests_false.
Qed.

Lemma clear_button_follows_completed_witness :
  removeCompleted sample_requests = sample_requests.
Proof.
  destruct (clear_button_follows_completed sample_requests) as (_ & _ & H & _).
  apply H. reflexivity.
Defined.

(** ** Sequences of operator gestures *)

Lemma reaches_trans a b c : reaches a b -> reaches b c -> reaches a c.
Proof.
  unfold reaches. intros [->|Hab] [->|Hbc]; auto.
  right. destruct a, b, c; simpl in *; congruence.
Qed.

Lemma same_identity_refl a : same_identity a a.
Proof. by repeat split. Qed.

Lemma same_identity_trans a b c :
  same_identity a b -> same_identity b c -> same_identity a c.
Proof.
  unfold same_identity. intros (?&?&?&?&?&?) (?&?&?&?&?&?).
  repeat split; congruence.
Qed.

Lemma descends_refl l : descends l l.
Proof.
  split; [|split]; [|auto|auto].
  intros r Hr. exists r. split; [done|]. split; [apply same_identity_refl|].
  split; [done|by left].
Qed.

Lemma descends_trans l1 l2 l3 : descends l1 l2 -> descends l2 l3 -> descends l1 l3.
Proof.
  intros (H12 & Hc12 & Hd12) (H23 & Hc23 & Hd23). split; [|split].
  - intros r3 Hr3. destruct (H23 r3 Hr3) as (r2 & Hr2 & Hid2 & Hm2 & Hs2).
    destruct (H12 r2 Hr2) as (r1 & Hr1 & Hid1 & Hm1 & Hs1).
    exists r1. split; [done|]. split; [by eapply same_identity_trans|].
    split; [congruence|by eapply reaches_trans].
  - auto.
  - intros r Hr Hs. destruct (Hd12 r Hr Hs) as [Hin|Hgone]; [by apply Hd23|].
    right. intros r3 Hr3 Heq.
    destruct (H23 r3 Hr3) as (r2 & Hr2 & (Hid2 & _) & _).
    apply (Hgone r2 Hr2). congruence.
Qed.

(** A status change of a stored request along an edge. *)
Lemma descends_status_change (l : list FuelingRequest) r s :
  NoDup (map id l) -> r ∈ l -> edge (status r) s = true ->
  descends l (updateRequest (with_hasUnreadUpdates (with_status r s) true) l).
Proof.
  intros Hnd Hr Hedge.
  pose proof (updateRequest_pointwise l l r
                (with_hasUnreadUpdates (with_status r s) true) Hnd Hr
                (fun _ H => H) eq_refl) as Hpt.
  assert (Hnot : forall x, x ∈ l -> status x = Cancelled \/ status x = Completed ->
                 x ∈ updateRequest (with_hasUnreadUpdates (with_status r s) true) l).
  { intros x Hx Hterm. apply list_elem_of_lookup in Hx as [k Hk].
    destruct (Forall2_lookup_l _ _ _ _ _ Hpt Hk) as (y & Hy & [[-> ->]|[_ ->]]).
    - destruct Hterm as [Ht|Ht]; rewrite Ht in Hedge; discriminate.
    - by eapply list_elem_of_lookup_2. }
  split; [|split].
  - intros r' Hr'. apply list_elem_of_lookup in Hr' as [k Hk].
    destruct (Forall2_lookup_r _ _ _ _ _ Hpt Hk) as (x & Hx & [[-> ->]|[_ ->]]).
    + exists r. split; [done|]. split; [by repeat split|]. split; [done|by right].
    + exists x. split; [by eapply list_elem_of_lookup_2|].
      split; [apply same_identity_refl|]. split; [done|by left].
  - intros x Hx Hs. apply Hnot; auto.
  - intros x Hx Hs. left. apply Hnot; auto.
Qed.

Lemma descends_removeCompleted l :
  NoDup (map id l) -> descends l (removeCompleted l).
Proof.
  intros Hnd. split; [|split].
  - intros r Hr. apply removeCompleted_elem in Hr as [Hr _].
    exists r. split; [done|]. split; [apply same_identity_refl|].
    split; [done|by left].
  - intros r Hr Hs. apply removeCompleted_elem. split; [done|congruence].
  - intros r Hr Hs. right. intros r' Hr' Hid.
    apply removeCompleted_elem in Hr' as [Hr' Hs'].
    apply Hs'. by rewrite (unique_ids_inj l r' r Hnd Hr' Hr Hid).
Qed.

Lemma removeCompleted_ids_NoDup l :
  NoDup (map id l) -> NoDup (map id (removeCompleted l)).
Proof.
  induction l as [|a l IH]; [done|]. simpl. intros Hnd.
  apply NoDup_cons in Hnd as [Ha Hnd].
  destruct (negb _); simpl; [|by apply IH].
  apply NoDup_cons. split; [|by apply IH].
  intros Hin. apply Ha.
  apply list_elem_of_fmap in Hin as (x & Hx & Hin).
  apply removeCompleted_elem in Hin as [Hin _].
  apply list_elem_of_fmap. by exists x.
Qed.

Lemma operate_requests c r st :
  NoDup (map id (requests st)) -> r ∈ requests st ->
  requests (operate c r st) = requests st
  \/ exists s, edge (status r) s = true
               /\ requests (operate c r st)
                  = updateRequest (with_hasUnreadUpdates (with_status r s) true)
                      (requests st).
Proof.
  intros Hnd Hr. unfold operate.
  destruct (disabled c r) eqn:Hdis; [by left|].
  pose proof (enabled_edge c r Hdis) as Hedge.
  pose proof (find_by_id_unique _ _ Hnd Hr) as Hfind.
  destruct c; unfold onClick; rewrite Hdis; simpl.
  - right. eexists. split; [exact Hedge|].
    by rewrite (handleStatusChange_found _ _ _ _ Hfind).
  - right. eexists. split; [exact Hedge|].
    by rewrite (handleStatusChange_found _ _ _ _ Hfind).
  - unfold handleConfirmAction. simpl.
    destruct (truthy (id r)); simpl; [|by left].
    right. eexists. split; [exact Hedge|].
    by rewrite (handleStatusChange_found _ _ _ _ Hfind).
Qed.

Lemma perform_step g st :
  NoDup (map id (requests st)) ->
  NoDup (map id (requests (perform g st)))
  /\ (length (requests (perform g st)) <= length (requests st))%nat
  /\ descends (requests st) (requests (perform g st)).
Proof.
  intros Hnd.
  assert (Hsame : NoDup (map id (requests st))
                  /\ (length (requests st) <= length (requests st))%nat
                  /\ descends (requests st) (requests st)).
  { split; [done|]. split; [lia|apply descends_refl]. }
  destruct g as [c k|k| |]; cbn [perform].
  - destruct (requests st !! k) as [r|] eqn:Hk; [|done].
    pose proof (list_elem_of_lookup_2 _ _ _ Hk) as Hr.
    destruct (operate_requests c r st Hnd Hr) as [->|(s & Hedge & ->)]; [done|].
    split; [by rewrite updateRequest_ids|].
    split; [by rewrite updateRequest_length|].
    by apply descends_status_change.
  - destruct (requests st !! k) as [r|] eqn:Hk; [|done].
    destruct (disabled CancelButton r) eqn:Hdis; [done|].
    unfold onClick. by rewrite Hdis.
  - destruct (hasCompletedRequests (requests st)) eqn:Hc; [|done].
    unfold click_clearCompleted. rewrite Hc.
    unfold handleConfirmAction. simpl.
    split; [by apply removeCompleted_ids_NoDup|].
    split; [apply sublist_length, removeCompleted_sublist|].
    by apply descends_removeCompleted.
  - destruct (hasCompletedRequests (requests st)) eqn:Hc; [|done].
    unfold click_clearCompleted. by rewrite Hc.
Qed.

(** X2: through any sequence of operator gestures (controls of the cards,
    cancellations confirmed or declined, clearing the completed requests
    confirmed or declined), starting from unique ids: the ids stay unique
    and the collection never grows; every request still in the collection
    stems from a request of the start with the same id, requester, text
    fields and messages, and its status is the old one or an edge away; a
    cancelled request stays in the collection exactly as it was; a completed
    one stays exactly as it was or has been cleared. *)
Theorem operator_gestures_respect_status_machine
    (gs : list Gesture) (st : CompanyState) :
  NoDup (map id (requests st)) ->
  NoDup (map id (requests (perform_all gs st)))
  /\ (length (requests (perform_all gs st)) <= length (requests st))%nat
  /\ descends (requests st) (requests (perform_all gs st)).
Proof.
  revert st. induction gs as [|g gs IH]; intros st Hnd; simpl.
  - split; [done|]. split; [lia|apply descends_refl].
  - destruct (perform_step g st Hnd) as (Hnd1 & Hlen1 & Hd1).
    destruct (IH (perform g st) Hnd1) as (Hnd2 & Hlen2 & Hd2).
    split; [done|]. split; [lia|by eapply descends_trans].
Qed.

Lemma operator_gestures_respect_status_machine_witness :
  descends sample_requests
    (requests (perform_all
                 [Press CompleteButton 1; Press ConfirmButton 1; Press CancelButton 0;
                  ClearCompleted; CancelDeclined 0]
                 {| requests := sample_requests; modalState := modal_closed |})).
Proof.
  apply (operator_gestures_respect_status_machine
           [Press CompleteButton 1; Press ConfirmButton 1; Press CancelButton 0;
            ClearCompleted; CancelDeclined 0]
           {| requests := sample_requests; modalState := modal_closed |}).
  compute_done.
Defined.

(** ** Trimming and the required fields *)

Lemma trimStart_split s :
  exists pre, s = pre ++ trimStart s /\ Forall (fun c => is_white_space c = true) pre.
Proof.
  induction s as [|c s (pre & Hs & Hpre)]; [by exists []|]. simpl.
  destruct (is_white_space c) eqn:Hc.
  - exists (c :: pre). split; [by rewrite Hs at 1|by constructor].
  - by exists [].
Qed.

Lemma trimStart_head s c t : trimStart s = c :: t -> is_white_space c = false.
Proof.
  induction s as [|x s IH]; [done|]. simpl.
  destruct (is_white_space x) eqn:Hx; [done|]. by intros [= <- _].
Qed.

Lemma trimStart_nil s :
  trimStart s = [] <-> Forall (fun c => is_white_space c = true) s.
Proof.
  induction s as [|x s IH]; [done|]. simpl.
  destruct (is_white_space x) eqn:Hx.
  - rewrite IH. split; [by constructor|]. by intros [_ ?]%Forall_cons.
  - split; [done|]. intros [? _]%Forall_cons. congruence.
Qed.

Lemma trimStart_visible s : has_visible_unit s -> trimStart s <> [].
Proof.
  intros (c & Hin & Hc) Hnil. apply trimStart_nil in Hnil.
  rewrite Forall_forall in Hnil. specialize (Hnil c Hin). congruence.
Qed.

Lemma trim_nil s : trim s = [] <-> Forall (fun c => is_white_space c = true) s.
Proof.
  unfold trim, trimEnd. split.
  - intros H. apply (f_equal (@rev N)) in H. rewrite rev_involutive in H. simpl in H.
    apply trimStart_nil in H. apply Forall_rev in H. rewrite rev_involutive in H.
    destruct (trimStart s) as [|c t] eqn:E; [by apply trimStart_nil|].
    apply trimStart_head in E. apply Forall_cons in H as [? _]. congruence.
  - intros H. apply trimStart_nil in H. by rewrite H.
Qed.

Lemma blank_white_space s :
  blank s = true <-> Forall (fun c => is_white_space c = true) s.
Proof. rewrite blank_trim. apply trim_nil. Qed.

Lemma white_space_or_visible s :
  Forall (fun c => is_white_space c = true) s \/ has_visible_unit s.
Proof.
  induction s as [|c s [IH|(x & Hin & Hx)]]; [by left| |].
  - destruct (is_white_space c) eqn:Hc; [left; by constructor|].
    right. exists c. split; [by left|done].
  - right. exists x. split; [by right|done].
Qed.

Lemma blank_false_visible s : blank s = false <-> has_visible_unit s.
Proof.
  split.
  - intros Hb. destruct (white_space_or_visible s) as [Hall|Hvis]; [|done].
    apply blank_white_space in Hall. congruence.
  - intros (c & Hin & Hc). destruct (blank s) eqn:Hb; [|done].
    apply blank_white_space in Hb. rewrite Forall_forall in Hb.
    specialize (Hb c Hin). congruence.
Qed.

(** The trimmed text is a part of the text, between white space, and has
    none at either end. *)
Lemma trim_split s :
  exists pre post,
    s = pre ++ trim s ++ post
    /\ Forall (fun c => is_white_space c = true) pre
    /\ Forall (fun c => is_white_space c = true) post.
Proof.
  unfold trim, trimEnd.
  destruct (trimStart_split s) as (pre & Hs & Hpre).
  destruct (trimStart_split (rev (trimStart s))) as (post & Hr & Hpost).
  exists pre, (rev post). split; [|split; [done|by apply Forall_rev]].
  rewrite Hs at 1. f_equal.
  apply (f_equal (@rev N)) in Hr. rewrite rev_involutive, rev_app_distr in Hr.
  exact Hr.
Qed.

Lemma trim_ends s c :
  (head (trim s) = Some c \/ last (trim s) = Some c) -> is_white_space c = false.
Proof.
  unfold trim, trimEnd.
  destruct (trimStart (rev (trimStart s))) as [|x t] eqn:E; [by intros [|]|].
  pose proof (trimStart_head _ _ _ E) as Hx.
  intros [H|H].
  - destruct (trimStart_split (rev (trimStart s))) as (pre & Hr & _).
    rewrite E in Hr. apply (f_equal (@rev N)) in Hr.
    rewrite rev_involutive, rev_app_distr in Hr.
    destruct (rev (x :: t)) as [|z v]; [discriminate H|].
    simpl in H. injection H as ->. simpl in Hr. by apply trimStart_head in Hr.
  - simpl in H. rewrite last_snoc in H. congruence.
Qed.

Lemma some_blank_false data :
  some_blank data = false <-> forall name, blank (form_field name data) = false.
Proof.
  unfold some_blank. rewrite !orb_false_iff. split.
  - intros [[[? ?] ?] ?] []; done.
  - intros H. repeat split; [apply (H name_standNumber) | apply (H name_airline)
      | apply (H name_flightNumber) | apply (H name_representativeName)].
Qed.

(** X3: the form passes validation exactly when each of the four fields
    holds at least one code unit that is no white space; a field has no
    error exactly when it does, and the only error there is is the
    required-field message. *)
Theorem validateForm_accepts_visible_fields (data : FormData) :
  (snd (validateForm data) = true
   <-> forall name, has_visible_unit (form_field name data))
  /\ (forall name,
        field_error_of name (fst (validateForm data)) = None
        <-> has_visible_unit (form_field name data))
  /\ (forall name,
        field_error_of name (fst (validateForm data)) = None
        \/ field_error_of name (fst (validateForm data)) = Some required_message).
Proof.
  split; [|split].
  - rewrite validateForm_valid, negb_true_iff, some_blank_false.
    split; intros H name; apply blank_false_visible, H.
  - intros name. rewrite <- blank_false_visible.
    destruct name; simpl; unfold field_error;
      match goal with |- context [blank ?x] => destruct (blank x) end; done.
  - intros name.
    destruct name; simpl; unfold field_error;
      match goal with |- context [blank ?x] => destruct (blank x) end; auto.
Qed.

Lemma validateForm_accepts_visible_fields_witness :
  has_visible_unit (form_airline filled_form)
  /\ field_error_of name_airline (fst (validateForm blank_airline_form))
     = Some required_message.
Proof.
  destruct (validateForm_accepts_visible_fields filled_form) as ([Hall _] & _).
  destruct (validateForm_accepts_visible_fields blank_airline_form)
    as (_ & Hnone & Hor).
  split; [exact (Hall eq_refl name_airline)|].
  destruct (Hor name_airline) as [H|H]; [|exact H].
  apply Hnone in H. apply blank_false_visible in H. discriminate H.
Defined.

(** ** Typing into the form *)

Lemma form_field_with_field data name value g :
  form_field g (with_field data name value)
  = if bool_decide (g = name) then value else form_field g data.
Proof. by destruct name, g. Qed.

Lemma field_error_of_without_error e name g :
  field_error_of g (without_error e name)
  = if bool_decide (g = name) then None else field_error_of g e.
Proof. by destruct name, g. Qed.

Lemma type_all_frame entries st :
  client_requests (type_all entries st) = client_requests st
  /\ timers (type_all entries st) = timers st
  /\ isSubmitting (type_all entries st) = isSubmitting st.
Proof.
  revert st. induction entries as [|[name value] entries IH]; intros st; [done|].
  simpl. destruct (IH (handleInputChange name value st)) as (-> & -> & ->). done.
Qed.

(** X4: typing into an input stores the value in that field and leaves the
    other fields, the collection and the timeouts alone; it never raises an
    error, and it removes the error of the field typed into, and no other,
    once the value holds something besides white space.  So after the four
    fields have been given such values, whatever the form held and showed
    before, submitting is accepted: no error is left and the submission of
    exactly these values is scheduled. *)
Theorem typing_fills_the_form_and_clears_errors (st : ClientState) :
  (forall name value,
      let st' := handleInputChange name value st in
      client_requests st' = client_requests st
      /\ timers st' = timers st
      /\ (forall g, form_field g (formData st')
                    = if bool_decide (g = name) then value
                      else form_field g (formData st))
      /\ (forall g, field_error_of g (errors st')
                    = if bool_decide (g = name) && negb (blank value) then None
                      else field_error_of g (errors st)))
  /\ (forall v1 v2 v3 v4,
        has_visible_unit v1 -> has_visible_unit v2 ->
        has_visible_unit v3 -> has_visible_unit v4 ->
        let st' :=
          handleSubmit
            (type_all [(name_standNumber, v1); (name_airline, v2);
                       (name_flightNumber, v3); (name_representativeName, v4)] st) in
        errors st' = no_errors
        /\ client_requests st' = client_requests st
        /\ timers st'
           = timers st
             ++ [{| delay := 500;
                    callback :=
                      SubmitCallback
                        {| form_standNumber := v1; form_airline := v2;
                           form_flightNumber := v3;
                           form_representativeName := v4 |} |}]).
Proof.
  split.
  - intros name value st'. split; [done|]. split; [done|]. split.
    + intros g. apply form_field_with_field.
    + intros g. unfold st', handleInputChange, blank. simpl.
      destruct (truthy (trim value)); simpl.
      * rewrite field_error_of_without_error. by rewrite andb_true_r.
      * by rewrite andb_false_r.
  - intros v1 v2 v3 v4 H1 H2 H3 H4 st'.
    apply blank_false_visible in H1, H2, H3, H4.
    unfold st', handleSubmit, validateForm, error_count, field_error. simpl.
    rewrite H1, H2, H3, H4. simpl. done.
Qed.

Lemma typing_fills_the_form_and_clears_errors_witness :
  errors (handleSubmit
            (type_all [(name_standNumber, ascii_units "B7");
                       (name_airline, ascii_units " Test Air ");
                       (name_flightNumber, ascii_units "T1");
                       (name_representativeName, ascii_units "X")]
               (handleSubmit (client_state blank_airline_form))))
  = no_errors.
Proof.
  destruct (typing_fills_the_form_and_clears_errors
              (handleSubmit (client_state blank_airline_form))) as [_ H].
  apply (H (ascii_units "B7") (ascii_units " Test Air ") (ascii_units "T1")
           (ascii_units "X")).
  - exists 66. split; [by left|reflexivity].
  - exists 84. split; [right; by left|reflexivity].
  - exists 84. split; [by left|reflexivity].
  - exists 88. split; [by left|reflexivity].
Defined.

(** ** A submission from start to end *)

Section Lifecycle.

Variable uuid_source : nat -> jsstring.

(** X5: a submission of a form with no blank field, with no other timeout
    pending, runs like this: submitting marks the form as submitting; when
    the 500 ms timeout fires, the request built from the submitted values is
    at the front of the collection, the form is empty and no longer
    submitting, the success message shows and its 3 s timeout is pending;
    when that fires the message is hidden, no timeout is left and the
    collection is as it was; and submitting the emptied form again is
    refused with all four errors and adds nothing. *)
Theorem submission_runs_to_idle (cid : jsstring) (st : ClientState) (w : World) :
  some_blank (formData st) = false -> timers st = [] ->
  exists st1 st2,
    isSubmitting (handleSubmit st) = true
    /\ fire_timer uuid_source cid (handleSubmit st) w = (Return st1, uuid_drawn w)
    /\ client_requests st1
       = new_request uuid_source w cid (formData st) :: client_requests st
    /\ formData st1 = empty_form /\ isSubmitting st1 = false
    /\ showSuccess st1 = true
    /\ timers st1 = [{| delay := 3000; callback := HideSuccessCallback |}]
    /\ fire_timer uuid_source cid st1 (uuid_drawn w) = (Return st2, uuid_drawn w)
    /\ client_requests st2 = client_requests st1
    /\ formData st2 = empty_form /\ isSubmitting st2 = false
    /\ showSuccess st2 = false /\ timers st2 = []
    /\ client_requests (handleSubmit st2) = client_requests st2
    /\ timers (handleSubmit st2) = []
    /\ errors (handleSubmit st2)
       = {| error_standNumber := Some required_message;
            error_airline := Some required_message;
            error_flightNumber := Some required_message;
            error_representativeName := Some required_message |}.
Proof.
  intros Hb Ht. unfold handleSubmit at 1 2.
  pose proof (validateForm_valid (formData st)) as Hvalid.
  destruct (validateForm (formData st)) as [newErrors valid].
  simpl in Hvalid. subst valid. rewrite Hb. simpl. rewrite Ht. simpl.
  eexists _, _. repeat split.
Qed.

End Lifecycle.

Lemma submission_runs_to_idle_witness :
  exists st1 st2,
    fire_timer sample_uuid (ascii_units "client-abc")
      (handleSubmit (client_state filled_form)) empty_world
    = (Return st1, uuid_drawn empty_world)
    /\ fire_timer sample_uuid (ascii_units "client-abc") st1 (uuid_drawn empty_world)
       = (Return st2, uuid_drawn empty_world)
    /\ showSuccess st2 = false /\ timers st2 = []
    /\ client_requests st2
       = new_request sample_uuid empty_world (ascii_units "client-abc") filled_form
         :: sample_requests.
Proof.
  destruct (submission_runs_to_idle sample_uuid (ascii_units "client-abc")
              (client_state filled_form) empty_world)
    as (st1 & st2 & _ & H1 & Hreq & _ & _ & _ & _ & H2 & Hsame & _ & _ & Hs & Ht & _).
  - reflexivity.
  - reflexivity.
  - exists st1, st2. split; [exact H1|]. split; [exact H2|].
    split; [exact Hs|]. split; [exact Ht|]. by rewrite Hsame, Hreq.
Defined.

(** ** The chat form *)

Section Chat.

Variable uuid_source : nat -> jsstring.

(** X6: the chat form of the card of a stored request (ids unique), in
    either view.  A text that is empty or all white space sends nothing: no
    update and no id drawn.  Any other text appends one message to the
    request of the card and to no other; the message carries the text
    without the white space around it, so a text that is not empty and has
    no white space at either end. *)
Theorem chat_form_sends_trimmed_text
    (view : Sender) (requests0 : list FuelingRequest) (request : FuelingRequest)
    (newMessage : jsstring) (w : World) :
  NoDup (map id requests0) -> request ∈ requests0 ->
  let submit :=
    ChatInterface_handleSubmit
      (RequestCard_handleSendMessage (view_handleSendMessage uuid_source view requests0) request)
      newMessage in
  (blank newMessage = true -> submit w = (Return (fun prev => prev), w))
  /\ (blank newMessage = false ->
      exists u,
        submit w = (Return u, uuid_drawn w)
        /\ Forall2 (appended_to (id request)
                      (new_message uuid_source w view (trim newMessage)))
                   requests0 (u requests0)
        /\ trim newMessage <> []
        /\ (forall c, head (trim newMessage) = Some c
                      \/ last (trim newMessage) = Some c ->
                      is_white_space c = false)).
Proof.
  intros Hnd Hin submit. unfold submit, ChatInterface_handleSubmit, blank.
  split; intros Hb.
  - apply negb_true_iff in Hb. by rewrite Hb.
  - apply negb_false_iff in Hb. rewrite Hb.
    pose proof (find_by_id_unique _ _ Hnd Hin) as Hfind.
    destruct (append_message_found uuid_source
                {| from := view; to_request := id request; body := trim newMessage |}
                requests0 request w Hnd Hfind) as (requests' & Hrun & Hstep).
    unfold append_message, mbind, JS_bind in Hrun. simpl in Hrun.
    unfold RequestCard_handleSendMessage, view_handleSendMessage.
    destruct view;
      match type of Hrun with
      | context [match ?h with _ => _ end] =>
          destruct h as [[u|e] w'] eqn:Hh; [|discriminate Hrun]
      end;
      injection Hrun as <- <-; exists u; (split; [done|]);
      (split; [exact Hstep|]);
      (split; [by apply truthy_nonempty|apply trim_ends]).
Qed.

End Chat.

(** ** V8's short-array sort permutes, whatever the comparison *)

Section V8SortPermutes.

Context {A : Type} (comparefn : A -> A -> Z).

Lemma extend_run_le b previousElement rest :
  (extend_run comparefn b previousElement rest <= length rest)%nat.
Proof.
  revert previousElement. induction rest as [|x rest IH]; intros previousElement.
  - simpl. lia.
  - cbn [extend_run length]. specialize (IH x).
    destruct b; [destruct (_ >=? _)%Z|destruct (_ <? _)%Z]; lia.
Qed.

Lemma CountAndMakeRun_Permutation (l : list A) :
  snd (CountAndMakeRun comparefn l) ≡ₚ l.
Proof.
  unfold CountAndMakeRun. destruct l as [|x0 [|x1 rest]]; [done|done|].
  cbv zeta. cbn [snd]. destruct (_ <? _)%Z; [|done].
  set (n := (2 + _)%nat).
  rewrite <- (take_drop n (x0 :: x1 :: rest)) at 3.
  apply Permutation_app_tail. symmetry. apply Permutation_rev.
Qed.

Lemma insertion_point_bounds turns (workArray : list A) pivot left right :
  (left <= right)%nat ->
  (left <= insertion_point comparefn turns workArray pivot left right <= right)%nat.
Proof.
  revert left right. induction turns as [|turns IH]; intros left right Hle.
  - simpl. lia.
  - cbn [insertion_point]. destruct (left <? right)%nat eqn:Hlt; [|lia].
    apply Nat.ltb_lt in Hlt.
    assert (Hmid : (left + (right - left) / 2 < right)%nat).
    { pose proof (Nat.div_lt (right - left) 2). lia. }
    destruct (workArray !! _); [|lia].
    destruct (_ <? _)%Z.
    + specialize (IH left (left + (right - left) / 2)%nat). lia.
    + specialize (IH (left + (right - left) / 2 + 1)%nat right). lia.
Qed.

Lemma insertion_loop_Permutation count : forall start (workArray : list A),
  insertion_loop comparefn count start workArray ≡ₚ workArray.
Proof.
  induction count as [|count IH]; intros start workArray; [done|].
  cbn [insertion_loop].
  destruct (workArray !! start) as [pivot|] eqn:Hpivot; [|done].
  set (left := insertion_point comparefn start workArray pivot 0 start).
  assert (Hleft : (left <= start)%nat).
  { pose proof (insertion_point_bounds start workArray pivot 0 start). lia. }
  rewrite IH.
  rewrite <- (take_drop left workArray) at 4.
  apply Permutation_app_head.
  rewrite <- (take_drop (start - left) (drop left workArray)) at 2.
  rewrite drop_drop. replace (left + (start - left))%nat with start by lia.
  rewrite (drop_S _ _ _ Hpivot).
  simpl. apply Permutation_middle.
Qed.

Lemma V8_sort_Permutation (l : list A) : V8_sort comparefn l ≡ₚ l.
Proof.
  unfold V8_sort. destruct (length l <? 2)%nat; [done|].
  pose proof (CountAndMakeRun_Permutation l) as Hrun.
  destruct (CountAndMakeRun comparefn l) as [n workArray]. simpl in Hrun.
  destruct (n <? length l)%nat; [|done].
  unfold BinaryInsertionSort. by rewrite insertion_loop_Permutation.
Qed.

End V8SortPermutes.

(** ** What each view lists *)

Section Lists.

Variable Array_sort :
  (FuelingRequest -> FuelingRequest -> Z) -> list FuelingRequest -> list FuelingRequest.

Hypothesis Array_sort_permutes : forall c l, Array_sort c l ≡ₚ l.

Lemma clientRequests_elem requests0 cid r :
  r ∈ clientRequests Array_sort requests0 cid <-> r ∈ requests0 /\ clientId r = cid.
Proof.
  unfold clientRequests. rewrite (Array_sort_permutes _ _).
  rewrite !list_elem_of_In, filter_In. by rewrite str_eq_true.
Qed.

Lemma clientRequests_ids_NoDup requests0 cid :
  NoDup (map id requests0) -> NoDup (map id (clientRequests Array_sort requests0 cid)).
Proof.
  intros Hnd. unfold clientRequests.
  change (map id ?x) with (id <$> x). rewrite (Array_sort_permutes _ _).
  induction requests0 as [|a l IH]; [constructor|]. simpl in *.
  apply NoDup_cons in Hnd as [Ha Hnd].
  destruct (str_eq (clientId a) cid); [|by apply IH].
  change (NoDup (id a :: (id <$> List.filter (fun r => str_eq (clientId r) cid) l))).
  apply NoDup_cons. split; [|by apply IH].
  intros Hin. apply Ha. apply list_elem_of_fmap in Hin as (x & Hx & Hin).
  apply list_elem_of_In, filter_In in Hin as [Hin _].
  apply list_elem_of_fmap. exists x. split; [done|by apply list_elem_of_In].
Qed.

(** X7: with an engine whose sort permutes the array, the requester's cards
    show exactly the stored requests whose [clientId] is this requester's,
    each as often as it is stored, and the operator's cards show the whole
    collection in store order; in the requester view a card has the
    notification dot exactly when its request has unread updates, in the
    operator view never. *)
Theorem views_list_own_and_all
    (requests0 : list FuelingRequest) (cid : jsstring) (open : option jsstring) :
  map card_request (ClientView_cards Array_sort requests0 cid open)
    ≡ₚ List.filter (own cid) requests0
  /\ (forall r, r ∈ map card_request (ClientView_cards Array_sort requests0 cid open)
                <-> r ∈ requests0 /\ clientId r = cid)
  /\ map card_request (CompanyView_cards requests0 open) = requests0
  /\ Forall (fun card => notification_dot card = hasUnreadUpdates (card_request card))
            (ClientView_cards Array_sort requests0 cid open)
  /\ Forall (fun card => notification_dot card = false)
            (CompanyView_cards requests0 open).
Proof.
  assert (Hcards : map card_request (ClientView_cards Array_sort requests0 cid open)
                   = clientRequests Array_sort requests0 cid).
  { unfold ClientView_cards. rewrite map_map. simpl. apply map_id. }
  rewrite Hcards. split; [apply Array_sort_permutes|].
  split; [intros r; apply clientRequests_elem|].
  split; [apply CompanyView_cards_all|]. split.
  - unfold ClientView_cards. apply Forall_forall. intros card Hin.
    apply list_elem_of_In, in_map_iff in Hin as (r & <- & _). reflexivity.
  - unfold CompanyView_cards. apply Forall_forall. intros card Hin.
    apply list_elem_of_In, in_map_iff in Hin as (r & <- & _). reflexivity.
Qed.

Lemma with_hasUnreadUpdates_same r :
  with_hasUnreadUpdates r (hasUnreadUpdates r) = r.
Proof. by destruct r. Qed.

(** X8: opening or closing a chat in the requester view, with ids unique and
    a sort that permutes.  The open chat becomes the one asked for, or none
    when that one was open.  If the id is that of one of the requester's own
    requests, this request has no unread updates afterwards and nothing
    else has changed; if it is the id of somebody else's request or of none,
    the collection is untouched. *)
Theorem toggling_chat_acknowledges_updates
    (requests0 : list FuelingRequest) (cid : jsstring)
    (prevId : option jsstring) (i : jsstring) :
  NoDup (map id requests0) ->
  fst (Client_handleToggleChat Array_sort requests0 cid prevId i)
  = (if bool_decide (prevId = Some i) then None else Some i)
  /\ (forall r, r ∈ requests0 -> id r = i -> clientId r = cid ->
        Forall2 (fun a b =>
                   b = if str_eq (id a) i then with_hasUnreadUpdates a false else a)
                requests0
                (snd (Client_handleToggleChat Array_sort requests0 cid prevId i)
                   requests0))
  /\ ((forall r, r ∈ requests0 -> id r = i -> clientId r <> cid) ->
      snd (Client_handleToggleChat Array_sort requests0 cid prevId i) requests0
      = requests0).
Proof.
  intros Hnd. split; [reflexivity|]. unfold Client_handleToggleChat. cbn [snd].
  split.
  - intros r Hr Hid Hcid.
    assert (Hfind : find_by_id i (clientRequests Array_sort requests0 cid) = Some r).
    { subst i. apply find_by_id_unique; [by apply clientRequests_ids_NoDup|].
      by apply clientRequests_elem. }
    rewrite Hfind. destruct (hasUnreadUpdates r) eqn:Hflag.
    + pose proof (updateRequest_pointwise requests0 requests0 r
                    (with_hasUnreadUpdates r false) Hnd Hr (fun _ H => H) eq_refl)
        as Hpt.
      eapply Forall2_impl; [exact Hpt|].
      intros a b [[-> ->]|[Hne ->]].
      * by rewrite Hid, str_eq_refl.
      * by rewrite (proj2 (str_eq_false _ _)) by congruence.
    + apply Forall_Forall2_diag, Forall_forall. intros a Ha.
      destruct (str_eq (id a) i) eqn:E; [|done].
      apply str_eq_true in E.
      assert (a = r) as -> by (apply (unique_ids_inj requests0); auto; congruence).
      by rewrite <- Hflag, with_hasUnreadUpdates_same.
  - intros Hnone.
    destruct (find_by_id i (clientRequests Array_sort requests0 cid)) as [r|] eqn:Hfind;
      [|done].
    apply find_by_id_Some in Hfind as [Hin Hid].
    apply clientRequests_elem in Hin as [Hin Hcid].
    destruct (Hnone r Hin Hid Hcid).
Qed.

End Lists.

Lemma views_list_own_and_all_witness :
  map card_request
    (ClientView_cards (@V8_sort FuelingRequest) sample_requests
       (ascii_units "client-abc") None)
  ≡ₚ List.filter (own (ascii_units "client-abc")) sample_requests.
Proof.
  apply (views_list_own_and_all (@V8_sort FuelingRequest)
           (@V8_sort_Permutation FuelingRequest)).
Defined.

Lemma toggling_chat_acknowledges_updates_witness :
  snd (Client_handleToggleChat (@V8_sort FuelingRequest) sample_requests
         (ascii_units "client-abc") None (id (seed_request_2 sample_time)))
    sample_requests
  = sample_requests.
Proof.
  destruct (toggling_chat_acknowledges_updates (@V8_sort FuelingRequest)
              (@V8_sort_Permutation FuelingRequest) sample_requests
              (ascii_units "client-abc") None (id (seed_request_2 sample_time)))
    as (_ & _ & Hother).
  - compute_done.
  - apply Hother. intros r Hr Hid.
    apply elem_of_cons in Hr as [->|Hr]; [discriminate Hid|].
    apply list_elem_of_singleton in Hr as ->. discriminate.
Defined.

(** X9: on V8, for a list short enough for the model of its sort, the
    requester's list is the requester's pending requests followed by the
    other ones; the other ones are in store order, the pending ones in
    reverse store order. *)
Theorem requester_list_on_V8_has_pending_first
    (requests0 : list FuelingRequest) (cid : jsstring) :
  exists pending others,
    clientRequests (@V8_sort FuelingRequest) requests0 cid = pending ++ others
    /\ Forall (fun r => status r = Pending) pending
    /\ Forall (fun r => status r <> Pending) others
    /\ rev pending = List.filter is_pending (List.filter (own cid) requests0)
    /\ others
       = List.filter (fun r => negb (is_pending r)) (List.filter (own cid) requests0).
Proof.
  eexists _, _. split; [apply clientRequests_V8|].
  split; [|split; [|split; [apply rev_involutive|reflexivity]]].
  - apply Forall_forall. intros r Hr.
    apply list_elem_of_In, in_rev, filter_In in Hr as [_ Hr].
    by apply bool_decide_eq_true in Hr.
  - apply Forall_forall. intros r Hr.
    apply list_elem_of_In, filter_In in Hr as [_ Hr].
    apply negb_true_iff in Hr. by apply bool_decide_eq_false in Hr.
Qed.

(** ** A new request *)

Section NewRequest.

Variable uuid_source : nat -> jsstring.

Variable Array_sort :
  (FuelingRequest -> FuelingRequest -> Z) -> list FuelingRequest -> list FuelingRequest.

Hypothesis Array_sort_permutes : forall c l, Array_sort c l ≡ₚ l.

(** X10: [addRequest] draws one id and puts the new request in front of the
    collection, leaving the requests that were there as they were and where
    they were.  The new request is the first card of the operator, it is in
    the list of the requester who submitted it and in the list of no other
    requester, and the ids of the collection are still unique when the id
    drawn was not in use. *)
Theorem added_request_is_listed
    (cid : jsstring) (data : FormData) (prev : list FuelingRequest)
    (open : option jsstring) (w : World) :
  exists u,
    addRequest uuid_source cid data w = (Return u, uuid_drawn w)
    /\ u prev = new_request uuid_source w cid data :: prev
    /\ head (map card_request (CompanyView_cards (u prev) open))
       = Some (new_request uuid_source w cid data)
    /\ new_request uuid_source w cid data ∈ clientRequests Array_sort (u prev) cid
    /\ (forall other, other <> cid ->
          new_request uuid_source w cid data ∉ clientRequests Array_sort (u prev) other)
    /\ (NoDup (map id prev) -> uuid_source (uuid_calls w) ∉ map id prev ->
        NoDup (map id (u prev))).
Proof.
  eexists. split; [reflexivity|]. split; [reflexivity|].
  split; [by rewrite CompanyView_cards_all|].
  split; [|split].
  - apply clientRequests_elem; [done|]. split; [by left|done].
  - intros other Hne Hin. apply clientRequests_elem in Hin as [_ Hin]; [|done].
    simpl in Hin. congruence.
  - intros Hnd Hfresh. simpl. by apply NoDup_cons.
Qed.

End NewRequest.

Lemma added_request_is_listed_witness :
  new_request sample_uuid empty_world (ascii_units "client-abc") filled_form
  ∈ clientRequests (@V8_sort FuelingRequest)
      (new_request sample_uuid empty_world (ascii_units "client-abc") filled_form
       :: sample_requests)
      (ascii_units "client-abc").
Proof.
  destruct (added_request_is_listed sample_uuid (@V8_sort FuelingRequest)
              (@V8_sort_Permutation FuelingRequest) (ascii_units "client-abc")
              filled_form sample_requests None empty_world)
    as (u & Hrun & Hu & _ & Hin & _).
  by rewrite Hu in Hin.
Defined.

(** ** What messages and chats leave alone *)

Section Frames.

Variable uuid_source : nat -> jsstring.

Variable Array_sort :
  (FuelingRequest -> FuelingRequest -> Z) -> list FuelingRequest -> list FuelingRequest.

Hypothesis Array_sort_permutes : forall c l, Array_sort c l ≡ₚ l.

Lemma updateRequest_keeps_core (l : list FuelingRequest) r u :
  NoDup (map id l) -> r ∈ l -> same_identity r u -> status u = status r ->
  Forall2 (fun a b => same_identity a b /\ status b = status a) l (updateRequest u l).
Proof.
  intros Hnd Hr Hid Hs.
  pose proof (updateRequest_pointwise l l r u Hnd Hr (fun _ H => H) (proj1 Hid)) as Hpt.
  eapply Forall2_impl; [exact Hpt|].
  intros a b [[-> ->]|[_ ->]]; [done|]. split; [apply same_identity_refl|done].
Qed.

(** X11: with ids unique, a message sent from either view and a chat opened
    or closed by the requester change no request's id, requester, text
    fields or status, and neither add nor remove a request: position by
    position the collection holds the same requests in these respects. *)
Theorem messages_and_chats_keep_the_requests
    (requests0 : list FuelingRequest) (i : jsstring) (w : World) :
  NoDup (map id requests0) ->
  (forall view text0, exists u w',
      view_handleSendMessage uuid_source view requests0 i text0 w = (Return u, w')
      /\ Forall2 (fun a b => same_identity a b /\ status b = status a)
                 requests0 (u requests0))
  /\ (forall cid prevId,
        Forall2 (fun a b => same_identity a b /\ status b = status a /\
                            messages b = messages a)
                requests0
                (snd (Client_handleToggleChat Array_sort requests0 cid prevId i)
                   requests0)).
Proof.
  intros Hnd.
  assert (Hsame : forall P : FuelingRequest -> FuelingRequest -> Prop,
             (forall a, P a a) -> Forall2 P requests0 requests0).
  { intros P HP. apply Forall_Forall2_diag, Forall_forall. auto. }
  split.
  - intros view text0.
    destruct (find_by_id i requests0) as [r|] eqn:Hfind.
    + pose proof (find_by_id_Some _ _ _ Hfind) as [Hr _].
      destruct view; simpl.
      * rewrite (Client_handleSendMessage_found _ _ _ _ r) by done.
        eexists _, _. split; [done|].
        by apply (updateRequest_keeps_core _ r).
      * rewrite (Company_handleSendMessage_found _ _ _ _ r) by done.
        eexists _, _. split; [done|].
        by apply (updateRequest_keeps_core _ r).
    + destruct view; simpl.
      * rewrite Client_handleSendMessage_unknown by done.
        eexists _, _. split; [done|]. apply Hsame.
        intros a. split; [apply same_identity_refl|done].
      * rewrite Company_handleSendMessage_unknown by done.
        eexists _, _. split; [done|]. apply Hsame.
        intros a. split; [apply same_identity_refl|done].
  - intros cid prevId. unfold Client_handleToggleChat. cbn [snd].
    destruct (find_by_id i (clientRequests Array_sort requests0 cid)) as [r|] eqn:Hfind.
    2: { apply Hsame. intros a. split; [apply same_identity_refl|done]. }
    apply find_by_id_Some in Hfind as [Hin _].
    apply clientRequests_elem in Hin as [Hin _]; [|done].
    destruct (hasUnreadUpdates r).
    2: { apply Hsame. intros a. split; [apply same_identity_refl|done]. }
    pose proof (updateRequest_pointwise requests0 requests0 r
                  (with_hasUnreadUpdates r false) Hnd Hin (fun _ H => H) eq_refl)
      as Hpt.
    eapply Forall2_impl; [exact Hpt|].
    intros a b [[-> ->]|[_ ->]]; (split; [by repeat split|done]).
Qed.

End Frames.

Lemma messages_and_chats_keep_the_requests_witness :
  exists u w',
    view_handleSendMessage sample_uuid Company sample_requests (id seed_request_1)
      (ascii_units "on our way") empty_world
    = (Return u, w')
    /\ Forall2 (fun a b => same_identity a b /\ status b = status a)
               sample_requests (u sample_requests).
Proof.
  destruct (messages_and_chats_keep_the_requests sample_uuid
              (@V8_sort FuelingRequest) (@V8_sort_Permutation FuelingRequest)
              sample_requests (id seed_request_1) empty_world) as [Hsend _].
  - compute_done.
  - exact (Hsend Company (ascii_units "on our way")).
Defined.

Lemma chat_form_sends_trimmed_text_witness :
  exists u,
    ChatInterface_handleSubmit
      (RequestCard_handleSendMessage
         (view_handleSendMessage sample_uuid Client sample_requests) seed_request_1)
      (ascii_units "  hello ") empty_world
    = (Return u, uuid_drawn empty_world)
    /\ Forall2 (appended_to (id seed_request_1)
                  (new_message sample_uuid empty_world Client
                     (trim (ascii_units "  hello "))))
               sample_requests (u sample_requests).
Proof.
  destruct (chat_form_sends_trimmed_text sample_uuid Client sample_requests
              seed_request_1 (ascii_units "  hello ") empty_world)
    as [_ Hsend].
  - compute_done.
  - by left.
  - destruct Hsend as (u & Hrun & Hstep & _); [reflexivity|].
    exists u. by split.
Defined.

(** ** The two items of the store *)

Lemma App_initialState_of_item loaded w w' :
  items (localStorage w') !! key_fuelingRequests
  = items (localStorage w) !! key_fuelingRequests ->
  fst (App_initialState loaded w') = fst (App_initialState loaded w).
Proof.
  intros H. unfold App_initialState, mbind, JS_bind, getItem. cbv beta. rewrite H.
  destruct (items (localStorage w) !! key_fuelingRequests) as [s|]; [|done].
  destruct (truthy s); [|done]. by destruct (JSON_parse s).
Qed.

Lemma getClientId_keeps_requests uuid_source w c w' :
  getClientId uuid_source w = (Return c, w') ->
  items (localStorage w') !! key_fuelingRequests
  = items (localStorage w) !! key_fuelingRequests.
Proof.
  intros Hrun.
  assert (Hgen : (items (localStorage w) !! key_fuelingServiceClientId = None
                  \/ items (localStorage w) !! key_fuelingServiceClientId = Some []) ->
                 items (localStorage w') !! key_fuelingRequests
                 = items (localStorage w) !! key_fuelingRequests).
  { intros Hor. rewrite (getClientId_generates _ _ Hor) in Hrun.
    unfold setItem in Hrun. destruct (_ <=? _); [|discriminate].
    injection Hrun as <- <-. simpl. by rewrite lookup_insert_ne. }
  destruct (items (localStorage w) !! key_fuelingServiceClientId) as [[|x s]|] eqn:Hc;
    [by apply Hgen; right | | by apply Hgen; left].
  rewrite (getClientId_stored _ (x :: s) w Hc) in Hrun by done.
  by injection Hrun as <- <-.
Qed.

(** X12: the requester id and the request collection do not disturb each
    other in the store.  A call of [getClientId] that returns leaves the
    item of the collection as it was, so a start-up after it loads what a
    start-up before it would have loaded.  A write of the collection that
    succeeds stores its serialization, draws no id and leaves the item of
    the requester id as it was, so a stored requester id is returned
    unchanged afterwards. *)
Theorem requester_id_and_collection_are_stored_apart
    (uuid_source : nat -> jsstring) (w : World) :
  (forall c w', getClientId uuid_source w = (Return c, w') ->
     items (localStorage w') !! key_fuelingRequests
     = items (localStorage w) !! key_fuelingRequests
     /\ forall loaded,
          fst (App_initialState loaded w') = fst (App_initialState loaded w))
  /\ (forall requests0 w', persist requests0 w = (Return tt, w') ->
        items (localStorage w') !! key_fuelingRequests
        = Some (JSON_stringify requests0)
        /\ items (localStorage w') !! key_fuelingServiceClientId
           = items (localStorage w) !! key_fuelingServiceClientId
        /\ uuid_calls w' = uuid_calls w
        /\ (forall c, items (localStorage w) !! key_fuelingServiceClientId = Some c ->
              c <> [] -> getClientId uuid_source w' = (Return c, w'))).
Proof.
  split.
  - intros c w' Hrun.
    pose proof (getClientId_keeps_requests _ _ _ _ Hrun) as Hkeep.
    split; [done|]. intros loaded. by apply App_initialState_of_item.
  - intros requests0 w' Hrun. unfold persist, setItem in Hrun.
    destruct (_ <=? _); [|discriminate]. injection Hrun as <-. simpl.
    split; [apply lookup_insert_eq|].
    assert (Hid : <[key_fuelingRequests:=JSON_stringify requests0]>
                    (items (localStorage w)) !! key_fuelingServiceClientId
                  = items (localStorage w) !! key_fuelingServiceClientId)
      by by rewrite lookup_insert_ne.
    split; [done|]. split; [done|].
    intros c Hc Hne. apply getClientId_stored; [|done]. simpl. by rewrite Hid.
Qed.

Lemma requester_id_and_collection_are_stored_apart_witness :
  fst (App_initialState sample_time
         (stored key_fuelingServiceClientId (sample_uuid 0) (uuid_drawn empty_world)))
  = fst (App_initialState sample_time empty_world).
Proof.
  destruct (requester_id_and_collection_are_stored_apart sample_uuid empty_world)
    as [Hid _].
  destruct (Hid (sample_uuid 0)
              (stored key_fuelingServiceClientId (sample_uuid 0)
                 (uuid_drawn empty_world))) as [_ Hload].
  - vm_compute. reflexivity.
  - apply Hload.
Defined.

(** ** What is saved can be loaded *)

(** *** Lexing what [JSON.stringify] writes *)

Lemma lex_run_app st s1 s2 :
  lex_run st (s1 ++ s2)
  = match lex_run st s1 with
    | Some (st1, t1) =>
        match lex_run st1 s2 with
        | Some (st2, t2) => Some (st2, t1 ++ t2)
        | None => None
        end
    | None => None
    end.
Proof.
  revert st. induction s1 as [|c s1 IH]; intros st; simpl.
  - by destruct (lex_run st s2) as [[? ?]|].
  - destruct (lex_step st c) as [[st' toks]|]; [|done]. rewrite IH.
    destruct (lex_run st' s1) as [[st1 t1]|]; [|done].
    destruct (lex_run st1 s2) as [[st2 t2]|]; [|done].
    by rewrite app_assoc.
Qed.

Lemma lex_of_lex_run st s :
  lex st s
  = match lex_run st s with
    | Some (st', toks) =>
        match lex_end st' with
        | Some last_tokens => Some (toks ++ last_tokens)
        | None => None
        end
    | None => None
    end.
Proof.
  revert st. induction s as [|c s IH]; intros st; simpl.
  - by destruct (lex_end st).
  - destruct (lex_step st c) as [[st' toks]|]; [|done]. rewrite IH.
    destruct (lex_run st' s) as [[st1 t1]|]; [|done].
    destruct (lex_end st1); [|done]. by rewrite app_assoc.
Qed.

Lemma lex_run_silent st c st' s :
  lex_step st c = Some (st', []) -> lex_run st (c :: s) = lex_run st' s.
Proof. intros H. simpl. rewrite H. by destruct (lex_run st' s) as [[? ?]|]. Qed.

Lemma hex_value_hex_digit d : d < 16 -> hex_value (hex_digit d) = Some d.
Proof.
  intros Hd.
  assert (Hcases : d = 0 \/ d = 1 \/ d = 2 \/ d = 3 \/ d = 4 \/ d = 5 \/ d = 6
                   \/ d = 7 \/ d = 8 \/ d = 9 \/ d = 10 \/ d = 11 \/ d = 12
                   \/ d = 13 \/ d = 14 \/ d = 15) by lia.
  repeat (destruct Hcases as [->|Hcases]; [reflexivity|]). by subst.
Qed.

Lemma unicode_escape_value c :
  c < 65536 ->
  (((0 * 16 + c / 4096 mod 16) * 16 + c / 256 mod 16) * 16 + c / 16 mod 16) * 16
  + c mod 16 = c.
Proof. intros Hc. zify. Z.to_euclidean_division_equations. lia. Qed.

Lemma lex_run_unicode_escape acc c rest :
  c < 65536 ->
  lex_run (LString acc) (unicode_escape c ++ rest) = lex_run (LString (c :: acc)) rest.
Proof.
  intros Hc. unfold unicode_escape. cbn [app].
  rewrite (lex_run_silent _ 92 (LEscape acc)) by reflexivity.
  rewrite (lex_run_silent _ 117 (LUnicode acc 4 0)) by reflexivity.
  assert (Hmod : forall x, x mod 16 < 16) by (intros x; apply N.mod_lt; lia).
  erewrite lex_run_silent
    by (cbn [lex_step]; rewrite hex_value_hex_digit by apply Hmod; reflexivity).
  erewrite lex_run_silent
    by (cbn [lex_step]; rewrite hex_value_hex_digit by apply Hmod; reflexivity).
  erewrite lex_run_silent
    by (cbn [lex_step]; rewrite hex_value_hex_digit by apply Hmod; reflexivity).
  erewrite lex_run_silent
    by (cbn [lex_step]; rewrite hex_value_hex_digit by apply Hmod; reflexivity).
  by rewrite unicode_escape_value.
Qed.

Lemma lex_run_verbatim acc c rest :
  c <> 34 -> c <> 92 -> 32 <= c ->
  lex_run (LString acc) (c :: rest) = lex_run (LString (c :: acc)) rest.
Proof.
  intros H34 H92 H32. apply lex_run_silent. cbn [lex_step].
  rewrite (proj2 (N.eqb_neq c 34)), (proj2 (N.eqb_neq c 92)) by done.
  by rewrite (proj2 (N.ltb_ge c 32)).
Qed.

(** A string as [JSON.stringify] quotes it is read back as it was. *)
Lemma lex_run_quote_units n : forall s acc,
  (length s <= n)%nat ->
  lex_run (LString acc) (quote_units s ++ [34])
  = Some (LIdle, [TString (rev acc ++ s)]).
Proof.
  induction n as [|n IH]; intros s acc Hlen.
  { destruct s; [|simpl in Hlen; lia]. simpl. by rewrite app_nil_r. }
  destruct s as [|c s]; [simpl; by rewrite app_nil_r|].
  simpl in Hlen.
  assert (Hnext : forall acc', lex_run (LString acc') (quote_units s ++ [34])
                               = Some (LIdle, [TString (rev acc' ++ s)]))
    by (intros acc'; apply IH; lia).
  assert (Hcons : rev (c :: acc) ++ s = rev acc ++ c :: s)
    by (simpl; by rewrite <- app_assoc).
  cbn [quote_units].
  destruct (c =? 8) eqn:E8.
  { apply N.eqb_eq in E8 as ->. cbn [app].
    rewrite (lex_run_silent _ 92 (LEscape acc)) by reflexivity.
    rewrite (lex_run_silent _ 98 (LString (8 :: acc))) by reflexivity.
    by rewrite Hnext, Hcons. }
  destruct (c =? 9) eqn:E9.
  { apply N.eqb_eq in E9 as ->. cbn [app].
    rewrite (lex_run_silent _ 92 (LEscape acc)) by reflexivity.
    rewrite (lex_run_silent _ 116 (LString (9 :: acc))) by reflexivity.
    by rewrite Hnext, Hcons. }
  destruct (c =? 10) eqn:E10.
  { apply N.eqb_eq in E10 as ->. cbn [app].
    rewrite (lex_run_silent _ 92 (LEscape acc)) by reflexivity.
    rewrite (lex_run_silent _ 110 (LString (10 :: acc))) by reflexivity.
    by rewrite Hnext, Hcons. }
  destruct (c =? 12) eqn:E12.
  { apply N.eqb_eq in E12 as ->. cbn [app].
    rewrite (lex_run_silent _ 92 (LEscape acc)) by reflexivity.
    rewrite (lex_run_silent _ 102 (LString (12 :: acc))) by reflexivity.
    by rewrite Hnext, Hcons. }
  destruct (c =? 13) eqn:E13.
  { apply N.eqb_eq in E13 as ->. cbn [app].
    rewrite (lex_run_silent _ 92 (LEscape acc)) by reflexivity.
    rewrite (lex_run_silent _ 114 (LString (13 :: acc))) by reflexivity.
    by rewrite Hnext, Hcons. }
  destruct (c =? 34) eqn:E34.
  { apply N.eqb_eq in E34 as ->. cbn [app].
    rewrite (lex_run_silent _ 92 (LEscape acc)) by reflexivity.
    rewrite (lex_run_silent _ 34 (LString (34 :: acc))) by reflexivity.
    by rewrite Hnext, Hcons. }
  destruct (c =? 92) eqn:E92.
  { apply N.eqb_eq in E92 as ->. cbn [app].
    rewrite (lex_run_silent _ 92 (LEscape acc)) by reflexivity.
    rewrite (lex_run_silent _ 92 (LString (92 :: acc))) by reflexivity.
    by rewrite Hnext, Hcons. }
  apply N.eqb_neq in E34, E92.
  destruct (c <? 32) eqn:E32.
  { apply N.ltb_lt in E32. rewrite <- app_assoc.
    rewrite lex_run_unicode_escape by lia. by rewrite Hnext, Hcons. }
  apply N.ltb_ge in E32.
  unfold is_high_surrogate, is_low_surrogate.
  destruct ((55296 <=? c) && (c <=? 56319)) eqn:Ehigh.
  { apply andb_true_iff in Ehigh as [Hlo Hhi].
    apply N.leb_le in Hlo, Hhi.
    destruct s as [|d s'].
    - rewrite lex_run_unicode_escape by lia. reflexivity.
    - destruct ((56320 <=? d) && (d <=? 57343)) eqn:Elow.
      + apply andb_true_iff in Elow as [Hlo' Hhi'].
        apply N.leb_le in Hlo', Hhi'. cbn [app].
        rewrite lex_run_verbatim by lia. rewrite lex_run_verbatim by lia.
        simpl in Hlen. rewrite IH by lia. simpl. by rewrite <- !app_assoc.
      + rewrite <- app_assoc. rewrite lex_run_unicode_escape by lia.
        by rewrite Hnext, Hcons. }
  destruct ((56320 <=? c) && (c <=? 57343)) eqn:Elow.
  { apply andb_true_iff in Elow as [Hlo Hhi]. apply N.leb_le in Hlo, Hhi.
    rewrite <- app_assoc. rewrite lex_run_unicode_escape by lia.
    by rewrite Hnext, Hcons. }
  cbn [app]. rewrite lex_run_verbatim by done. by rewrite Hnext, Hcons.
Qed.

Lemma lex_run_quote s : lex_run LIdle (quote s) = Some (LIdle, [TString s]).
Proof.
  unfold quote. cbn [app].
  rewrite (lex_run_silent _ 34 (LString [])) by reflexivity.
  apply (lex_run_quote_units (length s)). lia.
Qed.

Lemma lex_run_token t :
  (forall literal, t <> TNumber literal) ->
  lex_run LIdle (token_text t) = Some (LIdle, [t]).
Proof.
  intros Hnum. destruct t; try reflexivity.
  - apply lex_run_quote.
  - by destruct (Hnum literal).
Qed.

Lemma lex_run_tokens ts :
  Forall (fun t => forall literal, t <> TNumber literal) ts ->
  lex_run LIdle (tokens_text ts) = Some (LIdle, ts).
Proof.
  induction 1 as [|t ts Ht _ IH]; [done|].
  unfold tokens_text in *. cbn [flat_map].
  by rewrite lex_run_app, (lex_run_token t Ht), IH.
Qed.

(** Induction on values through the lists they nest in. *)
Lemma JSValue_nested_ind (P : JSValue -> Prop) :
  P VNull -> (forall b, P (VBool b)) -> (forall literal, P (VNum literal)) ->
  (forall s, P (VStr s)) ->
  (forall l, Forall P l -> P (VArr l)) ->
  (forall ms, Forall (fun kv => P (snd kv)) ms -> P (VObj ms)) ->
  (forall v, P v -> P (VDate v)) ->
  forall v, P v.
Proof.
  intros Hnull Hbool Hnum Hstr Harr Hobj Hdate.
  fix IH 1. intros [ |b|literal|s|l|ms|v].
  - exact Hnull.
  - apply Hbool.
  - apply Hnum.
  - apply Hstr.
  - apply Harr.
    exact ((fix go (l : list JSValue) : Forall P l :=
              match l with
              | [] => @List.Forall_nil _ P
              | x :: l' => @List.Forall_cons _ P x l' (IH x) (go l')
              end) l).
  - apply Hobj.
    exact ((fix go (ms : list (list N * JSValue))
              : Forall (fun kv => P (snd kv)) ms :=
              match ms with
              | [] => @List.Forall_nil _ _
              | kv :: ms' => @List.Forall_cons _ _ kv ms' (IH (snd kv)) (go ms')
              end) ms).
  - apply Hdate, IH.
Qed.

Lemma Forall_separated (Q : Token -> Prop) (parts : list (list Token)) :
  Q TComma -> Forall (Forall Q) parts -> Forall Q (separated parts).
Proof.
  intros Hcomma. induction 1 as [|p ps Hp Hps IH]; [constructor|].
  destruct ps as [|p' ps]; [done|]. cbn [separated].
  apply Forall_app. split; [done|]. apply Forall_app. split; [by repeat constructor|done].
Qed.

Lemma tokens_of_number_free v :
  number_free v = true ->
  Forall (fun t => forall literal, t <> TNumber literal) (tokens_of v).
Proof.
  induction v as [ |b|literal|s|l IH|ms IH|v IH] using JSValue_nested_ind;
    intros Hfree.
  - repeat constructor; done.
  - destruct b; repeat constructor; done.
  - discriminate.
  - repeat constructor; done.
  - cbn [tokens_of]. constructor; [done|]. apply Forall_app. split; [|by repeat constructor].
    apply Forall_separated; [done|].
    cbn [number_free] in Hfree. rewrite forallb_forall in Hfree.
    apply Forall_forall. intros p Hp.
    apply list_elem_of_In, in_map_iff in Hp as (x & <- & Hx).
    rewrite Forall_forall in IH. apply IH; [by apply list_elem_of_In|by apply Hfree].
  - cbn [tokens_of]. constructor; [done|]. apply Forall_app. split; [|by repeat constructor].
    apply Forall_separated; [done|].
    cbn [number_free] in Hfree. rewrite forallb_forall in Hfree.
    apply Forall_forall. intros p Hp.
    apply list_elem_of_In, in_map_iff in Hp as (x & <- & Hx).
    constructor; [done|]. constructor; [done|].
    rewrite Forall_forall in IH. apply IH; [by apply list_elem_of_In|by apply Hfree].
  - constructor.
Qed.

(** *** Parsing the tokens of a value *)

Lemma parse_tokens_elements (l : list JSValue) :
  Forall (fun v => date_free v = true -> plain_objects v = true -> parses v) l ->
  forallb date_free l = true -> forallb plain_objects l = true -> l <> [] ->
  forall stack acc rest m, m = MValue \/ m = MValueOrClose ->
    parse_tokens (FArr acc :: stack) m
      (separated (map tokens_of l) ++ TRBracket :: rest)
    = match complete (VArr (rev acc ++ l)) stack with
      | Some (stack', m') => parse_tokens stack' m' rest
      | None => None
      end.
Proof.
  induction 1 as [|v l Hv _ IH]; intros Hfree Hplain Hne stack acc rest m Hm; [done|].
  cbn [forallb] in Hfree, Hplain.
  apply andb_true_iff in Hfree as [Hfv Hfl].
  apply andb_true_iff in Hplain as [Hpv Hpl].
  destruct l as [|v2 l].
  - cbn [map separated]. rewrite (Hv Hfv Hpv _ _ _ Hm). cbn [complete].
    cbn [parse_tokens parse_step close_array]. reflexivity.
  - change (separated (map tokens_of (v :: v2 :: l)))
      with (tokens_of v ++ [TComma] ++ separated (map tokens_of (v2 :: l))).
    rewrite <- app_assoc. rewrite (Hv Hfv Hpv _ _ _ Hm). cbn [complete].
    cbn [app parse_tokens parse_step].
    rewrite (IH Hfl Hpl) by (done || by left).
    cbn [rev]. by rewrite <- app_assoc.
Qed.

Lemma parse_tokens_members (ms : list (list N * JSValue)) :
  Forall (fun kv => date_free (snd kv) = true -> plain_objects (snd kv) = true ->
                    parses (snd kv)) ms ->
  forallb (fun kv => date_free (snd kv)) ms = true ->
  forallb (fun kv => plain_objects (snd kv)) ms = true -> ms <> [] ->
  forall stack acc rest m, m = MKeyOrClose \/ m = MKey ->
    parse_tokens (FObj acc :: stack) m
      (separated (map (fun kv => TString (fst kv) :: TColon :: tokens_of (snd kv)) ms)
       ++ TRBrace :: rest)
    = match complete (VObj (object_of_members (rev acc ++ ms))) stack with
      | Some (stack', m') => parse_tokens stack' m' rest
      | None => None
      end.
Proof.
  induction 1 as [|[k v] ms Hv _ IH]; intros Hfree Hplain Hne stack acc rest m Hm;
    [done|].
  cbn [forallb snd] in Hfree, Hplain.
  apply andb_true_iff in Hfree as [Hfv Hfl].
  apply andb_true_iff in Hplain as [Hpv Hpl].
  cbn [snd] in Hv.
  assert (Hkey : forall more,
             parse_tokens (FObj acc :: stack) m
               ((TString k :: TColon :: tokens_of v) ++ more)
             = parse_tokens (FObj ((k, v) :: acc) :: stack) MAfter more).
  { intros more. cbn [app parse_tokens].
    replace (parse_step (FObj acc :: stack) m (TString k))
      with (Some (FKey k :: FObj acc :: stack, MColon))
      by (by destruct Hm as [->| ->]).
    cbn [parse_step]. by rewrite (Hv Hfv Hpv) by by left. }
  destruct ms as [|kv2 ms].
  - cbn [map separated fst snd]. rewrite Hkey.
    cbn [parse_tokens parse_step close_object]. reflexivity.
  - change (separated (map ?f ((k, v) :: kv2 :: ms)))
      with (f (k, v) ++ [TComma] ++ separated (map f (kv2 :: ms))).
    cbn [fst snd]. rewrite <- app_assoc. rewrite Hkey.
    cbn [app parse_tokens parse_step].
    rewrite (IH Hfl Hpl) by (done || by right).
    cbn [rev]. by rewrite <- app_assoc.
Qed.

(** Members with distinct names, none an array index, make the object that
    lists them as they are. *)
Lemma define_new_properties (ms ps : list (jsstring * JSValue)) :
  NoDup (map fst (ps ++ ms)) -> fold_left CreateDataProperty ms ps = ps ++ ms.
Proof.
  revert ps. induction ms as [|kv ms IH]; intros ps Hnd; [by rewrite app_nil_r|].
  cbn [fold_left]. unfold CreateDataProperty at 2.
  replace (existsb (fun p => str_eq (fst p) (fst kv)) ps) with false.
  - rewrite IH; rewrite <- app_assoc; done.
  - symmetry. apply not_true_iff_false. intros H.
    apply existsb_exists in H as (p & Hp & Heq). apply str_eq_true in Heq.
    rewrite map_app in Hnd. apply NoDup_app in Hnd as (_ & Hdisj & _).
    apply (Hdisj (fst kv)).
    + rewrite <- Heq. apply list_elem_of_fmap. exists p. split; [done|].
      by apply list_elem_of_In.
    + by left.
Qed.

Lemma no_index_keys (ps : list (jsstring * JSValue)) :
  forallb (fun kv => bool_decide (array_index (fst kv) = None)) ps = true ->
  OrdinaryOwnPropertyKeys ps = ps.
Proof.
  intros H. unfold OrdinaryOwnPropertyKeys.
  induction ps as [|kv ps IH]; [reflexivity|].
  cbn [forallb] in H. apply andb_true_iff in H as [Hkv Hps].
  apply bool_decide_eq_true in Hkv. cbn [fold_right List.filter].
  rewrite Hkv. specialize (IH Hps).
  destruct (fold_right _ [] ps) as [|x xs] eqn:E.
  - cbn [map app] in IH |- *. by rewrite IH.
  - exfalso. clear IH Hkv. revert x xs E.
    induction ps as [|kv' ps IH']; intros x xs E; [discriminate|].
    cbn [forallb] in Hps. apply andb_true_iff in Hps as [Hkv' Hps].
    apply bool_decide_eq_true in Hkv'. cbn [fold_right] in E. rewrite Hkv' in E.
    by eapply IH'.
Qed.

Lemma object_of_members_plain ms : plain_names ms = true -> object_of_members ms = ms.
Proof.
  unfold plain_names, object_of_members. intros H.
  apply andb_true_iff in H as [Hnd Hidx]. apply bool_decide_eq_true in Hnd.
  rewrite define_new_properties by done. by apply no_index_keys.
Qed.

Lemma parse_tokens_value v :
  date_free v = true -> plain_objects v = true -> parses v.
Proof.
  induction v as [ |b|literal|s|l IH|ms IH|v IH] using JSValue_nested_ind;
    intros Hfree Hplain stack rest m Hm.
  - by destruct Hm as [->| ->].
  - by destruct b, Hm as [->| ->].
  - by destruct Hm as [->| ->].
  - by destruct Hm as [->| ->].
  - cbn [tokens_of app parse_tokens].
    replace (parse_step stack m TLBracket)
      with (Some (FArr [] :: stack, MValueOrClose)) by (by destruct Hm as [->| ->]).
    destruct l as [|v l]; [reflexivity|].
    rewrite <- app_assoc. change ([TRBracket] ++ rest) with (TRBracket :: rest).
    by rewrite (parse_tokens_elements (v :: l) IH Hfree Hplain) by (done || by right).
  - cbn [tokens_of app parse_tokens].
    replace (parse_step stack m TLBrace)
      with (Some (FObj [] :: stack, MKeyOrClose)) by (by destruct Hm as [->| ->]).
    destruct ms as [|kv ms]; [reflexivity|].
    rewrite <- app_assoc. change ([TRBrace] ++ rest) with (TRBrace :: rest).
    cbn [plain_objects] in Hplain. apply andb_true_iff in Hplain as [Hnames Hplain].
    rewrite (parse_tokens_members (kv :: ms) IH Hfree Hplain) by (done || by left).
    cbn [rev app]. by rewrite (object_of_members_plain _ Hnames).
  - discriminate.
Qed.

(** Every value without dates and numbers, and with no name repeated or an
    array index, is read back from its text. *)
Lemma JSON_parse_text_tokens_of v :
  date_free v = true -> number_free v = true -> plain_objects v = true ->
  JSON_parse_text (tokens_text (tokens_of v)) = Return v.
Proof.
  intros Hd Hn Hp. unfold JSON_parse_text.
  rewrite lex_of_lex_run, (lex_run_tokens _ (tokens_of_number_free v Hn)).
  cbn [lex_end]. rewrite app_nil_r.
  rewrite <- (app_nil_r (tokens_of v)).
  by rewrite (parse_tokens_value v Hd Hp) by by left.
Qed.

(** *** The text of the collection is the text of its document *)

Lemma tokens_text_app ts1 ts2 :
  tokens_text (ts1 ++ ts2) = tokens_text ts1 ++ tokens_text ts2.
Proof. unfold tokens_text. apply flat_map_app. Qed.

Lemma commas_separated {X} (f : X -> list N) (g : X -> list Token) (l : list X) :
  (forall x, f x = tokens_text (g x)) ->
  commas (map f l) = tokens_text (separated (map g l)).
Proof.
  intros Hfg. induction l as [|x l IH]; [done|].
  destruct l as [|y l]; [apply Hfg|].
  change (commas (map f (x :: y :: l)))
    with (f x ++ [44] ++ commas (map f (y :: l))).
  change (separated (map g (x :: y :: l)))
    with (g x ++ [TComma] ++ separated (map g (y :: l))).
  by rewrite !tokens_text_app, <- IH, Hfg.
Qed.

Lemma text_of_VArr l :
  tokens_text (tokens_of (VArr l))
  = array (map (fun v => tokens_text (tokens_of v)) l).
Proof.
  unfold array. cbn [tokens_of]. change (TLBracket :: ?x) with ([TLBracket] ++ x).
  rewrite !tokens_text_app. f_equal. f_equal.
  symmetry. by apply commas_separated.
Qed.

Lemma text_of_VObj ms :
  tokens_text (tokens_of (VObj ms))
  = object (map (fun kv => quote (fst kv) ++ [58] ++ tokens_text (tokens_of (snd kv)))
              ms).
Proof.
  unfold object. cbn [tokens_of]. change (TLBrace :: ?x) with ([TLBrace] ++ x).
  rewrite !tokens_text_app. f_equal. f_equal.
  symmetry. apply commas_separated. intros [k v]. cbn [fst snd].
  change (TString k :: TColon :: tokens_of v)
    with ([TString k] ++ [TColon] ++ tokens_of v).
  rewrite !tokens_text_app. unfold tokens_text at 1 2. simpl.
  by rewrite app_nil_r.
Qed.

Lemma text_of_VStr s : tokens_text (tokens_of (VStr s)) = quote s.
Proof. unfold tokens_text. simpl. by rewrite app_nil_r. Qed.

Lemma text_of_Date t :
  tokens_text (tokens_of (document_of_Date t)) = stringify_Date t.
Proof.
  unfold document_of_Date, stringify_Date.
  destruct (_ && _); [apply text_of_VStr|reflexivity].
Qed.

Lemma text_of_Message m :
  tokens_text (tokens_of (document_of_Message (fun v => v) m)) = stringify_Message m.
Proof.
  unfold document_of_Message, stringify_Message, member.
  rewrite text_of_VObj. cbn [map fst snd].
  rewrite !text_of_VStr, text_of_Date.
  by destruct (sender m).
Qed.

Lemma text_of_FuelingRequest r :
  tokens_text (tokens_of (document_of_FuelingRequest (fun v => v) r))
  = stringify_FuelingRequest r.
Proof.
  unfold document_of_FuelingRequest, stringify_FuelingRequest, member.
  rewrite text_of_VObj. cbn [map fst snd].
  rewrite !text_of_VStr, text_of_VArr, map_map.
  rewrite (map_ext _ _ text_of_Message).
  by destruct (status r), (hasUnreadUpdates r).
Qed.

Lemma text_of_document requests0 :
  tokens_text (tokens_of (document_of (fun v => v) requests0))
  = JSON_stringify requests0.
Proof.
  unfold document_of, JSON_stringify.
  rewrite text_of_VArr, map_map. by rewrite (map_ext _ _ text_of_FuelingRequest).
Qed.

(** *** The document has no dates or numbers before it is revived, and
    dates under [timestamp] after *)

Lemma document_of_Date_plain t :
  date_free (document_of_Date t) = true /\ number_free (document_of_Date t) = true
  /\ revive (document_of_Date t) = document_of_Date t.
Proof. unfold document_of_Date. by destruct (_ && _). Qed.

Lemma document_of_Message_plain m :
  date_free (document_of_Message (fun v => v) m) = true
  /\ number_free (document_of_Message (fun v => v) m) = true
  /\ revive (document_of_Message (fun v => v) m) = document_of_Message VDate m.
Proof.
  destruct (document_of_Date_plain (timestamp m)) as (Hd & Hn & Hr).
  unfold document_of_Message. cbn [date_free number_free forallb snd].
  rewrite Hd, Hn. split; [by destruct (sender m)|]. split; [by destruct (sender m)|].
  cbn [revive map fst snd].
  change (str_eq (ascii_units "id") key_timestamp) with false.
  change (str_eq (ascii_units "sender") key_timestamp) with false.
  change (str_eq (ascii_units "text") key_timestamp) with false.
  change (str_eq (ascii_units "timestamp") key_timestamp) with true.
  cbv iota. rewrite Hr. by destruct (sender m).
Qed.

Lemma forallb_map_true {X Y} (f : Y -> bool) (g : X -> Y) (l : list X) :
  (forall x, f (g x) = true) -> forallb f (map g l) = true.
Proof. intros H. induction l; simpl; [done|]. by rewrite H. Qed.

Lemma document_of_FuelingRequest_plain r :
  date_free (document_of_FuelingRequest (fun v => v) r) = true
  /\ number_free (document_of_FuelingRequest (fun v => v) r) = true
  /\ revive (document_of_FuelingRequest (fun v => v) r)
     = document_of_FuelingRequest VDate r.
Proof.
  unfold document_of_FuelingRequest. cbn [date_free number_free forallb snd].
  rewrite !forallb_map_true by (intros m; apply document_of_Message_plain).
  split; [by destruct (status r)|]. split; [by destruct (status r)|].
  cbn [revive map fst snd].
  change (str_eq (ascii_units "id") key_timestamp) with false.
  change (str_eq (ascii_units "clientId") key_timestamp) with false.
  change (str_eq (ascii_units "standNumber") key_timestamp) with false.
  change (str_eq (ascii_units "airline") key_timestamp) with false.
  change (str_eq (ascii_units "flightNumber") key_timestamp) with false.
  change (str_eq (ascii_units "representativeName") key_timestamp) with false.
  change (str_eq (ascii_units "status") key_timestamp) with false.
  change (str_eq (ascii_units "messages") key_timestamp) with false.
  change (str_eq (ascii_units "hasUnreadUpdates") key_timestamp) with false.
  cbv iota. rewrite map_map.
  rewrite (map_ext _ (document_of_Message VDate))
    by (intros m; apply document_of_Message_plain).
  by destruct (status r).
Qed.

Lemma document_of_Message_names m :
  plain_objects (document_of_Message (fun v => v) m) = true.
Proof.
  unfold document_of_Message, document_of_Date.
  by destruct (sender m), (_ && _).
Qed.

Lemma document_of_FuelingRequest_names r :
  plain_objects (document_of_FuelingRequest (fun v => v) r) = true.
Proof.
  unfold document_of_FuelingRequest. cbn [plain_objects forallb snd].
  rewrite forallb_map_true by apply document_of_Message_names.
  by destruct (status r).
Qed.

(** The text written for a collection is read back as its document. *)
Lemma JSON_stringify_parses (requests0 : list FuelingRequest) :
  JSON_parse_text (JSON_stringify requests0)
  = Return (document_of (fun v => v) requests0)
  /\ JSON_parse (JSON_stringify requests0) = Return (loaded_document requests0).
Proof.
  assert (Hplain : forall r, date_free (document_of_FuelingRequest (fun v => v) r) = true
                             /\ number_free (document_of_FuelingRequest (fun v => v) r)
                                = true)
    by (intros r; split; apply document_of_FuelingRequest_plain).
  assert (Htext : JSON_parse_text (JSON_stringify requests0)
                  = Return (document_of (fun v => v) requests0)).
  { rewrite <- text_of_document. apply JSON_parse_text_tokens_of.
    - unfold document_of. cbn [date_free]. apply forallb_map_true, Hplain.
    - unfold document_of. cbn [number_free]. apply forallb_map_true, Hplain.
    - unfold document_of. cbn [plain_objects].
      apply forallb_map_true, document_of_FuelingRequest_names. }
  split; [exact Htext|].
  unfold JSON_parse. rewrite Htext. f_equal.
  unfold loaded_document, document_of. cbn [revive]. rewrite map_map.
  f_equal. apply map_ext. intros r. apply document_of_FuelingRequest_plain.
Qed.

(** X13: what [JSON.stringify] writes for a request collection,
    [JSON.parse] reads back, for every collection and whatever code units
    its strings hold: without a reviver the result is the document of the
    collection, and with the reviver of the application it is that document
    with the value under every [timestamp] made a [Date]. *)
Theorem saved_collection_parses_back (requests0 : list FuelingRequest) :
  JSON_parse_text (JSON_stringify requests0)
  = Return (document_of (fun v => v) requests0)
  /\ JSON_parse (JSON_stringify requests0) = Return (loaded_document requests0).
Proof. apply JSON_stringify_parses. Qed.

Lemma JSON_stringify_nonempty requests0 : JSON_stringify requests0 <> [].
Proof. discriminate. Qed.

(** X14: a state change whose write to the store succeeds is what the next
    start-up finds: whatever the store held before, the initialiser then
    returns the document of the new collection, timestamps revived, and not
    the seed; it does not throw. *)
Theorem saved_collection_is_loaded_at_next_start
    (u : Updater) (prev requests' : list FuelingRequest) (w w' : World)
    (loaded : Date) :
  setRequests u prev w = (Return requests', w') ->
  requests' = u prev
  /\ items (localStorage w') !! key_fuelingRequests = Some (JSON_stringify (u prev))
  /\ App_initialState loaded w'
     = (Return (Revived (loaded_document (u prev))), w').
Proof.
  intros Hrun. unfold setRequests, persist, mbind, JS_bind, setItem in Hrun.
  destruct (_ <=? _); [|discriminate]. injection Hrun as <- <-.
  split; [done|].
  assert (Hitem : items (localStorage
                           (stored key_fuelingRequests (JSON_stringify (u prev)) w))
                  !! key_fuelingRequests = Some (JSON_stringify (u prev)))
    by apply lookup_insert_eq.
  split; [exact Hitem|].
  change {| localStorage := _; uuid_calls := _; clock := _ |}
    with (stored key_fuelingRequests (JSON_stringify (u prev)) w).
  rewrite (App_initialState_parsed _ _ _ Hitem (JSON_stringify_nonempty _)).
  by rewrite (proj2 (JSON_stringify_parses (u prev))).
Qed.

Lemma saved_collection_is_loaded_at_next_start_witness :
  App_initialState sample_time
    (stored key_fuelingRequests
       (JSON_stringify
          (handleStatusChange sample_requests (id seed_request_1) Confirmed
             sample_requests))
       malformed_world)
  = (Return
       (Revived
          (loaded_document
             (handleStatusChange sample_requests (id seed_request_1) Confirmed
                sample_requests))),
     stored key_fuelingRequests
       (JSON_stringify
          (handleStatusChange sample_requests (id seed_request_1) Confirmed
             sample_requests))
       malformed_world).
Proof.
  apply (saved_collection_is_loaded_at_next_start
           (handleStatusChange sample_requests (id seed_request_1) Confirmed)
           sample_requests
           (handleStatusChange sample_requests (id seed_request_1) Confirmed
              sample_requests)
           malformed_world).
  vm_compute. reflexivity.
Defined.

(** ** Ids stay unique under everything that changes the collection *)

Section Uniqueness.

Variable uuid_source : nat -> jsstring.

Variable Array_sort :
  (FuelingRequest -> FuelingRequest -> Z) -> list FuelingRequest -> list FuelingRequest.

Hypothesis uuid_source_inj : forall m n : nat, uuid_source m = uuid_source n -> m = n.

Hypothesis Array_sort_permutes : forall c l, Array_sort c l ≡ₚ l.

(** A collection whose requests all stem, with id and messages, from those
    of a well-formed one is well formed once its ids are unique. *)
Lemma collection_wf_stems (l l' : list FuelingRequest) w :
  (forall r', r' ∈ l' -> exists r, r ∈ l /\ id r' = id r /\ messages r' = messages r) ->
  NoDup (map id l') ->
  collection_wf uuid_source l w -> collection_wf uuid_source l' w.
Proof.
  intros Hstem Hnd ((_ & Hmsgs & Hfresh) & Hids).
  rewrite Forall_forall in Hmsgs.
  split; [split; [done|split]|].
  - apply Forall_forall. intros r' Hr'.
    destruct (Hstem r' Hr') as (r & Hr & _ & ->). by apply Hmsgs.
  - intros r' m n Hr' Hm Hn.
    destruct (Hstem r' Hr') as (r & Hr & _ & Heq). rewrite Heq in Hm.
    by apply (Hfresh r m n).
  - intros n Hn Hin. apply (Hids n Hn).
    apply list_elem_of_fmap in Hin as (r' & -> & Hr').
    destruct (Hstem r' Hr') as (r & Hr & -> & _).
    apply list_elem_of_fmap. by exists r.
Qed.

Lemma collection_wf_later (l : list FuelingRequest) w :
  collection_wf uuid_source l w -> collection_wf uuid_source l (uuid_drawn w).
Proof.
  intros ((Hnd & Hmsgs & Hfresh) & Hids). split; [split; [done|split; [done|]]|].
  - intros r m n Hr Hm Hn. simpl in Hn. apply (Hfresh r m n); [done|done|lia].
  - intros n Hn. simpl in Hn. apply Hids. lia.
Qed.

Lemma toggle_stems requests0 cid prevId i :
  NoDup (map id requests0) ->
  Forall2 (fun a b => id b = id a /\ messages b = messages a)
          requests0
          (snd (Client_handleToggleChat Array_sort requests0 cid prevId i) requests0).
Proof.
  intros Hnd. unfold Client_handleToggleChat. cbn [snd].
  assert (Hsame : Forall2 (fun a b => id b = id a /\ messages b = messages a)
                          requests0 requests0)
    by (apply Forall_Forall2_diag, Forall_forall; auto).
  destruct (find_by_id i (clientRequests Array_sort requests0 cid)) as [r|] eqn:Hfind;
    [|done].
  apply find_by_id_Some in Hfind as [Hin _].
  apply clientRequests_elem in Hin as [Hin _]; [|done].
  destruct (hasUnreadUpdates r); [|done].
  pose proof (updateRequest_pointwise requests0 requests0 r
                (with_hasUnreadUpdates r false) Hnd Hin (fun _ H => H) eq_refl) as Hpt.
  eapply Forall2_impl; [exact Hpt|]. by intros a b [[-> ->]|[_ ->]].
Qed.

Lemma Forall2_stems (l l' : list FuelingRequest) :
  Forall2 (fun a b => id b = id a /\ messages b = messages a) l l' ->
  (forall r', r' ∈ l' -> exists r, r ∈ l /\ id r' = id r /\ messages r' = messages r)
  /\ map id l' = map id l.
Proof.
  intros H. split.
  - intros r' Hr'. apply list_elem_of_lookup in Hr' as [k Hk].
    destruct (Forall2_lookup_r _ _ _ _ _ H Hk) as (r & Hr & Hid & Hm).
    exists r. split; [by eapply list_elem_of_lookup_2|done].
  - induction H as [|a b l l' [Hid _] _ IH]; simpl; congruence.
Qed.

Lemma app_step_wf e requests0 w :
  collection_wf uuid_source requests0 w ->
  exists requests' w',
    app_step uuid_source Array_sort e requests0 w = (Return requests', w')
    /\ collection_wf uuid_source requests' w'.
Proof.
  intros Hwf. pose proof Hwf as ((Hnd & Hmsgs & Hfresh) & Hids).
  destruct e as [cid data|a|cid prevId i|g].
  - eexists _, _. split; [reflexivity|].
    split; [split; [|split]|].
    + simpl. apply NoDup_cons. split; [|done]. apply Hids. lia.
    + constructor; [constructor|done].
    + intros r m n Hr Hm Hn. simpl in Hn.
      apply elem_of_cons in Hr as [->|Hr]; [by apply elem_of_nil in Hm|].
      apply (Hfresh r m n); [done|done|lia].
    + intros n Hn Hin. simpl in Hn. simpl in Hin.
      apply elem_of_cons in Hin as [Heq|Hin].
      * apply uuid_source_inj in Heq. lia.
      * apply (Hids n); [lia|done].
  - cbn [app_step].
    destruct (find_by_id (to_request a) requests0) as [r|] eqn:Hfind.
    + destruct (append_message_found uuid_source a requests0 r w Hnd Hfind)
        as (requests' & Hrun & Hstep).
      exists requests', (uuid_drawn w). split; [done|]. split.
      * eapply messages_wf_step; [done| |exact Hstep]. by repeat split.
      * intros n Hn. rewrite (appended_to_ids _ _ _ _ Hstep).
        simpl in Hn. apply Hids. lia.
    + exists requests0, w. split; [by apply append_message_unknown|done].
  - eexists _, _. split; [reflexivity|].
    destruct (Forall2_stems _ _ (toggle_stems requests0 cid prevId i Hnd))
      as [Hstem Hsame].
    apply (collection_wf_stems requests0); [done|by rewrite Hsame|done].
  - eexists _, _. split; [reflexivity|].
    destruct (perform_step g {| requests := requests0; modalState := modal_closed |} Hnd)
      as (Hnd' & _ & Hstem & _).
    apply (collection_wf_stems requests0); [|done|done].
    intros r' Hr'. destruct (Hstem r' Hr') as (r & Hr & (Hid & _) & Hm & _).
    exists r. by repeat split.
Qed.

(** X15: in a state where the ids of the requests and the message ids of
    each request are unique and the id generator neither repeats itself nor
    hands out an id in use, with a sort that permutes: every sequence of
    submissions taking effect, messages from either view, chats opened or
    closed and operator gestures runs to its end, and leaves the ids of the
    requests unique and the message ids of every request unique. *)
Theorem ids_stay_unique_under_all_events
    (es : list (AppEvent)) (requests0 : list FuelingRequest) (w : World) :
  collection_wf uuid_source requests0 w ->
  exists requests' w',
    app_run uuid_source Array_sort es requests0 w = (Return requests', w')
    /\ NoDup (map id requests')
    /\ Forall (fun r => NoDup (map msg_id (messages r))) requests'
    /\ collection_wf uuid_source requests' w'.
Proof.
  revert requests0 w. induction es as [|e es IH]; intros requests0 w Hwf.
  - exists requests0, w. split; [reflexivity|].
    split; [apply Hwf|]. split; [apply Hwf|done].
  - destruct (app_step_wf e requests0 w Hwf) as (requests1 & w1 & Hstep & Hwf1).
    destruct (IH requests1 w1 Hwf1) as (requests' & w' & Hrun & Hres).
    exists requests', w'. split; [|done].
    cbn [app_run]. unfold mbind, JS_bind. by rewrite Hstep.
Qed.

End Uniqueness.

Lemma sample_collection_wf : collection_wf sample_uuid sample_requests empty_world.
Proof.
  split; [apply sample_messages_wf|].
  intros n _ Hin.
  apply elem_of_cons in Hin as [Hin|Hin]; [discriminate|].
  apply list_elem_of_singleton in Hin. discriminate.
Qed.

Lemma ids_stay_unique_under_all_events_witness :
  exists requests' w',
    app_run sample_uuid (@V8_sort FuelingRequest) sample_events sample_requests
      empty_world
    = (Return requests', w')
    /\ NoDup (map id requests').
Proof.
  destruct (ids_stay_unique_under_all_events sample_uuid (@V8_sort FuelingRequest)
              sample_uuid_inj (@V8_sort_Permutation FuelingRequest)
              sample_events sample_requests empty_world sample_collection_wf)
    as (requests' & w' & Hrun & Hnd & _).
  by exists requests', w'.
Defined.

(** ** Typing while a submission is under way *)

Section Delay.

Variable uuid_source : nat -> jsstring.

(** A valid submission schedules its callback behind the pending timeouts
    and marks the form as submitting; the callback closes over the values
    the form holds then. *)
Lemma handleSubmit_valid st :
  some_blank (formData st) = false ->
  timers (handleSubmit st)
  = timers st ++ [{| delay := 500; callback := SubmitCallback (formData st) |}]
  /\ client_requests (handleSubmit st) = client_requests st.
Proof.
  intros Hb. unfold handleSubmit.
  pose proof (validateForm_valid (formData st)) as Hvalid.
  destruct (validateForm (formData st)) as [newErrors valid].
  simpl in Hvalid. subst valid. by rewrite Hb.
Qed.

(** X16: what is typed into the form between a valid submission and its
    timeout does not reach the request and does not stay in the form,
    whatever other timeouts are pending.  After the submission and the
    typing the submission's timeout is the last of the pending ones and
    carries the values the form held when it was submitted; when it fires,
    the request put in front of the collection is built from those values,
    the form is emptied, the submitting flag is lowered, and the other
    pending timeouts stay pending, followed by the one that hides the
    notice.  With no other timeout pending this is the firing of the
    oldest timeout. *)
Theorem typing_during_the_delay_is_dropped
    (cid : jsstring) (st : ClientState) (entries : list (Field * jsstring))
    (w : World) :
  some_blank (formData st) = false ->
  timers (type_all entries (handleSubmit st))
  = timers st ++ [{| delay := 500; callback := SubmitCallback (formData st) |}]
  /\ (exists st1,
        fire_timer_at uuid_source cid (length (timers st))
          (type_all entries (handleSubmit st)) w
        = (Return st1, uuid_drawn w)
        /\ client_requests st1
           = new_request uuid_source w cid (formData st) :: client_requests st
        /\ formData st1 = empty_form
        /\ isSubmitting st1 = false
        /\ timers st1
           = timers st ++ [{| delay := 3000; callback := HideSuccessCallback |}])
  /\ (timers st = [] ->
      exists st1,
        fire_timer uuid_source cid (type_all entries (handleSubmit st)) w
        = (Return st1, uuid_drawn w)
        /\ client_requests st1
           = new_request uuid_source w cid (formData st) :: client_requests st
        /\ formData st1 = empty_form
        /\ isSubmitting st1 = false).
Proof.
  intros Hb.
  destruct (type_all_frame entries (handleSubmit st)) as (Hreqs & Htimers & _).
  destruct (handleSubmit_valid st Hb) as [Hsub1 Hsub2].
  split; [by rewrite Htimers|]. split.
  - unfold fire_timer_at. rewrite Htimers, Hsub1.
    rewrite list_lookup_middle by done.
    cbn [callback run_callback].
    eexists. split; [reflexivity|].
    cbn [client_requests formData isSubmitting timers].
    rewrite Hreqs, Hsub2. repeat split.
    by rewrite delete_middle, app_nil_r.
  - intros Ht. unfold fire_timer. rewrite Htimers, Hsub1, Ht.
    cbn [app callback run_callback].
    eexists. split; [reflexivity|]. cbn [client_requests formData isSubmitting].
    by rewrite Hreqs, Hsub2.
Qed.

End Delay.

Lemma typing_during_the_delay_is_dropped_witness :
  form_airline
    (formData (type_all [(name_airline, ascii_units "Other Air")]
                 (handleSubmit (toast_pending filled_form))))
  = ascii_units "Other Air"
  /\ timers (type_all [(name_airline, ascii_units "Other Air")]
               (handleSubmit (toast_pending filled_form)))
     = [ {| delay := 3000; callback := HideSuccessCallback |};
         {| delay := 500; callback := SubmitCallback filled_form |} ]
  /\ exists st1,
      fire_timer_at sample_uuid (ascii_units "client-abc") 1
        (type_all [(name_airline, ascii_units "Other Air")]
           (handleSubmit (toast_pending filled_form)))
        empty_world
      = (Return st1, uuid_drawn empty_world)
      /\ client_requests st1
         = new_request sample_uuid empty_world (ascii_units "client-abc") filled_form
           :: sample_requests
      /\ formData st1 = empty_form
      /\ isSubmitting st1 = false
      /\ timers st1
         = [ {| delay := 3000; callback := HideSuccessCallback |};
             {| delay := 3000; callback := HideSuccessCallback |} ].
Proof.
  split; [reflexivity|].
  destruct (typing_during_the_delay_is_dropped sample_uuid
              (ascii_units "client-abc") (toast_pending filled_form)
              [(name_airline, ascii_units "Other Air")] empty_world)
    as (Hpending & Hfire & _).
  - reflexivity.
  - split; [exact Hpending|exact Hfire].
Defined.
